(** * ProcessGroupGloo: a shallow embedding of the collective backend

    The development follows [ProcessGroupGloo.cpp]: the sparse metadata
    record, the sparse allreduce engine, the dense allreduce work item,
    the dispatch layer with its tag allocator, the point-to-point calls,
    the receive handle and the worker pool; then the broadcast,
    coalesced allreduce, allgather, gather and barrier work items, the
    constructor, and the collective calls interleaved with the worker
    threads.

    Conventions.  C++ integers are [Z]; [uint32_t] arithmetic is written
    with its reduction modulo [2^32].  A thrown exception is the [Throw]
    result of the [Result] type.  Tensors live in a store indexed by
    handles wherever the code relies on [at::Tensor] being a shared
    reference. *)

From Stdlib Require Import ZArith List Lia Bool Sorted.
From stdpp Require Import base option list gmap strings pretty.
Import ListNotations.

Local Open Scope Z_scope.

(** ** Exceptions and results *)

Inductive exn : Type :=
| InvalidArgument (msg : string)   (* std::invalid_argument *)
| RuntimeError (msg : string).     (* std::runtime_error, AT_ASSERT, AT_CHECK *)

Inductive Result (A : Type) : Type :=
| Ok (a : A)
| Throw (e : exn).
Arguments Ok {A} a.
Arguments Throw {A} e.

Definition rbind {A B : Type} (r : Result A) (k : A -> Result B) : Result B :=
  match r with
  | Ok a => k a
  | Throw e => Throw e
  end.

(** [Result] is an error monad; [x ← e; k] and [e;; k] are stdpp's
    notations for its bind. *)
#[global] Instance Result_ret : MRet Result := fun A a => Ok a.
#[global] Instance Result_bind : MBind Result := fun A B k r => rbind r k.

(** [AT_ASSERT(cond)] and [AT_CHECK(cond, msg)] *)
Definition AT_ASSERT (b : bool) (msg : string) : Result unit :=
  if b then Ok tt else Throw (RuntimeError msg).

Fixpoint sequence {A : Type} (l : list (Result A)) : Result (list A) :=
  match l with
  | [] => Ok []
  | r :: l' => a ← r; rest ← sequence l'; Ok (a :: rest)
  end.

(** ** Scalar types, layouts, devices, reduce operations *)

Inductive ScalarType : Type :=
| Byte | Char | Short | Int | Long | Half | Float | Double
| ComplexHalf | ComplexFloat | ComplexDouble | Bool
| QInt8 | QUInt8 | QInt32 | BFloat16.

(** [GENERATE_ALL_TYPES(type, func, args...)]: runs [func] at the C type
    of [type]; the [default] branch throws. *)
Definition GENERATE_ALL_TYPES {A : Type} (type : ScalarType) (func : Result A)
  : Result A :=
  match type with
  | Float | Double | Half | Char | Byte | Int | Long => func
  | _ => Throw (RuntimeError "Invalid scalar type")
  end.

Inductive Layout : Type := kStrided | kSparse | kMkldnn.
Inductive DeviceType : Type := kCPU | kCUDA | kOtherDevice.
Inductive ReduceOp : Type := SUM | PRODUCT | MIN | MAX | UNUSED.

Definition Layout_eqb (a b : Layout) : bool :=
  match a, b with
  | kStrided, kStrided | kSparse, kSparse | kMkldnn, kMkldnn => true
  | _, _ => false
  end.

Definition DeviceType_eqb (a b : DeviceType) : bool :=
  match a, b with
  | kCPU, kCPU | kCUDA, kCUDA | kOtherDevice, kOtherDevice => true
  | _, _ => false
  end.

Definition ScalarType_eq_dec : forall a b : ScalarType, {a = b} + {a <> b}.
Proof. decide equality. Defined.

Definition ScalarType_eqb (a b : ScalarType) : bool :=
  if ScalarType_eq_dec a b then true else false.

(** ** Coordinate-sparse tensors

    A sparse-coo tensor has an index tensor of shape [sparse_dim x nnz]
    and a value tensor of shape [nnz x dense sizes].  The record keeps
    the index tensor column by column and pairs column [k] with value
    block [k]; [indices] and [values] are the two views the code reads.
    The value block type [V] is abstract. *)

Record SparseTensor (V : Type) : Type := mkSparse {
  scalar_type : ScalarType;
  sparse_dim : nat;
  dense_dim : nat;
  sizes : list Z;
  entries : list (list Z * V)
}.
Arguments mkSparse {V}.
Arguments scalar_type {V}.
Arguments sparse_dim {V}.
Arguments dense_dim {V}.
Arguments sizes {V}.
Arguments entries {V}.

Definition indices {V} (t : SparseTensor V) : list (list Z) := map fst (entries t).
Definition values {V} (t : SparseTensor V) : list V := map snd (entries t).
Definition _nnz {V} (t : SparseTensor V) : Z := Z.of_nat (length (entries t)).
(** [tensor.size(i)] *)
Definition tsize {V} (t : SparseTensor V) (i : nat) : Z := nth i (sizes t) 0.

(** ** The sparse metadata record (AsyncSparseAllreduceWork::SparseTensorMetadata) *)

Module SparseTensorMetadata.

Definition dim : nat := 9.

(** The nine [long] slots behind [data_]. *)
Abbreviation Data := (list Z).

Definition get (d : Data) (i : nat) : Z := nth i d 0.

(** A row of the [at::zeros] buffer of [allgather_metadata]. *)
Definition zeros : Data := repeat 0 dim.

Definition populate_from_sparse_tensor {V} (tensor : SparseTensor V) (data_ : Data)
  : Result Data :=
  let sd := sparse_dim tensor in
  AT_ASSERT (sd <=? 4)%nat "sparse_dim <= 4";;
  let data1 :=
    fold_left (fun d i => if (i <? sd)%nat then <[i := tsize tensor i]> d else d)
              (seq 0 4) data_ in
  let dd := dense_dim tensor in
  AT_ASSERT (dd <=? 4)%nat "dense_dim <= 4";;
  let data2 :=
    fold_left (fun d i => if (i <? dd)%nat
                          then <[(i + 4)%nat := tsize tensor (sd + i)]> d else d)
              (seq 0 4) data1 in
  Ok (<[8%nat := _nnz tensor]> data2).

(** [for (i = from; i < from + n; i++) { if (data_[i] <= 0) break; push_back }] *)
Fixpoint sizes_loop (data_ : Data) (i n : nat) : list Z :=
  match n with
  | O => []
  | S n' =>
      if get data_ i <=? 0 then []
      else get data_ i :: sizes_loop data_ (S i) n'
  end.

Definition sizes (data_ : Data) : list Z :=
  sizes_loop data_ 0 4 ++ sizes_loop data_ 4 4.

Definition nnz (data_ : Data) : Z := get data_ 8.

End SparseTensorMetadata.

Module Meta := SparseTensorMetadata.

(** ** Value blocks

    The value tensor of a sparse tensor holds one dense block per stored
    index.  The engine only adds blocks, so the scalar type enters through
    an addition and its zero. *)

Class ValueBlock (V : Type) : Type := {
  vadd : V -> V -> V;
  vzero : V
}.

(** Integer scalar types add with wrap-around, which keeps addition
    associative and commutative; these are the laws the proofs use. *)
Class ValueBlockLaws (V : Type) `{ValueBlock V} : Prop := {
  vadd_assoc : forall a b c : V, vadd a (vadd b c) = vadd (vadd a b) c;
  vadd_comm : forall a b : V, vadd a b = vadd b a;
  vadd_zero_l : forall a : V, vadd vzero a = a
}.

(** What [at::empty] leaves in a freshly allocated buffer. *)
Class Uninitialized (V : Type) : Type := {
  uninit_index : list Z;
  uninit_value : V
}.

(** ** Tensor-library operations on sparse tensors *)

(** Indices are ordered as the flattened index orders them: first
    coordinate first. *)
Fixpoint coord_compare (a b : list Z) : comparison :=
  match a, b with
  | [], [] => Eq
  | [], _ :: _ => Lt
  | _ :: _, [] => Gt
  | x :: a', y :: b' =>
      match x ?= y with
      | Eq => coord_compare a' b'
      | c => c
      end
  end.

Definition coord_lt (a b : list Z) : Prop := coord_compare a b = Lt.

Definition coord_eqb (a b : list Z) : bool :=
  match coord_compare a b with
  | Eq => true
  | _ => false
  end.

Section SparseOps.
Context {V : Type} `{ValueBlock V}.

(** The value a sparse tensor denotes at a coordinate: the sum of the
    blocks stored under that index. *)
Fixpoint value_at_entries (l : list (list Z * V)) (c : list Z) : V :=
  match l with
  | [] => vzero
  | (c', v) :: r =>
      if coord_eqb c' c then vadd v (value_at_entries r c)
      else value_at_entries r c
  end.

Definition value_at (t : SparseTensor V) (c : list Z) : V :=
  value_at_entries (entries t) c.

Fixpoint insert_entry (c : list Z) (v : V) (l : list (list Z * V))
  : list (list Z * V) :=
  match l with
  | [] => [(c, v)]
  | (c', v') :: r =>
      match coord_compare c c' with
      | Lt => (c, v) :: l
      | Eq => (c', vadd v' v) :: r
      | Gt => (c', v') :: insert_entry c v r
      end
  end.

Definition coalesce_entries (l : list (list Z * V)) : list (list Z * V) :=
  fold_left (fun acc e => insert_entry (fst e) (snd e) acc) l [].

(** Modelled from the spec: [Tensor::coalesce] of the tensor library,
    "canonicalize a coordinate-sparse tensor: unique, sorted indices
    with summed values". *)
Definition coalesce (t : SparseTensor V) : SparseTensor V :=
  mkSparse (scalar_type t) (sparse_dim t) (dense_dim t) (sizes t)
           (coalesce_entries (entries t)).

(** Unique, sorted indices. *)
Definition is_coalesced (t : SparseTensor V) : Prop :=
  StronglySorted coord_lt (indices t).

Definition same_shape (a b : SparseTensor V) : bool :=
  bool_decide (sizes a = sizes b)
  && (sparse_dim a =? sparse_dim b)%nat
  && (dense_dim a =? dense_dim b)%nat
  && ScalarType_eqb (scalar_type a) (scalar_type b).

(** Modelled from the spec: in-place addition [self += other] of two
    sparse tensors of the tensor library.  The operands must agree in
    type and sizes; the sum stores the entries of both. *)
Definition add_ (self other : SparseTensor V) : Result (SparseTensor V) :=
  if same_shape self other
  then Ok (mkSparse (scalar_type self) (sparse_dim self) (dense_dim self)
                    (sizes self) (entries self ++ entries other))
  else Throw (RuntimeError "add: expected 'self' and 'other' to have same size").

(** Modelled from the spec: [at::sparse_coo_tensor(indices, values,
    sizes, options)].  The numbers of sparse and dense dimensions are
    those of the buffers the index and value tensors were cut from.  The
    indices come from coalesced tensors of these sizes; the range check
    the tensor library makes on them is not part of the model. *)
Definition sparse_coo_tensor (ty : ScalarType) (sd dd : nat)
           (idx : list (list Z)) (vals : list V) (sz : list Z) : SparseTensor V :=
  mkSparse ty sd dd sz (combine idx vals).

End SparseOps.

(** ** Tensor store

    An [at::Tensor] is a handle; a vector of tensors is a list of
    handles into a store. *)

Record Proc (V : Type) : Type := mkProc {
  heap : gmap nat (SparseTensor V);
  tensors : list nat
}.
Arguments mkProc {V}.
Arguments heap {V}.
Arguments tensors {V}.

(** [gloo::Context]: this process's rank and the group size. *)
Record GlooContext : Type := mkContext {
  ctx_rank : nat;
  ctx_size : nat
}.

(** ** Transport *)

(** [gloo::allgather] with only the output buffer set: the buffer has one
    slot per rank, every rank contributes the slot at its own rank, and
    afterwards every rank holds all contributions.  [buffers] lists the
    buffer of each rank before the call; the result is the buffer every
    rank holds after it. *)
Definition gloo_allgather {A : Type} (dflt : A) (buffers : list (list A)) : list A :=
  imap (fun i buf => nth i buf dflt) buffers.

(** [t.narrow(dim, 0, len)] on the list of slices along [dim]. *)
Definition narrow {A : Type} (row : list A) (len : Z) : Result (list A) :=
  if (0 <=? len) && (len <=? Z.of_nat (length row))
  then Ok (firstn (Z.to_nat len) row)
  else Throw (RuntimeError "start out of range").

(** [row.narrow(dim, 0, len(src)).copy_(src)] *)
Definition narrow_copy_ {A : Type} (row src : list A) : Result (list A) :=
  narrow row (Z.of_nat (length src));;
  Ok (src ++ skipn (length src) row).

(** ** AsyncSparseAllreduceWork *)

Section SparseAllreduce.
Context {V : Type} `{ValueBlock V} `{Uninitialized V}.

(** [auto input = tensors[0]; for (i = 1 ..) input += tensors[i];]
    [input] shares the storage of [tensors[0]], so the sum is written
    into the store. *)
Fixpoint local_reduction (h : gmap nat (SparseTensor V)) (input : nat)
         (rest : list nat) : Result (gmap nat (SparseTensor V)) :=
  match rest with
  | [] => Ok h
  | t :: rest' =>
      match h !! input, h !! t with
      | Some a, Some b =>
          s ← add_ a b;
          local_reduction (<[input := s]> h) input rest'
      | _, _ => Throw (RuntimeError "undefined tensor")
      end
  end.

(** The first lines of [sparse_allreduce], up to [input = input.coalesce()]. *)
Definition local_input (p : Proc V)
  : Result (gmap nat (SparseTensor V) * SparseTensor V) :=
  match tensors p with
  | [] => Throw (RuntimeError "vector index out of range")
  | t0 :: rest =>
      h ← local_reduction (heap p) t0 rest;
      match h !! t0 with
      | Some input => Ok (h, coalesce input)
      | None => Throw (RuntimeError "undefined tensor")
      end
  end.

(** The buffer of [allgather_metadata] on rank [rank] just before the
    transport call. *)
Definition metadata_buffer (size rank : nat) (tensor : SparseTensor V)
  : Result (list Meta.Data) :=
  let buffer := repeat Meta.zeros size in
  row ← Meta.populate_from_sparse_tensor tensor (nth rank buffer Meta.zeros);
  Ok (<[rank := row]> buffer).

(** [allgather_metadata]: [inputs] holds the tensor each rank passes. *)
Definition allgather_metadata (context : GlooContext)
           (inputs : list (SparseTensor V)) : Result (list Meta.Data) :=
  bufs ← sequence (imap (fun i t => metadata_buffer (ctx_size context) i t) inputs);
  Ok (gloo_allgather Meta.zeros bufs).

(** The sanity check of dimensionality across ranks. *)
Definition check_sizes (context : GlooContext) (metadata : list Meta.Data)
  : Result unit :=
  let expected := Meta.sizes (nth (ctx_rank context) metadata []) in
  AT_ASSERT
    (forallb (fun i => (i =? ctx_rank context)%nat
                       || bool_decide (Meta.sizes (nth i metadata []) = expected))
             (seq 0 (ctx_size context)))
    "Sparse dimensions do not match".

Definition max_nnz (metadata : list Meta.Data) : Result Z :=
  match metadata with
  | [] => Throw (RuntimeError "vector index out of range")
  | m0 :: rest => Ok (fold_left (fun m x => Z.max m (Meta.nnz x)) rest (Meta.nnz m0))
  end.

(** The index buffer of shape [size x sparse_dim x max_nnz] on rank
    [rank] before the transport call, one list of columns per rank. *)
Definition indices_buffer (size rank : nat) (tensor : SparseTensor V) (mx : Z)
  : Result (list (list (list Z))) :=
  let empty := repeat uninit_index (Z.to_nat mx) in
  let buffer := repeat empty size in
  row ← narrow_copy_ (nth rank buffer empty) (indices tensor);
  Ok (<[rank := row]> buffer).

Definition allgather_indices (context : GlooContext)
           (inputs : list (SparseTensor V)) (metadata : list Meta.Data)
  : Result (list (list (list Z))) :=
  mx ← max_nnz metadata;
  bufs ← sequence (imap (fun i t => indices_buffer (ctx_size context) i t mx) inputs);
  let buffer := gloo_allgather [] bufs in
  sequence (imap (fun i m => narrow (nth i buffer []) (Meta.nnz m)) metadata).

(** The value buffer of shape [size x max_nnz x dense sizes]. *)
Definition values_buffer (size rank : nat) (tensor : SparseTensor V) (mx : Z)
  : Result (list (list V)) :=
  let empty := repeat uninit_value (Z.to_nat mx) in
  let buffer := repeat empty size in
  row ← narrow_copy_ (nth rank buffer empty) (values tensor);
  Ok (<[rank := row]> buffer).

Definition allgather_values (context : GlooContext)
           (inputs : list (SparseTensor V)) (metadata : list Meta.Data)
  : Result (list (list V)) :=
  mx ← max_nnz metadata;
  bufs ← sequence (imap (fun i t => values_buffer (ctx_size context) i t mx) inputs);
  tensor ← match inputs !! ctx_rank context with
           | Some t => Ok t
           | None => Throw (RuntimeError "rank out of range")
           end;
  GENERATE_ALL_TYPES (scalar_type tensor) (Ok tt);;
  let buffer := gloo_allgather [] bufs in
  sequence (imap (fun i m => narrow (nth i buffer []) (Meta.nnz m)) metadata).

(** The global reduction at the end of [sparse_allreduce]. *)
Definition global_reduction (input : SparseTensor V)
           (indices : list (list (list Z))) (values : list (list V))
  : Result (SparseTensor V) :=
  let build iv :=
    sparse_coo_tensor (scalar_type input) (sparse_dim input) (dense_dim input)
                      (fst iv) (snd iv) (sizes input) in
  match combine indices values with
  | [] => Throw (RuntimeError "vector index out of range")
  | iv0 :: rest =>
      fold_left (fun acc iv => output ← acc; add_ output (build iv))
                rest (Ok (build iv0))
  end.

(** [AsyncSparseAllreduceWork::allreduce] on rank [ctx_rank context].
    [world] lists, by rank, the store and the tensor list of every
    process of the group; all of them run this function, and the
    buffers the peers contribute are those the function fills on their
    side.  The result is this rank's store after the call and the
    tensor returned. *)
Definition sparse_allreduce (context : GlooContext) (world : list (Proc V))
  : Result (gmap nat (SparseTensor V) * SparseTensor V) :=
  locals ← sequence (map local_input world);
  match locals !! ctx_rank context with
  | None => Throw (RuntimeError "rank out of range")
  | Some (h, input) =>
      let inputs := map snd locals in
      metadata ← allgather_metadata context inputs;
      check_sizes context metadata;;
      indices ← allgather_indices context inputs metadata;
      values ← allgather_values context inputs metadata;
      AT_ASSERT (length indices =? ctx_size context)%nat "indices.size() == context->size";;
      AT_ASSERT (length values =? ctx_size context)%nat "values.size() == context->size";;
      output ← global_reduction input indices values;
      Ok (h, coalesce output)
  end.

(** The work item: [inputs] and [outputs] are vectors of handles. *)
Record AsyncSparseAllreduceWork : Type := mkSparseWork {
  sw_context : GlooContext;
  sw_inputs : list nat;
  sw_outputs : list nat;
  sw_tag : Z
}.

(** [output.clone()]: a new tensor with the same contents. *)
Definition clone (h : gmap nat (SparseTensor V)) (t : SparseTensor V)
  : gmap nat (SparseTensor V) * nat :=
  let o := fresh (dom h) in (<[o := t]> h, o).

(** [for (i = 0; i < inputs.size(); i++) outputs.push_back(output.clone());] *)
Fixpoint push_clones (h : gmap nat (SparseTensor V)) (outputs : list nat)
         (output : SparseTensor V) (n : nat)
  : gmap nat (SparseTensor V) * list nat :=
  match n with
  | O => (h, outputs)
  | S n' =>
      let '(h', o) := clone h output in
      push_clones h' (outputs ++ [o]) output n'
  end.

(** [AsyncSparseAllreduceWork::run].  [peers] are the other processes
    of the group as in [sparse_allreduce]; this rank's entry is replaced by the
    store given and the work item's inputs. *)
Definition run_world (h : gmap nat (SparseTensor V)) (work : AsyncSparseAllreduceWork)
           (peers : list (Proc V)) : list (Proc V) :=
  <[ctx_rank (sw_context work) := mkProc h (sw_inputs work)]> peers.

Definition sparse_run (h : gmap nat (SparseTensor V)) (work : AsyncSparseAllreduceWork)
           (peers : list (Proc V))
  : Result (gmap nat (SparseTensor V) * AsyncSparseAllreduceWork) :=
  '(h1, output) ← sparse_allreduce (sw_context work) (run_world h work peers);
  let '(h2, outputs) := push_clones h1 (sw_outputs work) output (length (sw_inputs work)) in
  Ok (h2, mkSparseWork (sw_context work) (sw_inputs work) outputs (sw_tag work)).

(** [AsyncSparseAllreduceWork::result] *)
Definition sparse_result (work : AsyncSparseAllreduceWork) : list nat := sw_outputs work.

End SparseAllreduce.
(** ** Dense tensors and the dense allreduce work item *)

(** A strided tensor: scalar type, sizes and the elements in storage
    order.  The element type [E] is abstract. *)
Record DenseTensor (E : Type) : Type := mkDense {
  d_type : ScalarType;
  d_sizes : list Z;
  d_data : list E
}.
Arguments mkDense {E}.
Arguments d_type {E}.
Arguments d_sizes {E}.
Arguments d_data {E}.

(** [ReduceFunc]: a pointer to one of the transport's reducers,
    [gloo::sum<T>] and the like, named here by type and operation. *)
Inductive ReduceFunc : Type :=
| gloo_sum (T : ScalarType)
| gloo_product (T : ScalarType)
| gloo_min (T : ScalarType)
| gloo_max (T : ScalarType).

(** [toFunction<T>(r)] *)
Definition toFunction (T : ScalarType) (r : ReduceOp) : Result ReduceFunc :=
  match r with
  | SUM => Ok (gloo_sum T)
  | PRODUCT => Ok (gloo_product T)
  | MIN => Ok (gloo_min T)
  | MAX => Ok (gloo_max T)
  | UNUSED => Throw (RuntimeError "Unhandled ReduceOp")
  end.

(** [getFunction(dtype, op)] *)
Definition getFunction (dtype : ScalarType) (op : ReduceOp) : Result ReduceFunc :=
  GENERATE_ALL_TYPES dtype (toFunction dtype op).

(** The transport's allreduce: from the contents of the output buffers
    of this process to their contents afterwards, or a failure. *)
Class GlooTransport (E : Type) : Type := {
  gloo_allreduce : ReduceFunc -> Z -> list (list E) -> Result (list (list E))
}.

Section DenseAllreduce.
Context {E : Type} `{GlooTransport E}.

Definition lookup_tensor (h : gmap nat (DenseTensor E)) (t : nat)
  : Result (DenseTensor E) :=
  match h !! t with
  | Some x => Ok x
  | None => Throw (RuntimeError "undefined tensor")
  end.

Definition set_data (d : list E) (x : DenseTensor E) : DenseTensor E :=
  mkDense (d_type x) (d_sizes x) d.

(** The transport writes through the data pointers it was given. *)
Definition write_outputs (h : gmap nat (DenseTensor E)) (tensors : list nat)
           (new : list (list E)) : gmap nat (DenseTensor E) :=
  fold_left (fun h td => alter (set_data (snd td)) (fst td) h)
            (combine tensors new) h.

(** [dst.copy_(src)] between tensors of equal sizes, which is the case
    the dispatch layer lets through. *)
Definition copy_ (h : gmap nat (DenseTensor E)) (dst src : nat)
  : Result (gmap nat (DenseTensor E)) :=
  s ← lookup_tensor h src;
  d ← lookup_tensor h dst;
  if bool_decide (d_sizes d = d_sizes s)
  then Ok (<[dst := set_data (d_data s) d]> h)
  else Throw (RuntimeError "The size of tensor a must match the size of tensor b").

Record AsyncAllreduceWork : Type := mkAllreduceWork {
  aw_context : GlooContext;
  aw_inputs : list nat;
  aw_reduceOp : ReduceOp;
  aw_tag : Z
}.

(** [AsyncAllreduceWork::allreduce] *)
Definition dense_allreduce (work : AsyncAllreduceWork)
           (h : gmap nat (DenseTensor E)) (tensors : list nat)
  : Result (gmap nat (DenseTensor E)) :=
  match tensors with
  | [] => Throw (RuntimeError "vector index out of range")
  | t0 :: _ =>
      x0 ← lookup_tensor h t0;
      let scalarType := d_type x0 in
      fn ← getFunction scalarType (aw_reduceOp work);
      GENERATE_ALL_TYPES scalarType (Ok tt);;
      bufs ← sequence (map (fun t => x ← lookup_tensor h t; Ok (d_data x)) tensors);
      new ← gloo_allreduce fn (aw_tag work) bufs;
      Ok (write_outputs h tensors new)
  end.

(** [for (i = 1; i < inputs.size(); i++) inputs[i].copy_(inputs[0]);] *)
Fixpoint copy_first (h : gmap nat (DenseTensor E)) (first : nat) (rest : list nat)
  : Result (gmap nat (DenseTensor E)) :=
  match rest with
  | [] => Ok h
  | t :: rest' => h' ← copy_ h t first; copy_first h' first rest'
  end.

(** [AsyncAllreduceWork::run] *)
Definition dense_run (work : AsyncAllreduceWork) (h : gmap nat (DenseTensor E))
  : Result (gmap nat (DenseTensor E)) :=
  h1 ← dense_allreduce work h (aw_inputs work);
  match aw_inputs work with
  | [] => Ok h1
  | t0 :: rest => copy_first h1 t0 rest
  end.

(** The inputs as the dispatch layer hands them over: one type, one
    shape. *)
Definition dense_inputs_match (h : gmap nat (DenseTensor E)) (inputs : list nat)
           (ty : ScalarType) (sz : list Z) : Prop :=
  forall t, In t inputs ->
    exists x, h !! t = Some x /\ d_type x = ty /\ d_sizes x = sz.

(** The transport call of this work item does not fail. *)
Definition transport_succeeds (work : AsyncAllreduceWork) : Prop :=
  forall fn bufs, exists new, gloo_allreduce fn (aw_tag work) bufs = Ok new.

End DenseAllreduce.

(** A transport for one process that leaves the buffers as they are. *)
#[global] Instance Loopback_Transport : GlooTransport Z :=
  {| gloo_allreduce := fun _ _ bufs => Ok bufs |}.

Definition ex_dense_heap : gmap nat (DenseTensor Z) :=
  <[0%nat := mkDense Int [3] [6; 6; 6]]>
    (<[1%nat := mkDense Int [3] [0; 1; 2]]> ∅).

Definition ex_dense_work : AsyncAllreduceWork :=
  mkAllreduceWork (mkContext 0 1) [0%nat; 1%nat] SUM 0.
(** ** The process group: tag allocator, queue and dispatch layer *)

Module Dispatch.

(** What the dispatch layer inspects of a tensor; [device_index] is
    [device().index()]. *)
Record Tensor : Type := mkTensor {
  device : DeviceType;
  layout : Layout;
  dtype : ScalarType;
  tsizes : list Z;
  contiguous : bool;
  device_index : Z
}.

Definition is_sparse (t : Tensor) : bool := Layout_eqb (layout t) kSparse.

(** [a.type() == b.type()]: backend (device and layout) and scalar type. *)
Definition type_eqb (a b : Tensor) : bool :=
  DeviceType_eqb (device a) (device b)
  && Layout_eqb (layout a) (layout b)
  && ScalarType_eqb (dtype a) (dtype b).

Definition sizes_eqb (a b : list Z) : bool := bool_decide (a = b).

(** The work items.  [cuda] tells the accelerator subclass
    ([AsyncBroadcastCUDAWork] and the like) from the host class;
    [context] is the index of the transport context. *)
#[local] Unset Elimination Schemes.
Inductive AsyncWork : Type :=
| AsyncBroadcastWork (cuda : bool) (context : nat) (inputs : list Tensor)
                     (rootRank rootTensor : Z) (tag : Z)
| AsyncAllreduceWork (cuda : bool) (context : nat) (inputs : list Tensor)
                     (reduceOp : ReduceOp) (tag : Z)
| AsyncSparseAllreduceWork (cuda : bool) (context : nat) (inputs : list Tensor)
                           (tag : Z)
| AsyncAllreduceCoalescedWork (context : nat) (inputs : list Tensor)
                              (reduceOp : ReduceOp) (tag : Z)
| AsyncReduceWork (cuda : bool) (context : nat) (inputs : list Tensor)
                  (rootRank rootTensor : Z) (reduceOp : ReduceOp) (tag : Z)
| AsyncAllgatherWork (cuda : bool) (context : nat) (outputs : list (list Tensor))
                     (inputs : list Tensor) (tag : Z)
| AsyncGatherWork (cuda : bool) (context : nat) (outputs : list (list Tensor))
                  (inputs : list Tensor) (root : Z) (tag : Z)
| AsyncScatterWork (cuda : bool) (context : nat) (outputs : list Tensor)
                   (inputs : list (list Tensor)) (root : Z) (tag : Z)
| AsyncBarrierWork (context : nat) (priorWork : list (option AsyncWork)) (tag : Z).

#[local] Set Elimination Schemes.

Definition tag_of (w : AsyncWork) : Z :=
  match w with
  | AsyncBroadcastWork _ _ _ _ _ tag
  | AsyncAllreduceWork _ _ _ _ tag
  | AsyncSparseAllreduceWork _ _ _ tag
  | AsyncAllreduceCoalescedWork _ _ _ tag
  | AsyncReduceWork _ _ _ _ _ _ tag
  | AsyncAllgatherWork _ _ _ _ tag
  | AsyncGatherWork _ _ _ _ _ tag
  | AsyncScatterWork _ _ _ _ _ tag
  | AsyncBarrierWork _ _ tag => tag
  end.

(** Calls on the transport's unbound buffers, in the order made. *)
Inductive TransportCall : Type :=
| createUnboundBuffer (context : nat) (tensor : Tensor)
| buffer_send (dstRank : Z) (utag : Z)
| buffer_recv (srcRank : Z) (utag : Z)
| buffer_recv_any (srcRanks : list Z) (utag : Z).

(** The handles of the point-to-point calls. *)
Inductive P2PWork : Type :=
| SendWork (tensor : Tensor)
| RecvWork (tensor : Tensor) (srcRank_ : Z).

(** The members of [ProcessGroupGloo] the dispatch layer touches.
    [USE_CUDA] is the compile-time flag, [contexts_] the number of
    transport contexts, [transport] the calls made so far. *)
Record ProcessGroupGloo : Type := mkPG {
  USE_CUDA : bool;
  rank_ : Z;
  size_ : Z;
  contexts_ : Z;
  collectiveCounter_ : Z;
  workQueue_ : list AsyncWork;
  workInProgress_ : list (option AsyncWork);
  transport : list TransportCall
}.

Definition uint32_modulus : Z := 2 ^ 32.

(** Member functions run in a state-and-exception monad: a throw leaves
    the state as it was at the throw. *)
Definition M (A : Type) : Type := ProcessGroupGloo -> Result A * ProcessGroupGloo.

Definition ret {A : Type} (a : A) : M A := fun pg => (Ok a, pg).
#[global] Instance M_ret : MRet M := @ret.
#[global] Instance M_bind : MBind M := fun A B k m pg =>
  match m pg with
  | (Ok a, pg') => k a pg'
  | (Throw e, pg') => (Throw e, pg')
  end.

Definition throw {A : Type} (e : exn) : M A := fun pg => (Throw e, pg).
Definition gets {A : Type} (f : ProcessGroupGloo -> A) : M A := fun pg => (Ok (f pg), pg).

(** The [invalidArgument] lambda of each entry point. *)
Definition invalidArgument {A : Type} (where_ msg : string) : M A :=
  throw (InvalidArgument (where_ ++ msg)).

Fixpoint for_each {A : Type} (f : A -> M unit) (l : list A) : M unit :=
  match l with
  | [] => ret tt
  | a :: l' => f a;; for_each f l'
  end.

(** [for (size_t i = 0; i < l.size(); i++)], the index counted from [i]. *)
Fixpoint for_each_from {A : Type} (i : nat) (f : nat -> A -> M unit) (l : list A)
  : M unit :=
  match l with
  | [] => ret tt
  | a :: l' => f i a;; for_each_from (S i) f l'
  end.

Definition when (b : bool) (m : M unit) : M unit := if b then m else ret tt.

(** [uint32_t nextTag() { return collectiveCounter_++; }] *)
Definition nextTag : M Z := fun pg =>
  (Ok (collectiveCounter_ pg),
   mkPG (USE_CUDA pg) (rank_ pg) (size_ pg) (contexts_ pg)
        ((collectiveCounter_ pg + 1) mod uint32_modulus)
        (workQueue_ pg) (workInProgress_ pg) (transport pg)).

(** [contexts_[tag % contexts_.size()]]; the constructor refuses an
    empty device list, so there is at least one context. *)
Definition getContext (tag : Z) : M nat :=
  gets (fun pg => Z.to_nat (tag mod contexts_ pg)).

(** [workQueue_.push_back(work)] *)
Definition enqueue (work : AsyncWork) : M unit := fun pg =>
  (Ok tt,
   mkPG (USE_CUDA pg) (rank_ pg) (size_ pg) (contexts_ pg) (collectiveCounter_ pg)
        (workQueue_ pg ++ [work]) (workInProgress_ pg) (transport pg)).

Definition log (c : TransportCall) : M unit := fun pg =>
  (Ok tt,
   mkPG (USE_CUDA pg) (rank_ pg) (size_ pg) (contexts_ pg) (collectiveCounter_ pg)
        (workQueue_ pg) (workInProgress_ pg) (transport pg ++ [c])).

(** [tensors[0]] *)
Definition front {A : Type} (l : list A) : M A :=
  match l with
  | a :: _ => ret a
  | [] => throw (RuntimeError "vector index out of range")
  end.

(** *** Validators

    Modelled from the spec: the shared argument checks of the
    validators' header ("non-empty, matching dtype/shape, dense,
    single-element, valid root rank/tensor"); each reports through the
    caller's [invalidArgument]. *)

Definition assertRootRank (fn : string -> M unit) (rank size : Z) : M unit :=
  when ((rank <? 0) || (size <=? rank)) (fn "invalid root rank").

Definition assertRootTensor (fn : string -> M unit) (rank : Z) (size : nat) : M unit :=
  when ((rank <? 0) || (Z.of_nat size <=? rank)) (fn "invalid root tensor").

Definition assertNonEmpty (fn : string -> M unit) (tensors : list Tensor) : M unit :=
  when (length tensors =? 0)%nat (fn "requires non-empty tensor list").

Definition assertSingleElement (fn : string -> M unit) (tensors : list Tensor) : M unit :=
  when (negb (length tensors =? 1)%nat) (fn "requires a single-element tensor list").

Definition assertSingleElementInput (fn : string -> M unit) (tensors : list Tensor)
  : M unit :=
  when (negb (length tensors =? 1)%nat) (fn "requires a single-element input tensor list").

Definition assertSingleElementOutput (fn : string -> M unit) (tensors : list Tensor)
  : M unit :=
  when (negb (length tensors =? 1)%nat) (fn "requires a single-element output tensor list").

Definition assertDense (fn : string -> M unit) (tensors : list Tensor) : M unit :=
  for_each (fun t => when (negb (Layout_eqb (layout t) kStrided))
                          (fn "only supports dense tensors")) tensors.

Definition assertLayoutMatch (fn : string -> M unit) (tensors : list Tensor) : M unit :=
  match tensors with
  | [] => ret tt
  | t0 :: rest =>
      for_each (fun t => when (negb (Layout_eqb (layout t) (layout t0)))
                              (fn "tensors must all have the same layout")) rest
  end.

Definition assertTypeAndSizesMatch_with (fn : string -> M unit) (tensors : list Tensor)
           (type : Tensor) (sizes : list Z) : M unit :=
  for_each (fun t =>
              when (negb (type_eqb t type)) (fn "invalid tensor type");;
              when (negb (sizes_eqb (tsizes t) sizes)) (fn "invalid tensor size"))
           tensors.

Definition assertTypeAndSizesMatch (fn : string -> M unit) (tensors : list Tensor)
  : M unit :=
  t0 ← front tensors;
  assertTypeAndSizesMatch_with fn (tail tensors) t0 (tsizes t0).

(** *** Constructors of the accelerator work items

    The constructors of the host classes only store their arguments.
    Those of the accelerator classes call [initializeStreamsEvents];
    the overload for a flat tensor list has no failure of its own, the
    overload for nested lists opens with a check that can throw.
    Failures of the accelerator runtime itself (streams, events, pinned
    memory) are not part of the model. *)

(** The first loop of [initializeStreamsEvents] for nested tensor
    lists: every tensor of an inner list is on the device of the first
    one, [tensors[i][0]]. *)
Definition initializeStreamsEvents_nested (tensors : list (list Tensor)) : M unit :=
  for_each (fun inner =>
              t0 ← front inner;
              for_each (fun t =>
                          when (negb (device_index t =? device_index t0))
                               (throw (RuntimeError
                                  "tensors in the nested tensor vectors need to be on the same device")))
                       (tail inner))
           tensors.

(** [std::make_shared<AsyncAllgatherWork>] and
    [std::make_shared<AsyncAllgatherCUDAWork>] *)
Definition make_AsyncAllgatherWork (cuda : bool) (context : nat)
           (outputs : list (list Tensor)) (inputs : list Tensor) (tag : Z)
  : M AsyncWork :=
  when cuda (initializeStreamsEvents_nested outputs);;
  ret (AsyncAllgatherWork cuda context outputs inputs tag).

(** [std::make_shared<AsyncGatherWork>] and
    [std::make_shared<AsyncGatherCUDAWork>] *)
Definition make_AsyncGatherWork (cuda : bool) (context : nat)
           (outputs : list (list Tensor)) (inputs : list Tensor) (root : Z) (tag : Z)
  : M AsyncWork :=
  when cuda (initializeStreamsEvents_nested outputs);;
  ret (AsyncGatherWork cuda context outputs inputs root tag).

(** [std::make_shared<AsyncScatterWork>] and
    [std::make_shared<AsyncScatterCUDAWork>] *)
Definition make_AsyncScatterWork (cuda : bool) (context : nat)
           (outputs : list Tensor) (inputs : list (list Tensor)) (root : Z) (tag : Z)
  : M AsyncWork :=
  when cuda (initializeStreamsEvents_nested inputs);;
  ret (AsyncScatterWork cuda context outputs inputs root tag).

(** *** Entry points *)

(** The [switch (device.type())] of every collective. *)
Definition check_device (fn : string -> M unit) (d : DeviceType) : M unit :=
  fun pg =>
    match d with
    | kCPU => ret tt pg
    | kCUDA => if USE_CUDA pg then ret tt pg else fn "unsupported device type" pg
    | _ => fn "unsupported device type" pg
    end.

(** The [if (device.type() == at::kCPU) .. else if (.. == at::kCUDA) ..
    else throw] that builds the work item. *)
Definition by_device (d : DeviceType) (mk : bool -> M AsyncWork) : M AsyncWork :=
  fun pg =>
    match d with
    | kCPU => mk false pg
    | kCUDA => if USE_CUDA pg then mk true pg
               else throw (RuntimeError "Invalid backend") pg
    | _ => throw (RuntimeError "Invalid backend") pg
    end.

Definition broadcast (inputs : list Tensor) (rootRank rootTensor : Z) : M AsyncWork :=
  let fn : string -> M unit := invalidArgument "ProcessGroupGloo::broadcast: " in
  size ← gets size_;
  assertRootRank fn rootRank size;;
  assertRootTensor fn rootTensor (length inputs);;
  assertDense fn inputs;;
  assertTypeAndSizesMatch fn inputs;;
  t0 ← front inputs;
  check_device fn (device t0);;
  tag ← nextTag;
  context ← getContext tag;
  work ← by_device (device t0) (fun cuda =>
            ret (AsyncBroadcastWork cuda context inputs rootRank rootTensor tag));
  enqueue work;;
  ret work.

Definition allreduce (inputs : list Tensor) (reduceOp : ReduceOp) : M AsyncWork :=
  let fn : string -> M unit := invalidArgument "ProcessGroupGloo::allreduce: " in
  assertNonEmpty fn inputs;;
  assertLayoutMatch fn inputs;;
  assertTypeAndSizesMatch fn inputs;;
  t0 ← front inputs;
  check_device fn (device t0);;
  let layout := layout t0 in
  when (Layout_eqb layout kSparse
        && negb (match reduceOp with SUM => true | _ => false end))
       (fn "unsupported reduction operation (allreduce of sparse tensors only works with ReduceOp.SUM)");;
  tag ← nextTag;
  context ← getContext tag;
  work ← by_device (device t0) (fun cuda =>
            match layout with
            | kStrided => ret (AsyncAllreduceWork cuda context inputs reduceOp tag)
            | kSparse => ret (AsyncSparseAllreduceWork cuda context inputs tag)
            | _ => invalidArgument "ProcessGroupGloo::allreduce: " "unsupported layout"
            end);
  enqueue work;;
  ret work.

Definition allreduce_coalesced (tensors : list Tensor) (reduceOp : ReduceOp)
  : M AsyncWork :=
  let fn : string -> M unit := invalidArgument "ProcessGroupGloo::allreduce_coalesced: " in
  assertNonEmpty fn tensors;;
  assertLayoutMatch fn tensors;;
  t0 ← front tensors;
  when (negb (forallb (fun t => type_eqb t t0) tensors))
       (fn "tensors must all have the same type");;
  when (negb (forallb (fun t => DeviceType_eqb (device t) (device t0)) tensors))
       (fn "tensors must all be on the same device");;
  (* invalid arguments are detected early here before any calls to nextTag() *)
  match device t0 with
  | kCPU => ret tt
  | _ => fn "unsupported device type"
  end;;
  match layout t0 with
  | kStrided => ret tt
  | _ => fn "unsupported layout"
  end;;
  tag ← nextTag;
  context ← getContext tag;
  work ← match device t0 with
         | kCPU =>
             match layout t0 with
             | kStrided => ret (AsyncAllreduceCoalescedWork context tensors reduceOp tag)
             | _ => invalidArgument "ProcessGroupGloo::allreduce_coalesced: "
                                    "unsupported layout"
             end
         | _ => throw (RuntimeError "Invalid backend")
         end;
  enqueue work;;
  ret work.

Definition reduce (inputs : list Tensor) (rootRank rootTensor : Z) (reduceOp : ReduceOp)
  : M AsyncWork :=
  let fn : string -> M unit := invalidArgument "ProcessGroupGloo::reduce: " in
  size ← gets size_;
  assertRootRank fn rootRank size;;
  assertRootTensor fn rootTensor (length inputs);;
  assertSingleElement fn inputs;;
  assertDense fn inputs;;
  t0 ← front inputs;
  check_device fn (device t0);;
  tag ← nextTag;
  context ← getContext tag;
  work ← by_device (device t0) (fun cuda =>
            ret (AsyncReduceWork cuda context inputs rootRank rootTensor reduceOp tag));
  enqueue work;;
  ret work.

Definition allgather (outputs : list (list Tensor)) (inputs : list Tensor)
  : M AsyncWork :=
  let fn : string -> M unit := invalidArgument "ProcessGroupGloo::allgather: " in
  when (length inputs =? 0)%nat (fn "requires non-empty input tensor list");;
  when (negb (length inputs =? length outputs)%nat)
       (fn "requires input/output tensor lists to have the same length");;
  size ← gets size_;
  for_each_from 0 (fun i o =>
                     let expected := Z.of_nat (length inputs) * size in
                     let actual := Z.of_nat (length o) in
                     when (negb (actual =? expected))
                          (fn ("invalid output tensor list at index " +:+ pretty i
                               +:+ " (expected length " +:+ pretty expected
                               +:+ ", got " +:+ pretty actual +:+ ")")))
                outputs;;
  assertDense fn inputs;;
  t0 ← front inputs;
  assertTypeAndSizesMatch_with fn inputs t0 (tsizes t0);;
  for_each (fun o => assertTypeAndSizesMatch_with fn o t0 (tsizes t0)) outputs;;
  check_device fn (device t0);;
  tag ← nextTag;
  context ← getContext tag;
  work ← by_device (device t0) (fun cuda =>
            make_AsyncAllgatherWork cuda context outputs inputs tag);
  enqueue work;;
  ret work.

Definition gather (outputs : list (list Tensor)) (inputs : list Tensor) (rootRank : Z)
  : M AsyncWork :=
  let fn : string -> M unit := invalidArgument "ProcessGroupGloo::gather: " in
  size ← gets size_;
  rank ← gets rank_;
  assertRootRank fn rootRank size;;
  assertSingleElementInput fn inputs;;
  assertDense fn inputs;;
  t0 ← front inputs;
  (if rank =? rootRank
   then
     match outputs with
     | [o] =>
         when (negb (Z.of_nat (length o) =? size))
              (fn "requires a single-element output list containing a list with <size> tensors");;
         assertTypeAndSizesMatch_with fn o t0 (tsizes t0)
     | _ => fn "requires a single-element output list containing a list with <size> tensors"
     end
   else when (negb (length outputs =? 0)%nat) (fn "requires empty output on non-root"));;
  check_device fn (device t0);;
  tag ← nextTag;
  context ← getContext tag;
  work ← by_device (device t0) (fun cuda =>
            make_AsyncGatherWork cuda context outputs inputs rootRank tag);
  enqueue work;;
  ret work.

Definition scatter (outputs : list Tensor) (inputs : list (list Tensor)) (rootRank : Z)
  : M AsyncWork :=
  let fn : string -> M unit := invalidArgument "ProcessGroupGloo::scatter: " in
  size ← gets size_;
  rank ← gets rank_;
  assertRootRank fn rootRank size;;
  assertSingleElementOutput fn outputs;;
  assertDense fn outputs;;
  t0 ← front outputs;
  (if rank =? rootRank
   then
     match inputs with
     | [i] =>
         when (negb (Z.of_nat (length i) =? size))
              (fn "requires a single-element input list containing a list with <size> tensors");;
         assertTypeAndSizesMatch_with fn i t0 (tsizes t0)
     | _ => fn "requires a single-element input list containing a list with <size> tensors"
     end
   else when (negb (length inputs =? 0)%nat) (fn "requires empty input on non-root"));;
  check_device fn (device t0);;
  tag ← nextTag;
  context ← getContext tag;
  work ← by_device (device t0) (fun cuda =>
            make_AsyncScatterWork cuda context outputs inputs rootRank tag);
  enqueue work;;
  ret work.

Definition reduce_scatter (outputs : list Tensor) (inputs : list (list Tensor))
  : M AsyncWork :=
  throw (RuntimeError "ProcessGroupGloo does not support reduce_scatter").

Definition barrier : M AsyncWork :=
  inProgress ← gets workInProgress_;
  queued ← gets workQueue_;
  let priorWork := inProgress ++ map Some queued in
  tag ← nextTag;
  context ← getContext tag;
  let work := AsyncBarrierWork context priorWork tag in
  enqueue work;;
  ret work.

(** *** Point to point *)

Definition checkSingleTensor (tensors : list Tensor) : M Tensor :=
  match tensors with
  | [tensor] =>
      if negb (contiguous tensor)
      then throw (RuntimeError "input tensor has to be contiguous")
      else if is_sparse tensor
           then throw (RuntimeError "input tensor has to be dense")
           else ret tensor
  | _ => throw (RuntimeError "ProcessGroupGloo::send takes a single tensor")
  end.

Definition checkTag (tag : Z) : M Z :=
  if tag <? 0 then throw (RuntimeError "Tag must be >= 0") else ret tag.

Definition send (tensors : list Tensor) (dstRank tag : Z) : M P2PWork :=
  tensor ← checkSingleTensor tensors;
  utag ← checkTag tag;
  context ← getContext tag;
  log (createUnboundBuffer context tensor);;
  log (buffer_send dstRank utag);;
  ret (SendWork tensor).

Definition recv (tensors : list Tensor) (srcRank tag : Z) : M P2PWork :=
  tensor ← checkSingleTensor tensors;
  utag ← checkTag tag;
  context ← getContext tag;
  log (createUnboundBuffer context tensor);;
  log (buffer_recv srcRank utag);;
  ret (RecvWork tensor (-1)).

(** [srcRanks.resize(size_); for (i = 0; i < size_; i++) srcRanks.push_back(i);]
    for a group size that is not negative. *)
Definition anysource_ranks (size : Z) : list Z :=
  repeat 0 (Z.to_nat size) ++ map Z.of_nat (seq 0 (Z.to_nat size)).

Definition recvAnysource (tensors : list Tensor) (tag : Z) : M P2PWork :=
  tensor ← checkSingleTensor tensors;
  utag ← checkTag tag;
  context ← getContext tag;
  log (createUnboundBuffer context tensor);;
  size ← gets size_;
  let srcRanks := anysource_ranks size in
  log (buffer_recv_any srcRanks utag);;
  ret (RecvWork tensor (-1)).

(** *** A run of the dispatch layer *)

Inductive Call : Type :=
| CallBroadcast (inputs : list Tensor) (rootRank rootTensor : Z)
| CallAllreduce (inputs : list Tensor) (reduceOp : ReduceOp)
| CallAllreduceCoalesced (tensors : list Tensor) (reduceOp : ReduceOp)
| CallReduce (inputs : list Tensor) (rootRank rootTensor : Z) (reduceOp : ReduceOp)
| CallAllgather (outputs : list (list Tensor)) (inputs : list Tensor)
| CallGather (outputs : list (list Tensor)) (inputs : list Tensor) (rootRank : Z)
| CallScatter (outputs : list Tensor) (inputs : list (list Tensor)) (rootRank : Z)
| CallReduceScatter (outputs : list Tensor) (inputs : list (list Tensor))
| CallBarrier.

Definition dispatch (c : Call) : M AsyncWork :=
  match c with
  | CallBroadcast inputs rootRank rootTensor => broadcast inputs rootRank rootTensor
  | CallAllreduce inputs reduceOp => allreduce inputs reduceOp
  | CallAllreduceCoalesced tensors reduceOp => allreduce_coalesced tensors reduceOp
  | CallReduce inputs rootRank rootTensor reduceOp =>
      reduce inputs rootRank rootTensor reduceOp
  | CallAllgather outputs inputs => allgather outputs inputs
  | CallGather outputs inputs rootRank => gather outputs inputs rootRank
  | CallScatter outputs inputs rootRank => scatter outputs inputs rootRank
  | CallReduceScatter outputs inputs => reduce_scatter outputs inputs
  | CallBarrier => barrier
  end.

(** The calls of a program in order; the outcome of each is kept. *)
Fixpoint dispatch_all (calls : list Call) (pg : ProcessGroupGloo)
  : list (Result AsyncWork) * ProcessGroupGloo :=
  match calls with
  | [] => ([], pg)
  | c :: calls' =>
      let '(r, pg1) := dispatch c pg in
      let '(rs, pg2) := dispatch_all calls' pg1 in
      (r :: rs, pg2)
  end.

(** The tags of the work items handed out. *)
Fixpoint tags (rs : list (Result AsyncWork)) : list Z :=
  match rs with
  | [] => []
  | Ok w :: rs' => tag_of w :: tags rs'
  | Throw _ :: rs' => tags rs'
  end.

(** A group of four on one context, built without accelerator support. *)
Definition ex_pg : ProcessGroupGloo := mkPG false 0 4 1 0 [] [None; None] [].

Definition ex_cpu_tensor : Tensor := mkTensor kCPU kStrided Float [2; 3] true (-1).
Definition ex_mkldnn_tensor : Tensor := mkTensor kCPU kMkldnn Float [2; 3] true (-1).

End Dispatch.
(** ** What a dispatch call may do to the group *)

Module DispatchSpec.
Import Dispatch.

(** A computation that only inspects the group. *)
Definition read_only {A : Type} (m : M A) : Prop :=
  forall pg, snd (m pg) = pg.

Definition next_counter (pg : ProcessGroupGloo) : Z :=
  (collectiveCounter_ pg + 1) mod uint32_modulus.

(** A call that either fails leaving the group untouched, or hands out
    the current counter value as tag and advances the counter. *)
Definition validated (pg : ProcessGroupGloo)
           (out : Result AsyncWork * ProcessGroupGloo) : Prop :=
  match out with
  | (Ok w, pg') =>
      tag_of w = collectiveCounter_ pg /\ collectiveCounter_ pg' = next_counter pg
  | (Throw _, pg') => pg' = pg
  end.

(** The same, except that a failure may also come after the counter was
    advanced. *)
Definition tagged (pg : ProcessGroupGloo)
           (out : Result AsyncWork * ProcessGroupGloo) : Prop :=
  match out with
  | (Ok w, pg') =>
      tag_of w = collectiveCounter_ pg /\ collectiveCounter_ pg' = next_counter pg
  | (Throw _, pg') =>
      collectiveCounter_ pg' = collectiveCounter_ pg \/
      collectiveCounter_ pg' = next_counter pg
  end.

(** A call whose work item is built after the tag was drawn, by a
    constructor that can fail: an invalid-argument failure leaves the
    group untouched, a runtime error may come with the counter
    advanced. *)
Definition built (pg : ProcessGroupGloo)
           (out : Result AsyncWork * ProcessGroupGloo) : Prop :=
  match out with
  | (Ok w, pg') =>
      tag_of w = collectiveCounter_ pg /\ collectiveCounter_ pg' = next_counter pg
  | (Throw (InvalidArgument _), pg') => pg' = pg
  | (Throw (RuntimeError _), pg') =>
      collectiveCounter_ pg' = collectiveCounter_ pg \/
      collectiveCounter_ pg' = next_counter pg
  end.

Definition is_allreduce (c : Call) : bool :=
  match c with
  | CallAllreduce _ _ => true
  | _ => false
  end.

(** The tag handed out [k] dispatches after the counter read [c0]. *)
Definition tag_after (c0 : Z) (k : nat) : Z := (c0 + Z.of_nat k) mod uint32_modulus.

End DispatchSpec.
(** ** The receive handle (ProcessGroupGloo::RecvWork) *)

Module RecvWork.

(** What [buffer_->waitRecv(&srcRank_)] does: it returns with the rank
    of the sender stored through the pointer, or it throws and has not
    written. *)
Inductive WaitRecv : Type :=
| Received (sender : Z)
| Failed (e : exn).

Record t : Type := mk {
  srcRank_ : Z;
  completed_ : bool;
  exception_ : option exn
}.

(** The constructor: [srcRank_(-1)]. *)
Definition new : t := mk (-1) false None.

Definition sourceRank (w : t) : Z := srcRank_ w.

(** [wait()], for the outcome of the transport call made inside. *)
Definition wait (outcome : WaitRecv) (w : t) : Result unit * t :=
  let w1 :=
    match outcome with
    | Received sender => mk sender (completed_ w) (exception_ w)
    | Failed e => mk (srcRank_ w) (completed_ w) (Some e)
    end in
  let w2 := mk (srcRank_ w1) true (exception_ w1) in
  match exception_ w2 with
  | Some e => (Throw e, w2)
  | None => (Ok tt, w2)
  end.

(** Successive calls of [wait()] on one handle. *)
Definition waits (outcomes : list WaitRecv) (w : t) : t :=
  fold_left (fun w o => snd (wait o w)) outcomes w.

Definition failed (o : WaitRecv) : Prop := exists e, o = Failed e.

End RecvWork.

(** ** The worker pool: runLoop, enqueue and the destructor

    The members [workQueue_], [workInProgress_] and [stop_] are only
    touched with [workMutex_] held, so a run of the pool is a sequence of
    critical sections, one per step below; executing a work item is the
    one step outside the lock. *)

Module WorkerPool.

(** Work items, by identity. *)
Definition Work : Type := nat.

(** Where a worker thread stands in [runLoop]. *)
Inductive Worker : Type :=
| AtLoopHead               (* holds or waits for the lock at [while (!stop_)] *)
| Executing (w : Work)     (* inside [AsyncWork::execute(work)], lock released *)
| Executed                 (* [execute] returned, before [lock.lock()] *)
| Returned.                (* left the loop *)

(** Where the destructor stands. *)
Inductive Destructor : Type :=
| NotStarted
| WaitingForEmptyQueue     (* in [workConsumeCV_.wait(lock, queue empty)] *)
| Joining                  (* [stop_] set, lock released, joining threads *)
| Destroyed.

Record Pool : Type := mkPool {
  workQueue_ : list Work;
  workInProgress_ : list (option Work);
  stop_ : bool;
  threads_ : list Worker;
  destructor : Destructor;
  (** history, not program state *)
  enqueued_before_destruction : list Work;
  executed : list Work
}.

(** The group right after construction with [n] worker threads. *)
Definition init (n : nat) : Pool :=
  mkPool [] (repeat None n) false (repeat AtLoopHead n) NotStarted [] [].

Definition set_thread (i : nat) (t : Worker) (p : Pool) : list Worker :=
  <[i := t]> (threads_ p).

Inductive step : Pool -> Pool -> Prop :=
(** [enqueue]: [workQueue_.push_back(work)].  The item counts as
    enqueued before destruction if the destructor has not started. *)
| step_enqueue p w :
    step p (mkPool (workQueue_ p ++ [w]) (workInProgress_ p) (stop_ p) (threads_ p)
                   (destructor p)
                   (match destructor p with
                    | NotStarted => enqueued_before_destruction p ++ [w]
                    | _ => enqueued_before_destruction p
                    end)
                   (executed p))
(** [runLoop]: [!stop_], queue not empty: pop the front, store it in
    the worker's slot, release the lock. *)
| step_pop p i w q :
    threads_ p !! i = Some AtLoopHead ->
    stop_ p = false ->
    workQueue_ p = w :: q ->
    step p (mkPool q (<[i := Some w]> (workInProgress_ p)) (stop_ p)
                   (set_thread i (Executing w) p) (destructor p)
                   (enqueued_before_destruction p) (executed p))
(** [AsyncWork::execute(std::move(work))] runs the item to its end. *)
| step_execute p i w :
    threads_ p !! i = Some (Executing w) ->
    step p (mkPool (workQueue_ p) (workInProgress_ p) (stop_ p)
                   (set_thread i Executed p) (destructor p)
                   (enqueued_before_destruction p) (executed p ++ [w]))
(** [lock.lock(); workInProgress_[workerIndex] = nullptr;] *)
| step_clear p i :
    threads_ p !! i = Some Executed ->
    step p (mkPool (workQueue_ p) (<[i := None]> (workInProgress_ p)) (stop_ p)
                   (set_thread i AtLoopHead p) (destructor p)
                   (enqueued_before_destruction p) (executed p))
(** [while (!stop_)] fails: the thread returns. *)
| step_return p i :
    threads_ p !! i = Some AtLoopHead ->
    stop_ p = true ->
    step p (mkPool (workQueue_ p) (workInProgress_ p) (stop_ p)
                   (set_thread i Returned p) (destructor p)
                   (enqueued_before_destruction p) (executed p))
(** The destructor takes the lock and waits on [workConsumeCV_]. *)
| step_destroy p :
    destructor p = NotStarted ->
    step p (mkPool (workQueue_ p) (workInProgress_ p) (stop_ p) (threads_ p)
                   WaitingForEmptyQueue
                   (enqueued_before_destruction p) (executed p))
(** The wait ends with the lock held and the queue empty:
    [stop_ = true; lock.unlock(); workProduceCV_.notify_all();] *)
| step_stop p :
    destructor p = WaitingForEmptyQueue ->
    workQueue_ p = [] ->
    step p (mkPool (workQueue_ p) (workInProgress_ p) true (threads_ p)
                   Joining
                   (enqueued_before_destruction p) (executed p))
(** [for (auto& thread : threads_) thread.join();] *)
| step_join p :
    destructor p = Joining ->
    Forall (fun t => t = Returned) (threads_ p) ->
    step p (mkPool (workQueue_ p) (workInProgress_ p) (stop_ p) (threads_ p)
                   Destroyed
                   (enqueued_before_destruction p) (executed p)).

Inductive reachable (n : nat) : Pool -> Prop :=
| reachable_init : reachable n (init n)
| reachable_step p p' : reachable n p -> step p p' -> reachable n p'.

(** An item enqueued before destruction began is in the queue, being
    executed, or executed; once [stop_] is set it is no longer in the
    queue. *)
Definition accounted (p : Pool) : Prop :=
  forall w, In w (enqueued_before_destruction p) ->
    (In w (workQueue_ p) /\ (destructor p = NotStarted \/
                             destructor p = WaitingForEmptyQueue)) \/
    In (Executing w) (threads_ p) \/
    In w (executed p).

Definition stop_after_drain (p : Pool) : Prop :=
  match destructor p with
  | NotStarted | WaitingForEmptyQueue => stop_ p = false
  | Joining => stop_ p = true
  | Destroyed => stop_ p = true /\ Forall (fun t => t = Returned) (threads_ p)
  end.

(** The pool after one worker has run one item and the destructor has
    joined it: enqueue, destroy, pop, execute, clear, stop, return,
    join. *)
Definition ex_final : Pool :=
  mkPool [] [None] true [Returned] Destroyed [7%nat] [7%nat].

End WorkerPool.
(** ** What the sparse allreduce is meant to compute *)

Section SparseSpec.
Context {V : Type} `{ValueBlock V}.

Definition sumV {A : Type} (f : A -> V) (l : list A) : V :=
  fold_right (fun a acc => vadd (f a) acc) vzero l.

(** The value one process contributes at coordinate [c]: the sum of
    its input tensors there. *)
Definition input_value (p : Proc V) (c : list Z) : V :=
  sumV (fun t => match heap p !! t with
                 | Some x => value_at x c
                 | None => vzero
                 end) (tensors p).

(** The sum over all ranks. *)
Definition world_value (world : list (Proc V)) (c : list Z) : V :=
  sumV (fun p => input_value p c) world.

(** A process passes a non-empty list of distinct sparse tensors of
    one type and shape. *)
Definition valid_inputs (ty : ScalarType) (sd dd : nat) (sz : list Z)
           (p : Proc V) : Prop :=
  tensors p <> [] /\
  NoDup (tensors p) /\
  forall t, In t (tensors p) ->
    exists x, heap p !! t = Some x /\ scalar_type x = ty /\
              sparse_dim x = sd /\ dense_dim x = dd /\ sizes x = sz.

Definition supported_type (ty : ScalarType) : Prop :=
  GENERATE_ALL_TYPES ty (Ok tt) = Ok tt.

Definition has_shape (ty : ScalarType) (sd dd : nat) (sz : list Z)
           (t : SparseTensor V) : Prop :=
  scalar_type t = ty /\ sparse_dim t = sd /\ dense_dim t = dd /\ sizes t = sz.

(** The row [populate_from_sparse_tensor] leaves behind. *)
Definition sizes_row (sd dd : nat) (sz : list Z) (data_ : Meta.Data) : Meta.Data :=
  fold_left (fun d i => if (i <? dd)%nat
                        then <[(i + 4)%nat := nth (sd + i) sz 0]> d else d)
            (seq 0 4)
            (fold_left (fun d i => if (i <? sd)%nat then <[i := nth i sz 0]> d else d)
                       (seq 0 4) data_).

Definition meta_row (t : SparseTensor V) : Meta.Data :=
  <[8%nat := _nnz t]> (sizes_row (sparse_dim t) (dense_dim t) (sizes t) Meta.zeros).

(** What the first lines of [allreduce] establish on one process:
    the coalesced local sum, and a store in which only [tensors[0]] was
    written. *)
Definition local_ok (ty : ScalarType) (sd dd : nat) (sz : list Z) (p : Proc V)
           (loc : gmap nat (SparseTensor V) * SparseTensor V) : Prop :=
  local_input p = Ok loc /\
  has_shape ty sd dd sz (snd loc) /\
  is_coalesced (snd loc) /\
  (forall k, Some k <> head (tensors p) -> fst loc !! k = heap p !! k) /\
  (forall c, value_at (snd loc) c = input_value p c) /\
  forall t0, head (tensors p) = Some t0 ->
    exists s, fst loc !! t0 = Some s /\ forall c, value_at s c = input_value p c.

End SparseSpec.

(** ** Integer value blocks, for concrete runs *)

#[global] Instance Z_ValueBlock : ValueBlock Z := {| vadd := Z.add; vzero := 0 |}.

#[global] Instance Z_Uninitialized : Uninitialized Z :=
  {| uninit_index := [-1]; uninit_value := -1 |}.

(** A vector over four slots, as a sparse tensor of 64-bit integers. *)
Definition sparse1d (es : list (list Z * Z)) : SparseTensor Z :=
  mkSparse Long 1 0 [4] es.

(** Two ranks; rank 0 passes two tensors, rank 1 passes one. *)
Definition ex_heap0 : gmap nat (SparseTensor Z) :=
  <[0%nat := sparse1d [([2], 1); ([0], 5); ([2], 3)]]>
    (<[1%nat := sparse1d [([1], 10)]]> ∅).

Definition ex_heap1 : gmap nat (SparseTensor Z) :=
  <[0%nat := sparse1d [([2], 7)]]> ∅.

Definition ex_world : list (Proc Z) :=
  [mkProc ex_heap0 [0%nat; 1%nat]; mkProc ex_heap1 [0%nat]].

Definition ex_work : AsyncSparseAllreduceWork :=
  mkSparseWork (mkContext 0 2) [0%nat; 1%nat] [] 0.

Definition ex_result : SparseTensor Z :=
  sparse1d [([0], 5); ([1], 10); ([2], 11)].

(** One rank passing a tensor with five sparse dimensions. *)
Definition ex_world5 : list (Proc Z) :=
  [mkProc (<[0%nat := mkSparse Long 5 0 [2; 2; 2; 2; 2] [([0; 1; 0; 1; 0], 3)]]> ∅)
          [0%nat]].


(** Two sparse dimensions, one dense dimension, three stored blocks. *)
Definition ex_meta_tensor : SparseTensor Z :=
  mkSparse Long 2 1 [3; 5; 2] [([0; 1], 1); ([2; 4], 2); ([1; 1], 3)].

(** ** The sparse allreduce over buffers with arbitrary contents

    [at::empty] returns memory as it was: every slot of the index and
    value buffers holds something the code has not written.  Here the
    contents are given slot by slot, for every rank of the run. *)

Section SparseAnyContents.
Context {V : Type} `{ValueBlock V}.

(** What [at::empty] left behind: the index column and the value
    block at a slot of a row of the buffer of a rank. *)
Record Leftover : Type := mkLeftover {
  leftover_index : nat -> nat -> nat -> list Z;    (* rank, row, slot *)
  leftover_value : nat -> nat -> nat -> V
}.

(** [at::empty({size, .., n})] with the contents [fill row slot]. *)
Definition at_empty {A : Type} (fill : nat -> nat -> A) (size n : nat)
  : list (list A) :=
  map (fun row => map (fill row) (seq 0 n)) (seq 0 size).

(** The index buffer on rank [rank] before the transport call. *)
Definition indices_buffer_on (g : Leftover) (size rank : nat)
           (tensor : SparseTensor V) (mx : Z) : Result (list (list (list Z))) :=
  let empty := map (leftover_index g rank rank) (seq 0 (Z.to_nat mx)) in
  let buffer := at_empty (leftover_index g rank) size (Z.to_nat mx) in
  row ← narrow_copy_ (nth rank buffer empty) (indices tensor);
  Ok (<[rank := row]> buffer).

(** [allgather_indices] *)
Definition allgather_indices_on (g : Leftover) (context : GlooContext)
           (inputs : list (SparseTensor V)) (metadata : list Meta.Data)
  : Result (list (list (list Z))) :=
  mx ← max_nnz metadata;
  bufs ← sequence (imap (fun i t => indices_buffer_on g (ctx_size context) i t mx) inputs);
  let buffer := gloo_allgather [] bufs in
  sequence (imap (fun i m => narrow (nth i buffer []) (Meta.nnz m)) metadata).

(** The value buffer on rank [rank] before the transport call. *)
Definition values_buffer_on (g : Leftover) (size rank : nat)
           (tensor : SparseTensor V) (mx : Z) : Result (list (list V)) :=
  let empty := map (leftover_value g rank rank) (seq 0 (Z.to_nat mx)) in
  let buffer := at_empty (leftover_value g rank) size (Z.to_nat mx) in
  row ← narrow_copy_ (nth rank buffer empty) (values tensor);
  Ok (<[rank := row]> buffer).

(** [allgather_values] *)
Definition allgather_values_on (g : Leftover) (context : GlooContext)
           (inputs : list (SparseTensor V)) (metadata : list Meta.Data)
  : Result (list (list V)) :=
  mx ← max_nnz metadata;
  bufs ← sequence (imap (fun i t => values_buffer_on g (ctx_size context) i t mx) inputs);
  tensor ← match inputs !! ctx_rank context with
           | Some t => Ok t
           | None => Throw (RuntimeError "rank out of range")
           end;
  GENERATE_ALL_TYPES (scalar_type tensor) (Ok tt);;
  let buffer := gloo_allgather [] bufs in
  sequence (imap (fun i m => narrow (nth i buffer []) (Meta.nnz m)) metadata).

(** [AsyncSparseAllreduceWork::allreduce] on rank [ctx_rank context],
    as [sparse_allreduce], with the buffers of the run holding [g]. *)
Definition sparse_allreduce_on (g : Leftover) (context : GlooContext)
           (world : list (Proc V))
  : Result (gmap nat (SparseTensor V) * SparseTensor V) :=
  locals ← sequence (map local_input world);
  match locals !! ctx_rank context with
  | None => Throw (RuntimeError "rank out of range")
  | Some (h, input) =>
      let inputs := map snd locals in
      metadata ← allgather_metadata context inputs;
      check_sizes context metadata;;
      indices ← allgather_indices_on g context inputs metadata;
      values ← allgather_values_on g context inputs metadata;
      AT_ASSERT (length indices =? ctx_size context)%nat "indices.size() == context->size";;
      AT_ASSERT (length values =? ctx_size context)%nat "values.size() == context->size";;
      output ← global_reduction input indices values;
      Ok (h, coalesce output)
  end.

(** Every slot holding the same index and the same value. *)
Definition uniform (index : list Z) (value : V) : Leftover :=
  mkLeftover (fun _ _ _ => index) (fun _ _ _ => value).

(** A process whose inputs are valid for some shape within the limits of
    the metadata record, with no empty dimension. *)
Definition valid_proc (p : Proc V) : Prop :=
  exists ty sd dd sz,
    valid_inputs ty sd dd sz p /\
    (sd <= 4)%nat /\ (dd <= 4)%nat /\
    length sz = (sd + dd)%nat /\
    Forall (fun s => 0 < s) sz.

(** What the first lines of [sparse_allreduce] leave on a process
    with inputs of one shape: the coalesced tensor of that shape. *)
Definition local_shape (ty : ScalarType) (sd dd : nat) (sz : list Z) (p : Proc V)
           (loc : gmap nat (SparseTensor V) * SparseTensor V) : Prop :=
  local_input p = Ok loc /\ has_shape ty sd dd sz (snd loc).

(** The same on a process with a shape of its own. *)
Definition local_shaped (p : Proc V)
           (loc : gmap nat (SparseTensor V) * SparseTensor V) : Prop :=
  local_input p = Ok loc /\
  (sparse_dim (snd loc) <= 4)%nat /\ (dense_dim (snd loc) <= 4)%nat /\
  length (sizes (snd loc)) = (sparse_dim (snd loc) + dense_dim (snd loc))%nat /\
  Forall (fun s => 0 < s) (sizes (snd loc)) /\
  forall ty sd dd sz, valid_inputs ty sd dd sz p -> sizes (snd loc) = sz.

End SparseAnyContents.

Arguments Leftover V : clear implicits.
Arguments mkLeftover {V} leftover_index leftover_value.

(** Two sets of contents for buffers of 64-bit integers: one that
    differs from slot to slot and from rank to rank, one uniform. *)
Definition ex_leftover_mixed : Leftover Z :=
  mkLeftover (fun rank row slot => [Z.of_nat (7 * rank + 3 * row + slot) - 5])
             (fun rank row slot => Z.of_nat (100 * rank + 10 * row + slot) - 50).

Definition ex_leftover_flat : Leftover Z := uniform [77] 12345.

(** One rank passing a tensor of 16-bit integers. *)
Definition ex_world_short : list (Proc Z) :=
  [mkProc (<[0%nat := mkSparse Short 1 0 [4] [([2], 1)]]> ∅) [0%nat]].

(** Two ranks whose vectors have four and five slots. *)
Definition ex_world_mismatch : list (Proc Z) :=
  [mkProc ex_heap1 [0%nat];
   mkProc (<[0%nat := mkSparse Long 1 0 [5] [([4], 2)]]> ∅) [0%nat]].

(** ** What a dispatch call leaves behind in the queue *)

Module DispatchQueue.
Import Dispatch DispatchSpec.

(** The transport context a work item was built with. *)
Definition context_of (w : AsyncWork) : nat :=
  match w with
  | AsyncBroadcastWork _ context _ _ _ _
  | AsyncAllreduceWork _ context _ _ _
  | AsyncSparseAllreduceWork _ context _ _
  | AsyncAllreduceCoalescedWork context _ _ _
  | AsyncReduceWork _ context _ _ _ _ _
  | AsyncAllgatherWork _ context _ _ _
  | AsyncGatherWork _ context _ _ _ _
  | AsyncScatterWork _ context _ _ _ _
  | AsyncBarrierWork context _ _ => context
  end.

(** The group after [work] was given the next tag and enqueued. *)
Definition submitted (pg : ProcessGroupGloo) (work : AsyncWork) : ProcessGroupGloo :=
  mkPG (USE_CUDA pg) (rank_ pg) (size_ pg) (contexts_ pg) (next_counter pg)
       (workQueue_ pg ++ [work]) (workInProgress_ pg) (transport pg).

(** The group after a tag was drawn and nothing was enqueued. *)
Definition tag_drawn (pg : ProcessGroupGloo) : ProcessGroupGloo :=
  mkPG (USE_CUDA pg) (rank_ pg) (size_ pg) (contexts_ pg) (next_counter pg)
       (workQueue_ pg) (workInProgress_ pg) (transport pg).

(** The tensor whose device the entry point switches on. *)
Definition first_tensor (c : Call) : option Tensor :=
  match c with
  | CallBroadcast inputs _ _
  | CallAllreduce inputs _
  | CallAllreduceCoalesced inputs _
  | CallReduce inputs _ _ _
  | CallAllgather _ inputs
  | CallGather _ inputs _ => head inputs
  | CallScatter outputs _ _ => head outputs
  | CallReduceScatter _ _ | CallBarrier => None
  end.

(** The [cuda] flag of a work item; the coalesced allreduce and the
    barrier have no accelerator subclass. *)
Definition is_cuda_work (w : AsyncWork) : bool :=
  match w with
  | AsyncBroadcastWork cuda _ _ _ _ _
  | AsyncAllreduceWork cuda _ _ _ _
  | AsyncSparseAllreduceWork cuda _ _ _
  | AsyncReduceWork cuda _ _ _ _ _ _
  | AsyncAllgatherWork cuda _ _ _ _
  | AsyncGatherWork cuda _ _ _ _ _
  | AsyncScatterWork cuda _ _ _ _ _ => cuda
  | AsyncAllreduceCoalescedWork _ _ _ _
  | AsyncBarrierWork _ _ _ => false
  end.

(** The work item class fits the device of [t]: the host class for a
    host tensor, the accelerator class for an accelerator tensor in a
    build with [USE_CUDA]. *)
Definition class_fits (pg : ProcessGroupGloo) (t : Tensor) (w : AsyncWork) : Prop :=
  (device t = kCPU /\ is_cuda_work w = false) \/
  (device t = kCUDA /\ USE_CUDA pg = true /\ is_cuda_work w = true).

(** The nested tensor list that the constructor of the accelerator
    work item of a call hands to [initializeStreamsEvents]. *)
Definition nested_tensors (c : Call) : option (list (list Tensor)) :=
  match c with
  | CallAllgather outputs _
  | CallGather outputs _ _ => Some outputs
  | CallScatter _ inputs _ => Some inputs
  | _ => None
  end.

(** The constructor of the accelerator work item failed: the first
    tensor is an accelerator tensor in a build with [USE_CUDA], the tag
    was drawn, and [e] is what [initializeStreamsEvents] threw on the
    nested list. *)
Definition constructor_failed (nested : option (list (list Tensor)))
           (first : option Tensor) (pg pg' : ProcessGroupGloo) (e : exn) : Prop :=
  exists t tensors,
    first = Some t /\ device t = kCUDA /\ USE_CUDA pg = true /\
    nested = Some tensors /\
    pg' = tag_drawn pg /\
    initializeStreamsEvents_nested tensors pg' = (Throw e, pg') /\
    (e = RuntimeError "tensors in the nested tensor vectors need to be on the same device" \/
     In [] tensors).

(** The outcome of an entry point that switched on the device of
    [first]: the returned work item is the one enqueued, built on context
    [tag % contexts_.size()]; a failure has enqueued nothing and is an
    invalid-argument error, or the failure of the constructor of an
    accelerator work item over the nested list [nested]. *)
Definition outcome (nested : option (list (list Tensor))) (first : option Tensor)
           (pg : ProcessGroupGloo) (out : Result AsyncWork * ProcessGroupGloo) : Prop :=
  match out with
  | (Ok w, pg') =>
      pg' = submitted pg w /\
      tag_of w = collectiveCounter_ pg /\
      context_of w = Z.to_nat (collectiveCounter_ pg mod contexts_ pg) /\
      forall t, first = Some t -> class_fits pg t w
  | (Throw e, pg') =>
      ((exists msg, e = InvalidArgument msg) /\ (pg' = pg \/ pg' = tag_drawn pg)) \/
      constructor_failed nested first pg pg' e
  end.

(** A check: it returns without touching the group or throws an
    invalid-argument error. *)
Definition is_check {A : Type} (m : M A) : Prop :=
  forall pg, (exists a, m pg = (Ok a, pg)) \/
             (exists msg, m pg = (Throw (InvalidArgument msg), pg)).

Definition is_reduce_scatter (c : Call) : bool :=
  match c with
  | CallReduceScatter _ _ => true
  | _ => false
  end.

(** The work items a run of calls handed out, in order. *)
Fixpoint works (rs : list (Result AsyncWork)) : list AsyncWork :=
  match rs with
  | [] => []
  | Ok w :: rs' => w :: works rs'
  | Throw _ :: rs' => works rs'
  end.

(** A group with accelerator support, and an accelerator tensor. *)
Definition ex_pg_cuda : ProcessGroupGloo := mkPG true 1 4 2 5 [] [None; None] [].
Definition ex_cuda_tensor : Tensor := mkTensor kCUDA kStrided Float [2; 3] true 0.
(** The same on the second accelerator. *)
Definition ex_cuda_tensor_1 : Tensor := mkTensor kCUDA kStrided Float [2; 3] true 1.
Definition ex_sparse_tensor : Tensor := mkTensor kCPU kSparse Float [2; 3] true (-1).

End DispatchQueue.

(** ** The three point-to-point entry points, as one call *)

Module P2P.
Import Dispatch.

Inductive P2PCall : Type :=
| CallSend (tensors : list Tensor) (dstRank tag : Z)
| CallRecv (tensors : list Tensor) (srcRank tag : Z)
| CallRecvAnysource (tensors : list Tensor) (tag : Z).

Definition p2p (c : P2PCall) : M P2PWork :=
  match c with
  | CallSend tensors dstRank tag => send tensors dstRank tag
  | CallRecv tensors srcRank tag => recv tensors srcRank tag
  | CallRecvAnysource tensors tag => recvAnysource tensors tag
  end.

Definition p2p_tensors (c : P2PCall) : list Tensor :=
  match c with
  | CallSend tensors _ _ | CallRecv tensors _ _ | CallRecvAnysource tensors _ => tensors
  end.

Definition p2p_tag (c : P2PCall) : Z :=
  match c with
  | CallSend _ _ tag | CallRecv _ _ tag | CallRecvAnysource _ tag => tag
  end.

(** The tensor a handle keeps alive. *)
Definition tensor_ (w : P2PWork) : Tensor :=
  match w with
  | SendWork tensor | RecvWork tensor _ => tensor
  end.

(** The call on the unbound buffer that belongs to an entry point. *)
Definition buffer_call (size : Z) (c : P2PCall) : TransportCall :=
  match c with
  | CallSend _ dstRank tag => buffer_send dstRank tag
  | CallRecv _ srcRank tag => buffer_recv srcRank tag
  | CallRecvAnysource _ tag => buffer_recv_any (anysource_ranks size) tag
  end.

Definition ex_strided_view : Tensor := mkTensor kCPU kStrided Float [2; 3] false (-1).

End P2P.

(** ** Where the work items of the pool are *)

Module WorkerPoolItems.
Import WorkerPool.

(** The item a worker is executing, if any. *)
Definition in_execute (t : Worker) : list Work :=
  match t with
  | Executing w => [w]
  | _ => []
  end.

(** The items inside [AsyncWork::execute], by worker index. *)
Definition executing (threads : list Worker) : list Work :=
  flat_map in_execute threads.

(** What the slot [workInProgress_[workerIndex]] holds while the worker
    is at a given place of [runLoop]: the item from the pop until the
    slot is reset after [execute], nothing otherwise. *)
Definition slot_matches (t : Worker) (slot : option Work) : Prop :=
  match t with
  | Executing w => slot = Some w
  | Executed => exists w, slot = Some w
  | AtLoopHead | Returned => slot = None
  end.

(** Everything ever enqueued, as far as the pool still shows it: what
    was executed, what is being executed, what is waiting. *)
Definition items (p : Pool) : list Work :=
  executed p ++ executing (threads_ p) ++ workQueue_ p.

(** Two workers; item 1 executed, item 2 in execution, item 3 queued. *)
Definition ex_busy : Pool :=
  mkPool [3%nat] [None; Some 2%nat] false [AtLoopHead; Executing 2%nat] NotStarted
         [1%nat; 2%nat; 3%nat] [1%nat].

(** One worker; items 1 and 2 executed in that order, item 3 queued
    after the destructor began. *)
Definition ex_single : Pool :=
  mkPool [3%nat] [None] false [AtLoopHead] WaitingForEmptyQueue
         [1%nat; 2%nat] [1%nat; 2%nat].

End WorkerPoolItems.

(** ** More dense work items: broadcast, coalesced allreduce, allgather, gather *)

Section DenseWorkItems.
Context {E : Type} `{GlooTransport E}.

(** Types and shapes are those of [h], and tensors outside [tensors]
    hold what they held. *)
Definition preserves (tensors : list nat) (h h' : gmap nat (DenseTensor E)) : Prop :=
  (forall t, ~ In t tensors -> h' !! t = h !! t) /\
  (forall t x, h !! t = Some x ->
     exists x', h' !! t = Some x' /\ d_type x' = d_type x /\ d_sizes x' = d_sizes x) /\
  (forall t, h !! t = None -> h' !! t = None).

(** [tensor.numel()]: the data of a tensor holds one element per index. *)
Definition numel (x : DenseTensor E) : nat := length (d_data x).

(** [v[i]] for an [int] index into a vector. *)
Definition at_index {A : Type} (v : list A) (i : Z) : Result A :=
  if i <? 0 then Throw (RuntimeError "vector index out of range")
  else match v !! Z.to_nat i with
       | Some a => Ok a
       | None => Throw (RuntimeError "vector index out of range")
       end.

(** [dst.copy_(src)] from a temporary that is not in the store. *)
Definition copy_from (h : gmap nat (DenseTensor E)) (dst : nat) (src : DenseTensor E)
  : Result (gmap nat (DenseTensor E)) :=
  d ← lookup_tensor h dst;
  if bool_decide (d_sizes d = d_sizes src)
  then Ok (<[dst := set_data (d_data src) d]> h)
  else Throw (RuntimeError "The size of tensor a must match the size of tensor b").

(** *** AsyncBroadcastWork *)

(** The transport's broadcast: from root rank, tag and the contents of
    the buffer to its contents afterwards. *)
Variable gloo_broadcast : Z -> Z -> list E -> Result (list E).

Record AsyncBroadcastWork : Type := mkBroadcastWork {
  bw_context : GlooContext;
  bw_inputs : list nat;
  bw_rootRank : Z;
  bw_rootTensor : Z;
  bw_tag : Z
}.

(** [AsyncBroadcastWork::broadcast] *)
Definition broadcast_tensor (work : AsyncBroadcastWork)
           (h : gmap nat (DenseTensor E)) (tensor : nat)
  : Result (gmap nat (DenseTensor E)) :=
  x ← lookup_tensor h tensor;
  let scalarType := d_type x in
  GENERATE_ALL_TYPES scalarType (Ok tt);;
  new ← gloo_broadcast (bw_rootRank work) (bw_tag work) (d_data x);
  Ok (<[tensor := set_data new x]> h).

(** [for (i = 0; i < inputs.size(); i++) { if (i == rootTensor) continue;
    inputs[i].copy_(inputs[rootTensor]); }], from index [i] on. *)
Fixpoint copy_to_others (h : gmap nat (DenseTensor E)) (root : nat) (rootTensor : nat)
         (i : nat) (inputs : list nat) : Result (gmap nat (DenseTensor E)) :=
  match inputs with
  | [] => Ok h
  | t :: rest =>
      h' ← (if (i =? rootTensor)%nat then Ok h else copy_ h t root);
      copy_to_others h' root rootTensor (S i) rest
  end.

(** [AsyncBroadcastWork::run] *)
Definition broadcast_run (work : AsyncBroadcastWork) (h : gmap nat (DenseTensor E))
  : Result (gmap nat (DenseTensor E)) :=
  root ← at_index (bw_inputs work) (bw_rootTensor work);
  h1 ← broadcast_tensor work h root;
  copy_to_others h1 root (Z.to_nat (bw_rootTensor work)) 0 (bw_inputs work).

(** *** AsyncAllreduceCoalescedWork *)

(** Modelled from the spec: "Flatten tensors into one contiguous
    buffer": a one-dimensional tensor that holds the elements of the
    tensors one after another; an empty list is refused. *)
Definition flattenDenseTensors (xs : list (DenseTensor E)) : Result (DenseTensor E) :=
  match xs with
  | [] => Throw (RuntimeError "expected a non-empty list of Tensors")
  | x0 :: _ =>
      let data := concat (map d_data xs) in
      Ok (mkDense (d_type x0) [Z.of_nat (length data)] data)
  end.

(** [coalescedTensor.slice(0, offset, offset + tensorNumel)] on the
    elements of a one-dimensional tensor. *)
Definition slice (data : list E) (offset len : nat) : list E :=
  firstn len (skipn offset data).

(** [t.view(shape)] of [data] for the shape of [like]: the number of
    elements has to be that of [like]. *)
Definition view_as (data : list E) (like : DenseTensor E) : Result (DenseTensor E) :=
  if (length data =? numel like)%nat
  then Ok (mkDense (d_type like) (d_sizes like) data)
  else Throw (RuntimeError "shape is invalid for input size").

(** The loop that separates and reshapes the tensors, from [offset] on. *)
Fixpoint split_coalesced (h : gmap nat (DenseTensor E)) (coalesced : list E)
         (offset : nat) (tensors : list nat) : Result (gmap nat (DenseTensor E)) :=
  match tensors with
  | [] => Ok h
  | t :: rest =>
      tensor ← lookup_tensor h t;
      let tensorNumel := numel tensor in
      piece ← view_as (slice coalesced offset tensorNumel) tensor;
      h' ← copy_from h t piece;
      split_coalesced h' coalesced (offset + tensorNumel) rest
  end.

(** [AsyncAllreduceCoalescedWork::allreduceCoalesced]; the temporary
    lives at a handle of its own while the inherited [allreduce] runs on
    it, and is gone at the end. *)
Definition allreduceCoalesced (work : AsyncAllreduceWork)
           (h : gmap nat (DenseTensor E)) (tensors : list nat)
  : Result (gmap nat (DenseTensor E)) :=
  xs ← sequence (map (lookup_tensor h) tensors);
  coalescedTensor ← flattenDenseTensors xs;
  let c := fresh (dom h) in
  h1 ← dense_allreduce work (<[c := coalescedTensor]> h) [c];
  reduced ← lookup_tensor h1 c;
  split_coalesced (delete c h1) (d_data reduced) 0 tensors.

(** [AsyncAllreduceCoalescedWork::run] *)
Definition coalesced_run (work : AsyncAllreduceWork) (h : gmap nat (DenseTensor E))
  : Result (gmap nat (DenseTensor E)) :=
  allreduceCoalesced work h (aw_inputs work).

(** The transport works in place: it returns as many buffers as it
    was given, each of the length it had. *)
Definition transport_in_place (work : AsyncAllreduceWork) : Prop :=
  forall fn bufs, exists new,
    gloo_allreduce fn (aw_tag work) bufs = Ok new /\ map length new = map length bufs.

(** The contents of the tensors [tensors] of [h], one after another. *)
Definition contents (h : gmap nat (DenseTensor E)) (tensors : list nat) : list E :=
  concat (map (fun t => match h !! t with
                        | Some x => d_data x
                        | None => []
                        end) tensors).

(** *** AsyncAllgatherWork and AsyncGatherWork *)

(** The transport's allgather and gather: from tag, the contents of the
    input buffer and the length of the output buffer to the contents of
    the output buffer afterwards; gather also takes the root, and has no
    output buffer off the root. *)
Variable gloo_allgather_flat : Z -> list E -> nat -> Result (list E).
Variable gloo_gather : Z -> Z -> list E -> option nat -> Result (list E).

(** Modelled from the spec: "allocate a contiguous output of shape
    [size*len(inputs), ...]": [newLikeFlat(tensors)] is an uninitialised
    tensor whose first dimension indexes [tensors] and whose other
    dimensions are those of [tensors[0]]; an empty list is refused.  The
    record holds type and sizes, the data is what the transport writes. *)
Definition newLikeFlat (xs : list (DenseTensor E)) : Result (ScalarType * list Z * nat) :=
  match xs with
  | [] => Throw (RuntimeError "Received an empty list")
  | x0 :: _ => Ok (d_type x0, Z.of_nat (length xs) :: d_sizes x0, (length xs * numel x0)%nat)
  end.

(** [flatOutputTensor[j]]: the [j]-th slice along the first dimension. *)
Definition select (ty : ScalarType) (sizes : list Z) (data : list E) (j : nat)
  : Result (DenseTensor E) :=
  match sizes with
  | n :: row =>
      if Z.of_nat j <? n
      then let m := (length data / Z.to_nat n)%nat in
           Ok (mkDense ty row (slice data (j * m) m))
      else Throw (RuntimeError "index out of range")
  | [] => Throw (RuntimeError "invalid index of a 0-dim tensor")
  end.

(** [for (j = 0; j < outputs[i].size(); j++) outputs[i][j].copy_(flat[j]);],
    from index [j] on. *)
Fixpoint unflatten_into (h : gmap nat (DenseTensor E)) (ty : ScalarType)
         (sizes : list Z) (data : list E) (j : nat) (output : list nat)
  : Result (gmap nat (DenseTensor E)) :=
  match output with
  | [] => Ok h
  | t :: rest =>
      row ← select ty sizes data j;
      h' ← copy_from h t row;
      unflatten_into h' ty sizes data (S j) rest
  end.

(** [for (i = 0; i < outputs.size(); i++) ...] *)
Fixpoint unflatten_all (h : gmap nat (DenseTensor E)) (ty : ScalarType)
         (sizes : list Z) (data : list E) (outputs : list (list nat))
  : Result (gmap nat (DenseTensor E)) :=
  match outputs with
  | [] => Ok h
  | o :: rest =>
      h' ← unflatten_into h ty sizes data 0 o;
      unflatten_all h' ty sizes data rest
  end.

Record AsyncAllgatherWork : Type := mkAllgatherWork {
  gw_context : GlooContext;
  gw_outputs : list (list nat);
  gw_inputs : list nat;
  gw_tag : Z
}.

(** [AsyncAllgatherWork::allgather] *)
Definition allgather_tensors (work : AsyncAllgatherWork)
           (h : gmap nat (DenseTensor E))
           (outputs : list (list nat)) (inputs : list nat)
  : Result (gmap nat (DenseTensor E)) :=
  t0 ← at_index inputs 0;
  x0 ← lookup_tensor h t0;
  let scalarType := d_type x0 in
  xs ← sequence (map (lookup_tensor h) inputs);
  flatInputTensor ← flattenDenseTensors xs;
  GENERATE_ALL_TYPES scalarType (Ok tt);;
  o0 ← at_index outputs 0;
  os ← sequence (map (lookup_tensor h) o0);
  '(ty, sizes, len) ← newLikeFlat os;
  GENERATE_ALL_TYPES scalarType (Ok tt);;
  flat ← gloo_allgather_flat (gw_tag work) (d_data flatInputTensor) len;
  unflatten_all h ty sizes flat outputs.

(** [AsyncAllgatherWork::run] *)
Definition allgather_run (work : AsyncAllgatherWork) (h : gmap nat (DenseTensor E))
  : Result (gmap nat (DenseTensor E)) :=
  allgather_tensors work h (gw_outputs work) (gw_inputs work).

Record AsyncGatherWork : Type := mkGatherWork {
  gt_context : GlooContext;
  gt_outputs : list (list nat);
  gt_inputs : list nat;
  gt_root : Z;
  gt_tag : Z
}.

(** [AsyncGatherWork::gather] *)
Definition gather_tensors (work : AsyncGatherWork)
           (h : gmap nat (DenseTensor E))
           (outputs : list (list nat)) (inputs : list nat)
  : Result (gmap nat (DenseTensor E)) :=
  t0 ← at_index inputs 0;
  x0 ← lookup_tensor h t0;
  let scalarType := d_type x0 in
  let on_root := Z.of_nat (ctx_rank (gt_context work)) =? gt_root work in
  flatOutputTensor ←
    (if on_root
     then o0 ← at_index outputs 0;
          os ← sequence (map (lookup_tensor h) o0);
          shape ← newLikeFlat os;
          GENERATE_ALL_TYPES scalarType (Ok tt);;
          Ok (Some shape)
     else Ok None);
  GENERATE_ALL_TYPES scalarType (Ok tt);;
  flat ← gloo_gather (gt_root work) (gt_tag work) (d_data x0)
                     (match flatOutputTensor with
                      | Some (_, _, len) => Some len
                      | None => None
                      end);
  match flatOutputTensor with
  | Some (ty, sizes, _) =>
      o0 ← at_index outputs 0;
      unflatten_into h ty sizes flat 0 o0
  | None => Ok h
  end.

(** [AsyncGatherWork::run] *)
Definition gather_run (work : AsyncGatherWork) (h : gmap nat (DenseTensor E))
  : Result (gmap nat (DenseTensor E)) :=
  gather_tensors work h (gt_outputs work) (gt_inputs work).

End DenseWorkItems.

Arguments broadcast_run {E} gloo_broadcast work h.
Arguments broadcast_tensor {E} gloo_broadcast work h tensor.
Arguments allgather_run {E} gloo_allgather_flat work h.
Arguments allgather_tensors {E} gloo_allgather_flat work h outputs inputs.
Arguments gather_run {E} gloo_gather work h.
Arguments gather_tensors {E} gloo_gather work h outputs inputs.

(** Three tensors of different shapes, and a coalesced allreduce on
    the first two. *)
Definition ex_coalesced_heap : gmap nat (DenseTensor Z) :=
  <[0%nat := mkDense Int [2; 2] [1; 2; 3; 4]]>
    (<[1%nat := mkDense Int [3] [5; 6; 7]]>
       (<[2%nat := mkDense Int [1] [8]]> ∅)).

Definition ex_coalesced_work : AsyncAllreduceWork :=
  mkAllreduceWork (mkContext 0 1) [0%nat; 1%nat] SUM 0.

(** A transport that doubles every element, as a sum over two ranks
    with equal contents would. *)
Definition Doubling_Transport : GlooTransport Z :=
  {| gloo_allreduce := fun _ _ bufs => Ok (map (map (fun z => 2 * z)) bufs) |}.

(** One input and two output tensors of two elements each, on a
    transport that fills the output buffer with the input followed by
    zeros. *)
Definition ex_gather_heap : gmap nat (DenseTensor Z) :=
  <[0%nat := mkDense Int [2] [1; 2]]>
    (<[1%nat := mkDense Int [2] [0; 0]]>
       (<[2%nat := mkDense Int [2] [0; 0]]> ∅)).

Definition ex_allgather_work : AsyncAllgatherWork :=
  mkAllgatherWork (mkContext 0 2) [[1%nat; 2%nat]] [0%nat] 3.

Definition ex_gather_work : AsyncGatherWork :=
  mkGatherWork (mkContext 0 2) [[1%nat; 2%nat]] [0%nat] 0 4.

Definition ex_allgather_transport (tag : Z) (input : list Z) (len : nat)
  : Result (list Z) :=
  Ok (firstn len (input ++ repeat 0 len)).

Definition ex_gather_transport (root tag : Z) (input : list Z) (len : option nat)
  : Result (list Z) :=
  match len with
  | Some n => Ok (firstn n (input ++ repeat 0 n))
  | None => Ok []
  end.

(** ** Construction of the process group *)

Module Construction.
Import Dispatch.

(** [ProcessGroupGloo::Options]; a device is named by a number. *)
Record Options : Type := mkOptions {
  timeout : Z;                (* milliseconds *)
  threads : Z;
  devices : list nat
}.

(** [Options::Options()]: ten seconds, two threads, no device. *)
Definition default_options : Options := mkOptions (10 * 1000) 2 [].

(** The constructor, for a number of threads that is not negative:
    one context per device, [workInProgress_] resized to one empty slot
    per thread, the counter at zero.  The rendezvous of each context
    ([connectFullMesh]) is the transport's and is taken to return. *)
Definition construct (use_cuda : bool) (rank size : Z) (options : Options)
  : Result ProcessGroupGloo :=
  match devices options with
  | [] => Throw (RuntimeError "No device(s) specified")
  | _ :: _ =>
      Ok (mkPG use_cuda rank size (Z.of_nat (length (devices options))) 0 []
               (repeat None (Z.to_nat (threads options))) [])
  end.

End Construction.

(** ** AsyncBarrierWork::run *)

Section BarrierRun.

(** Work items, the outcome of [work->wait()] on each, and the
    transport's barrier. *)
Context {W : Type}.
Variable wait : W -> Result unit.
Variable gloo_barrier : Z -> Result unit.

(** What a run does, in the order done. *)
Inductive BarrierEvent : Type :=
| Waited (work : W)
| TransportBarrier (tag : Z).

(** The loop over [priorWork]: an expired weak pointer ([lock()]
    returns null) is skipped, a live one is waited for, and an exception
    from [wait()] ends the loop. *)
Fixpoint wait_prior (priorWork : list (option W))
  : list BarrierEvent * Result unit :=
  match priorWork with
  | [] => ([], Ok tt)
  | None :: rest => wait_prior rest
  | Some work :: rest =>
      match wait work with
      | Ok _ => let '(log, r) := wait_prior rest in (Waited work :: log, r)
      | Throw e => ([Waited work], Throw e)
      end
  end.

(** [AsyncBarrierWork::run] *)
Definition barrier_run (priorWork : list (option W)) (tag : Z)
  : list BarrierEvent * Result unit :=
  let '(log, r) := wait_prior priorWork in
  match r with
  | Ok _ => (log ++ [TransportBarrier tag], gloo_barrier tag)
  | Throw e => (log, Throw e)
  end.

(** The prior work that is still alive. *)
Definition live (priorWork : list (option W)) : list W := omap id priorWork.

End BarrierRun.

Arguments Waited {W} work.
Arguments TransportBarrier {W} tag.
(** ** Collective calls and worker threads, interleaved

    The group is shared between the thread that calls the collectives
    and the worker threads of [runLoop].  [workQueue_] and
    [workInProgress_] are only touched under [workMutex_]: by [enqueue],
    by the first block of [barrier], and by the workers when they pop an
    item and when they reset their slot.  Every such critical section is
    one step here.  There is one calling thread ([collectiveCounter_] is
    not atomic), and the group is in use: the destructor and [stop_] are
    those of the worker pool above. *)

Module Interleaving.
Import Dispatch DispatchQueue.

(** Where a worker thread stands in [runLoop]. *)
Inductive Worker : Type :=
| AtLoopHead                   (* holds or waits for the lock at [while (!stop_)] *)
| Executing (work : AsyncWork) (* inside [AsyncWork::execute(work)], lock released *)
| Executed.                    (* [execute] returned, before [lock.lock()] *)

(** Where the calling thread stands: between two calls, or inside
    [barrier] after the snapshot was taken and the lock released. *)
Inductive Caller : Type :=
| Outside
| InBarrier (priorWork : list (option AsyncWork)).

Record System : Type := mkSystem {
  group : ProcessGroupGloo;
  threads_ : list Worker;
  caller : Caller;
  (** history, not program state *)
  returned : list (Result AsyncWork);   (* the outcomes of the calls, in call order *)
  taken : list AsyncWork;               (* the items popped by the workers, in pop order *)
  finished : list AsyncWork             (* the items whose [execute] returned *)
}.

(** The group with another queue and other slots. *)
Definition set_work (pg : ProcessGroupGloo) (queue : list AsyncWork)
           (inProgress : list (option AsyncWork)) : ProcessGroupGloo :=
  mkPG (USE_CUDA pg) (rank_ pg) (size_ pg) (contexts_ pg) (collectiveCounter_ pg)
       queue inProgress (transport pg).

(** The first block of [barrier], under the lock: the work in progress
    followed by the queue. *)
Definition snapshot (pg : ProcessGroupGloo) : list (option AsyncWork) :=
  workInProgress_ pg ++ map Some (workQueue_ pg).

(** The rest of [barrier], from [nextTag()] on. *)
Definition barrier_submit (priorWork : list (option AsyncWork)) : M AsyncWork :=
  tag ← nextTag;
  context ← getContext tag;
  let work := AsyncBarrierWork context priorWork tag in
  enqueue work;;
  ret work.

Definition is_barrier (c : Call) : bool :=
  match c with
  | CallBarrier => true
  | _ => false
  end.

(** The steps of the threads.  A collective other than [barrier]
    reads and writes the shared members in [enqueue] only, and the
    workers touch nothing else of the group, so the whole call is the
    step taken when [enqueue] holds the lock.  [barrier] takes two.
    A worker that resets its slot and pops the next item without
    releasing the lock takes [Clear] and [Pop] one after the other;
    that other steps may come between the two only adds runs. *)
Inductive Event : Type :=
| Collective (c : Call)
| BarrierSnapshot
| BarrierSubmit
| Pop (workerIndex : nat)       (* [workQueue_.pop_front(); workInProgress_[workerIndex] = work] *)
| Execute (workerIndex : nat)   (* [AsyncWork::execute(std::move(work))] *)
| Clear (workerIndex : nat).    (* [lock.lock(); workInProgress_[workerIndex] = nullptr] *)

Definition is_worker_event (ev : Event) : bool :=
  match ev with
  | Pop _ | Execute _ | Clear _ => true
  | _ => false
  end.

(** One step; [None] when the thread is not at the place of the step. *)
Definition step (ev : Event) (s : System) : option System :=
  let pg := group s in
  match ev with
  | Collective c =>
      match caller s with
      | Outside =>
          if is_barrier c then None
          else
            let '(r, pg') := dispatch c pg in
            Some (mkSystem pg' (threads_ s) Outside
                           (returned s ++ [r]) (taken s) (finished s))
      | InBarrier _ => None
      end
  | BarrierSnapshot =>
      match caller s with
      | Outside =>
          Some (mkSystem pg (threads_ s) (InBarrier (snapshot pg))
                         (returned s) (taken s) (finished s))
      | InBarrier _ => None
      end
  | BarrierSubmit =>
      match caller s with
      | InBarrier priorWork =>
          let '(r, pg') := barrier_submit priorWork pg in
          Some (mkSystem pg' (threads_ s) Outside
                         (returned s ++ [r]) (taken s) (finished s))
      | Outside => None
      end
  | Pop i =>
      match threads_ s !! i, workQueue_ pg with
      | Some AtLoopHead, work :: queue =>
          Some (mkSystem (set_work pg queue (<[i := Some work]> (workInProgress_ pg)))
                         (<[i := Executing work]> (threads_ s)) (caller s)
                         (returned s) (taken s ++ [work]) (finished s))
      | _, _ => None
      end
  | Execute i =>
      match threads_ s !! i with
      | Some (Executing work) =>
          Some (mkSystem pg (<[i := Executed]> (threads_ s)) (caller s)
                         (returned s) (taken s) (finished s ++ [work]))
      | _ => None
      end
  | Clear i =>
      match threads_ s !! i with
      | Some Executed =>
          Some (mkSystem (set_work pg (workQueue_ pg) (<[i := None]> (workInProgress_ pg)))
                         (<[i := AtLoopHead]> (threads_ s)) (caller s)
                         (returned s) (taken s) (finished s))
      | _ => None
      end
  end.

Fixpoint run (evs : list Event) (s : System) : option System :=
  match evs with
  | [] => Some s
  | ev :: evs' =>
      match step ev s with
      | Some s' => run evs' s'
      | None => None
      end
  end.

(** The group [pg] with one worker per slot of [workInProgress_], all
    at the head of the loop, and no call made yet. *)
Definition start (pg : ProcessGroupGloo) : System :=
  mkSystem pg (repeat AtLoopHead (length (workInProgress_ pg))) Outside [] [] [].

(** The events of a program while no worker moves. *)
Definition calls_only (calls : list Call) : list Event :=
  flat_map (fun c => if is_barrier c then [BarrierSnapshot; BarrierSubmit]
                     else [Collective c])
           calls.

(** What ties the workers to the group: one worker per slot, the item
    a worker executes is in its slot, and every item taken off the
    queue is being executed or has been executed. *)
Definition consistent (s : System) : Prop :=
  length (threads_ s) = length (workInProgress_ (group s)) /\
  (forall i work, threads_ s !! i = Some (Executing work) ->
                  workInProgress_ (group s) !! i = Some (Some work)) /\
  (forall work, In work (taken s) ->
                In work (finished s) \/ exists i, threads_ s !! i = Some (Executing work)).

(** Three calls return and one fails; worker 0 runs the first item to
    its end and resets its slot, worker 1 has popped the second, the
    third is still queued. *)
Definition ex_events : list Event :=
  [Collective (CallBroadcast [ex_cpu_tensor] 0 0);
   Pop 0;
   Collective (CallAllreduce [ex_mkldnn_tensor] SUM);
   Collective (CallAllreduce [ex_cpu_tensor] SUM);
   Execute 0;
   Collective (CallReduce [ex_cpu_tensor] 1 0 SUM);
   Clear 0;
   Pop 1].

End Interleaving.
(** ** Round trip of the metadata record *)

Section MetadataRoundTrip.
Context {V : Type}.

Local Ltac pos_leb :=
  repeat match goal with
    | H : 0 < ?x |- context [?x <=? 0] =>
        replace (x <=? 0) with false by (symmetry; apply Z.leb_gt; exact H)
    end.

(** C9. For a sparse tensor with at most four sparse and four dense
    dimensions, all of them strictly positive, populating a nine-slot
    record whose unused size slots hold zero and reading it back gives
    the sparse sizes followed by the dense sizes, and the nnz. *)
Theorem metadata_roundtrip (t : SparseTensor V) (data_ : Meta.Data) :
  (sparse_dim t <= 4)%nat ->
  (dense_dim t <= 4)%nat ->
  length (sizes t) = (sparse_dim t + dense_dim t)%nat ->
  Forall (fun s => 0 < s) (sizes t) ->
  length data_ = Meta.dim ->
  (forall i, (sparse_dim t <= i < 4)%nat -> Meta.get data_ i = 0) ->
  (forall i, (dense_dim t <= i < 4)%nat -> Meta.get data_ (4 + i) = 0) ->
  exists d,
    Meta.populate_from_sparse_tensor t data_ = Ok d /\
    Meta.sizes d = firstn (sparse_dim t) (sizes t) ++ skipn (sparse_dim t) (sizes t) /\
    Meta.nnz d = _nnz t.
Proof.
  destruct t as [ty sd dd sz es]; simpl.
  intros Hsd Hdd Hlen Hpos Hd Hs0 Hd0.
  do 10 (destruct data_ as [|? data_]; try discriminate Hd). clear Hd.
  unfold Meta.get in Hs0, Hd0.
  assert (S0 : (sd <=? 0)%nat = true -> z = 0)
    by (intros E; apply Nat.leb_le in E; apply (Hs0 0%nat); lia).
  assert (S1 : (sd <=? 1)%nat = true -> z0 = 0)
    by (intros E; apply Nat.leb_le in E; apply (Hs0 1%nat); lia).
  assert (S2 : (sd <=? 2)%nat = true -> z1 = 0)
    by (intros E; apply Nat.leb_le in E; apply (Hs0 2%nat); lia).
  assert (S3 : (sd <=? 3)%nat = true -> z2 = 0)
    by (intros E; apply Nat.leb_le in E; apply (Hs0 3%nat); lia).
  assert (D0 : (dd <=? 0)%nat = true -> z3 = 0)
    by (intros E; apply Nat.leb_le in E; apply (Hd0 0%nat); lia).
  assert (D1 : (dd <=? 1)%nat = true -> z4 = 0)
    by (intros E; apply Nat.leb_le in E; apply (Hd0 1%nat); lia).
  assert (D2 : (dd <=? 2)%nat = true -> z5 = 0)
    by (intros E; apply Nat.leb_le in E; apply (Hd0 2%nat); lia).
  assert (D3 : (dd <=? 3)%nat = true -> z6 = 0)
    by (intros E; apply Nat.leb_le in E; apply (Hd0 3%nat); lia).
  clear Hs0 Hd0.
  unfold Meta.populate_from_sparse_tensor, Meta.sizes, Meta.nnz, tsize, _nnz; simpl.
  destruct sd as [|[|[|[|[|sd]]]]]; [| | | | |exfalso; lia];
  (destruct dd as [|[|[|[|[|dd]]]]]; [| | | | |exfalso; lia]);
  clear Hsd Hdd; simpl in *;
  repeat (destruct sz as [|? sz]; simpl in Hlen; try discriminate Hlen);
  clear Hlen;
  repeat match goal with
    | H : true = true -> _ |- _ => specialize (H eq_refl)
    | H : false = true -> _ |- _ => clear H
    | H : Forall _ (_ :: _) |- _ => inversion H; subst; clear H
    | H : Forall _ [] |- _ => clear H
    end;
  subst;
  (eexists; split; [reflexivity|]);
  unfold Meta.get; simpl; pos_leb; simpl; auto.
Qed.

End MetadataRoundTrip.

Lemma metadata_roundtrip_witness :
  exists d,
    Meta.populate_from_sparse_tensor ex_meta_tensor Meta.zeros = Ok d /\
    Meta.sizes d = [3; 5] ++ [2] /\
    Meta.nnz d = 3.
Proof.
  apply (metadata_roundtrip ex_meta_tensor Meta.zeros).
  - simpl; lia.
  - simpl; lia.
  - reflexivity.
  - repeat constructor.
  - reflexivity.
  - intros i Hi. simpl in Hi.
    do 4 (destruct i as [|i]; [reflexivity || lia|]). lia.
  - intros i Hi. simpl in Hi.
    do 4 (destruct i as [|i]; [reflexivity || lia|]). lia.
Defined.
(** ** The order on indices *)

Lemma coord_compare_refl (a : list Z) : coord_compare a a = Eq.
Proof.
  induction a as [|x a IH]; simpl; [reflexivity|].
  now rewrite Z.compare_refl.
Qed.

Lemma coord_compare_eq (a b : list Z) : coord_compare a b = Eq -> a = b.
Proof.
  revert b; induction a as [|x a IH]; intros [|y b]; simpl; try discriminate; auto.
  destruct (x ?= y) eqn:E; try discriminate.
  apply Z.compare_eq in E. intros Hab. f_equal; auto.
Qed.

Lemma coord_compare_antisym (a b : list Z) :
  coord_compare b a = CompOpp (coord_compare a b).
Proof.
  revert b; induction a as [|x a IH]; intros [|y b]; simpl; auto.
  rewrite (Z.compare_antisym x y).
  destruct (x ?= y); simpl; auto.
Qed.

Lemma coord_lt_trans (a b c : list Z) : coord_lt a b -> coord_lt b c -> coord_lt a c.
Proof.
  unfold coord_lt. revert b c.
  induction a as [|x a IH]; intros [|y b] [|z c]; simpl; try discriminate; auto.
  destruct (x ?= y) eqn:Exy; try discriminate;
    destruct (y ?= z) eqn:Eyz; try discriminate; intros Hab Hbc.
  - apply Z.compare_eq in Exy, Eyz. subst. rewrite Z.compare_refl. eauto.
  - apply Z.compare_eq in Exy. subst. now rewrite Eyz.
  - apply Z.compare_eq in Eyz. subst. now rewrite Exy.
  - rewrite Z.compare_lt_iff in Exy, Eyz.
    assert (E : (x ?= z) = Lt) by (apply Z.compare_lt_iff; lia).
    now rewrite E.
Qed.

Lemma coord_lt_irrefl (a : list Z) : ~ coord_lt a a.
Proof. unfold coord_lt. rewrite coord_compare_refl. discriminate. Qed.

Lemma coord_eqb_true (a b : list Z) : coord_eqb a b = true -> a = b.
Proof.
  unfold coord_eqb. destruct (coord_compare a b) eqn:E; try discriminate.
  intros _. now apply coord_compare_eq.
Qed.

Lemma coord_eqb_refl (a : list Z) : coord_eqb a a = true.
Proof. unfold coord_eqb. now rewrite coord_compare_refl. Qed.

Lemma coord_eqb_neq (a b : list Z) : a <> b -> coord_eqb a b = false.
Proof.
  intros Hne. destruct (coord_eqb a b) eqn:E; auto.
  apply coord_eqb_true in E. contradiction.
Qed.

(** ** Values and coalescing *)

Section SparseValueFacts.
Context {V : Type} `{ValueBlockLaws V}.

Lemma vadd_zero_r (a : V) : vadd a vzero = a.
Proof. rewrite vadd_comm. apply vadd_zero_l. Qed.

Lemma value_at_entries_app (l1 l2 : list (list Z * V)) (c : list Z) :
  value_at_entries (l1 ++ l2) c
  = vadd (value_at_entries l1 c) (value_at_entries l2 c).
Proof.
  induction l1 as [|[c' v] l1 IH]; simpl.
  - now rewrite vadd_zero_l.
  - destruct (coord_eqb c' c); auto.
    now rewrite IH, vadd_assoc.
Qed.

Lemma value_at_insert_entry (c : list Z) (v : V) (l : list (list Z * V)) (x : list Z) :
  value_at_entries (insert_entry c v l) x = value_at_entries ((c, v) :: l) x.
Proof.
  induction l as [|[c' v'] l IH]; simpl; auto.
  destruct (coord_compare c c') eqn:E; simpl; auto.
  - apply coord_compare_eq in E. subst c'.
    destruct (coord_eqb c x); auto.
    now rewrite (vadd_assoc v v'), (vadd_comm v v').
  - simpl in IH. rewrite IH.
    destruct (coord_eqb c' x), (coord_eqb c x); auto.
    now rewrite (vadd_assoc v' v), (vadd_assoc v v'), (vadd_comm v' v).
Qed.

Lemma value_at_fold_insert (l acc : list (list Z * V)) (x : list Z) :
  value_at_entries
    (fold_left (fun acc e => insert_entry (fst e) (snd e) acc) l acc) x
  = vadd (value_at_entries acc x) (value_at_entries l x).
Proof.
  revert acc; induction l as [|[c v] l IH]; intros acc; simpl.
  - now rewrite vadd_zero_r.
  - rewrite IH, value_at_insert_entry. simpl.
    destruct (coord_eqb c x); auto.
    now rewrite (vadd_comm v), vadd_assoc.
Qed.

Lemma value_at_coalesce (t : SparseTensor V) (c : list Z) :
  value_at (coalesce t) c = value_at t c.
Proof.
  unfold value_at, coalesce, coalesce_entries; simpl.
  rewrite value_at_fold_insert. simpl. apply vadd_zero_l.
Qed.

Lemma sumV_app {A : Type} (f : A -> V) (l1 l2 : list A) :
  sumV f (l1 ++ l2) = vadd (sumV f l1) (sumV f l2).
Proof.
  induction l1 as [|a l1 IH]; simpl.
  - now rewrite vadd_zero_l.
  - now rewrite IH, vadd_assoc.
Qed.

Lemma sumV_ext {A : Type} (f g : A -> V) (l : list A) :
  (forall a, In a l -> f a = g a) -> sumV f l = sumV g l.
Proof.
  induction l as [|a l IH]; simpl; intros Hfg; auto.
  rewrite Hfg by auto. f_equal. apply IH. auto.
Qed.

Lemma value_at_entries_concat (ls : list (list (list Z * V))) (c : list Z) :
  value_at_entries (concat ls) c = sumV (fun l => value_at_entries l c) ls.
Proof.
  induction ls as [|l ls IH]; simpl; auto.
  now rewrite value_at_entries_app, IH.
Qed.

End SparseValueFacts.

Section CoalesceSorted.
Context {V : Type} `{ValueBlock V}.

Lemma insert_entry_above (a c : list Z) (v : V) (l : list (list Z * V)) :
  coord_lt a c ->
  Forall (coord_lt a) (map fst l) ->
  Forall (coord_lt a) (map fst (insert_entry c v l)).
Proof.
  intros Hac. induction l as [|[c' v'] l IH]; simpl; intros Hl.
  - repeat constructor. exact Hac.
  - inversion Hl as [|? ? Hc' Hrest]; subst.
    destruct (coord_compare c c'); simpl; constructor; auto.
Qed.

Lemma insert_entry_sorted (c : list Z) (v : V) (l : list (list Z * V)) :
  StronglySorted coord_lt (map fst l) ->
  StronglySorted coord_lt (map fst (insert_entry c v l)).
Proof.
  induction l as [|[c' v'] l IH]; simpl; intros Hs.
  - repeat constructor.
  - inversion Hs as [|? ? Hsl Hall]; subst.
    destruct (coord_compare c c') eqn:E; simpl.
    + apply coord_compare_eq in E. subst c'. constructor; auto.
    + constructor; [constructor; auto|].
      constructor; auto.
      eapply Forall_impl; [exact Hall|].
      intros b Hb. eapply coord_lt_trans; eauto.
    + constructor; auto.
      apply insert_entry_above; auto.
      unfold coord_lt. rewrite coord_compare_antisym, E. reflexivity.
Qed.

Lemma fold_insert_sorted (l acc : list (list Z * V)) :
  StronglySorted coord_lt (map fst acc) ->
  StronglySorted coord_lt
    (map fst (fold_left (fun acc e => insert_entry (fst e) (snd e) acc) l acc)).
Proof.
  revert acc; induction l as [|e l IH]; intros acc Hacc; simpl; auto.
  apply IH. now apply insert_entry_sorted.
Qed.

Lemma coalesce_is_coalesced (t : SparseTensor V) : is_coalesced (coalesce t).
Proof.
  unfold is_coalesced, indices, coalesce, coalesce_entries; simpl.
  apply fold_insert_sorted. constructor.
Qed.

(** Strictly increasing indices are pairwise distinct. *)
Lemma is_coalesced_NoDup (t : SparseTensor V) :
  is_coalesced t -> NoDup (indices t).
Proof.
  unfold is_coalesced. generalize (indices t) as l.
  induction l as [|a l IH]; intros Hs; [constructor|].
  inversion Hs as [|? ? Hsl Hall]; subst.
  apply NoDup_cons_2; auto.
  intros Hin. rewrite list_elem_of_In in Hin.
  rewrite Forall_forall in Hall.
  apply (coord_lt_irrefl a). apply Hall. now rewrite list_elem_of_In.
Qed.

End CoalesceSorted.
(** ** The error monad and the transport *)

Lemma sequence_imap_Ok {A B : Type} (f : nat -> A -> Result B) (g : nat -> A -> B)
      (l : list A) :
  (forall i a, l !! i = Some a -> f i a = Ok (g i a)) ->
  sequence (imap f l) = Ok (imap g l).
Proof.
  revert f g; induction l as [|x l IH]; intros f g Hfg; simpl; [reflexivity|].
  rewrite (Hfg 0%nat x eq_refl). simpl.
  rewrite (IH (f ∘ S) (g ∘ S)); [reflexivity|].
  intros i a Hi. apply (Hfg (S i)). exact Hi.
Qed.

Lemma sequence_map_Ok {A B : Type} (f : A -> Result B) (g : A -> B) (l : list A) :
  (forall a, In a l -> f a = Ok (g a)) ->
  sequence (map f l) = Ok (map g l).
Proof.
  induction l as [|x l IH]; intros Hfg; simpl; [reflexivity|].
  rewrite (Hfg x) by (left; reflexivity). simpl.
  rewrite IH; [reflexivity|]. intros a Ha. apply Hfg. now right.
Qed.

Lemma nth_insert_repeat {A : Type} (i n : nat) (x e d : A) :
  (i < n)%nat -> nth i (<[i := x]> (repeat e n)) d = x.
Proof.
  intros Hi. rewrite nth_lookup, list_lookup_insert_eq; [reflexivity|].
  now rewrite repeat_length.
Qed.

(** After the allgather every rank holds, at slot [i], what rank [i]
    wrote into slot [i] of its own buffer. *)
Lemma gloo_allgather_own_slots {A T : Type} (d e : A) (n : nat)
      (row : nat -> T -> A) (l : list T) :
  (length l <= n)%nat ->
  gloo_allgather d (imap (fun i t => <[i := row i t]> (repeat e n)) l) = imap row l.
Proof.
  intros Hlen. unfold gloo_allgather. apply list_eq. intros i.
  rewrite !list_lookup_imap.
  destruct (l !! i) as [t|] eqn:Hi; simpl; [|reflexivity].
  f_equal. apply nth_insert_repeat.
  apply lookup_lt_Some in Hi. lia.
Qed.

Lemma narrow_prefix {A : Type} (src rest : list A) :
  narrow (src ++ rest) (Z.of_nat (length src)) = Ok src.
Proof.
  unfold narrow.
  replace (0 <=? Z.of_nat (length src)) with true by (symmetry; apply Z.leb_le; lia).
  replace (Z.of_nat (length src) <=? Z.of_nat (length (src ++ rest))) with true
    by (symmetry; apply Z.leb_le; rewrite length_app; lia).
  simpl. rewrite Nat2Z.id.
  now rewrite firstn_app, Nat.sub_diag, firstn_all, firstn_O, app_nil_r.
Qed.

Lemma narrow_copy_repeat {A : Type} (u : A) (n : nat) (src : list A) :
  (length src <= n)%nat ->
  narrow_copy_ (repeat u n) src = Ok (src ++ skipn (length src) (repeat u n)).
Proof.
  intros Hlen. unfold narrow_copy_, narrow.
  replace (0 <=? Z.of_nat (length src)) with true by (symmetry; apply Z.leb_le; lia).
  replace (Z.of_nat (length src) <=? Z.of_nat (length (repeat u n))) with true
    by (symmetry; apply Z.leb_le; rewrite repeat_length; lia).
  reflexivity.
Qed.

Lemma fold_max_ge_init {A : Type} (f : A -> Z) (l : list A) (m : Z) :
  m <= fold_left (fun m x => Z.max m (f x)) l m.
Proof.
  revert m; induction l as [|x l IH]; intros m; simpl; [lia|].
  specialize (IH (Z.max m (f x))). lia.
Qed.

Lemma fold_max_ge_elem {A : Type} (f : A -> Z) (l : list A) (m : Z) (x : A) :
  In x l -> f x <= fold_left (fun m x => Z.max m (f x)) l m.
Proof.
  revert m; induction l as [|y l IH]; intros m; simpl; [tauto|].
  intros [->|Hin]; [|now apply IH].
  pose proof (fold_max_ge_init f l (Z.max m (f x))). lia.
Qed.

Lemma max_nnz_bounds (metadata : list Meta.Data) (mx : Z) :
  max_nnz metadata = Ok mx ->
  forall m, In m metadata -> Meta.nnz m <= mx.
Proof.
  destruct metadata as [|m0 rest]; simpl; [discriminate|].
  intros [= <-] m [->|Hin].
  - apply fold_max_ge_init.
  - now apply fold_max_ge_elem.
Qed.

(** ** The metadata row of a tensor *)

Section MetadataRow.
Context {V : Type}.

Lemma populate_zeros (t : SparseTensor V) :
  (sparse_dim t <= 4)%nat -> (dense_dim t <= 4)%nat ->
  Meta.populate_from_sparse_tensor t Meta.zeros = Ok (meta_row t).
Proof.
  intros Hsd Hdd. unfold Meta.populate_from_sparse_tensor.
  apply Nat.leb_le in Hsd, Hdd. rewrite Hsd, Hdd. reflexivity.
Qed.

Lemma fold_insert_length (c : nat -> bool) (g : nat -> nat) (f : nat -> Z)
      (l : list nat) (d : Meta.Data) :
  length (fold_left (fun d i => if c i then <[g i := f i]> d else d) l d) = length d.
Proof.
  revert d; induction l as [|i l IH]; intros d; simpl; [reflexivity|].
  rewrite IH. destruct (c i); [apply length_insert|reflexivity].
Qed.

Lemma sizes_row_length (sd dd : nat) (sz : list Z) (d : Meta.Data) :
  length (sizes_row sd dd sz d) = length d.
Proof.
  unfold sizes_row.
  rewrite (fold_insert_length (fun i => (i <? dd)%nat) (fun i => (i + 4)%nat)
                              (fun i => nth (sd + i) sz 0)).
  apply (fold_insert_length (fun i => (i <? sd)%nat) (fun i => i)
                            (fun i => nth i sz 0)).
Qed.

Lemma meta_row_nnz (t : SparseTensor V) : Meta.nnz (meta_row t) = _nnz t.
Proof.
  unfold Meta.nnz, Meta.get, meta_row.
  rewrite nth_lookup, list_lookup_insert_eq; [reflexivity|].
  rewrite sizes_row_length. simpl. lia.
Qed.

Lemma sizes_loop_ext (d d' : Meta.Data) (i n : nat) :
  (forall j, (i <= j < i + n)%nat -> Meta.get d j = Meta.get d' j) ->
  Meta.sizes_loop d i n = Meta.sizes_loop d' i n.
Proof.
  revert i; induction n as [|n IH]; intros i Hext; simpl; [reflexivity|].
  rewrite (Hext i) by lia.
  destruct (Meta.get d' i <=? 0); [reflexivity|].
  f_equal. apply IH. intros j Hj. apply Hext. lia.
Qed.

Lemma meta_sizes_insert_nnz (d : Meta.Data) (a : Z) :
  Meta.sizes (<[8%nat := a]> d) = Meta.sizes d.
Proof.
  unfold Meta.sizes. f_equal; apply sizes_loop_ext; intros j Hj;
    unfold Meta.get; rewrite !nth_lookup, list_lookup_insert_ne by lia; reflexivity.
Qed.

Lemma meta_row_sizes (t t' : SparseTensor V) :
  sparse_dim t = sparse_dim t' -> dense_dim t = dense_dim t' -> sizes t = sizes t' ->
  Meta.sizes (meta_row t) = Meta.sizes (meta_row t').
Proof.
  intros Hsd Hdd Hsz. unfold meta_row.
  now rewrite !meta_sizes_insert_nnz, Hsd, Hdd, Hsz.
Qed.

End MetadataRow.
(** ** The gathers return what every rank holds *)

Lemma imap_const_map {A B : Type} (f : A -> B) (l : list A) :
  imap (fun _ => f) l = map f l.
Proof.
  induction l as [|x l IH]; simpl; [reflexivity|].
  f_equal. exact IH.
Qed.

Lemma imap_map {A B C : Type} (f : nat -> B -> C) (h : A -> B) (l : list A) :
  imap f (map h l) = imap (fun i x => f i (h x)) l.
Proof.
  revert f; induction l as [|x l IH]; intros f; simpl; [reflexivity|].
  f_equal. apply IH.
Qed.

Lemma combine_fst_snd {A B : Type} (l : list (A * B)) :
  combine (map fst l) (map snd l) = l.
Proof.
  induction l as [|[a b] l IH]; simpl; [reflexivity|]. now rewrite IH.
Qed.

Lemma combine_map_both {A B C : Type} (f : A -> B) (g : A -> C) (l : list A) :
  combine (map f l) (map g l) = map (fun a => (f a, g a)) l.
Proof.
  induction l as [|a l IH]; simpl; [reflexivity|]. now rewrite IH.
Qed.

Lemma Forall_exists_Forall2 {A B : Type} (R : A -> B -> Prop) (l : list A) :
  Forall (fun a => exists b, R a b) l -> exists l', Forall2 R l l'.
Proof.
  induction 1 as [|a l [b Hb] _ [l' IH]].
  - exists []. constructor.
  - exists (b :: l'). now constructor.
Qed.

Lemma sequence_Forall2 {A : Type} (rs : list (Result A)) (l : list A) :
  Forall2 (fun r a => r = Ok a) rs l -> sequence rs = Ok l.
Proof.
  induction 1 as [|r a rs l Hr _ IH]; simpl; [reflexivity|].
  subst r. simpl. now rewrite IH.
Qed.

Section Gathers.
Context {V : Type} `{ValueBlock V} `{Uninitialized V}.

Lemma allgather_metadata_rows (context : GlooContext) (L : list (SparseTensor V)) :
  length L = ctx_size context ->
  Forall (fun t => (sparse_dim t <= 4)%nat /\ (dense_dim t <= 4)%nat) L ->
  allgather_metadata context L = Ok (map meta_row L).
Proof.
  intros Hlen Hdims. unfold allgather_metadata.
  rewrite (sequence_imap_Ok _
             (fun i t => <[i := meta_row t]> (repeat Meta.zeros (ctx_size context)))).
  - simpl. f_equal.
    rewrite gloo_allgather_own_slots by lia. apply imap_const_map.
  - intros i t Hi. unfold metadata_buffer.
    rewrite nth_repeat.
    rewrite Forall_forall in Hdims.
    destruct (Hdims t) as [Hsd Hdd].
    { eapply list_elem_of_lookup_2; eauto. }
    now rewrite populate_zeros.
Qed.

Lemma check_sizes_same_shape (context : GlooContext) (L : list (SparseTensor V))
      ty sd dd sz :
  length L = ctx_size context ->
  (ctx_rank context < ctx_size context)%nat ->
  Forall (has_shape ty sd dd sz) L ->
  check_sizes context (map meta_row L) = Ok tt.
Proof.
  intros Hlen Hrank Hshape. unfold check_sizes.
  assert (Hsame : forall i j, (i < length L)%nat -> (j < length L)%nat ->
            Meta.sizes (nth i (map meta_row L) []) =
            Meta.sizes (nth j (map meta_row L) [])).
  { intros i j Hi Hj.
    assert (Hd : forall k d, (k < length L)%nat ->
              nth k (map meta_row L) [] = meta_row (nth k L d)).
    { intros k d Hk. rewrite <- (map_nth meta_row).
      apply nth_indep. now rewrite length_map. }
    destruct L as [|t0 L']; [simpl in Hi; lia|].
    rewrite (Hd i t0 Hi), (Hd j t0 Hj).
    rewrite Forall_forall in Hshape.
    destruct (Hshape (nth i (t0 :: L') t0)) as (_ & Hs1 & Hd1 & Hz1).
    { rewrite list_elem_of_In. now apply nth_In. }
    destruct (Hshape (nth j (t0 :: L') t0)) as (_ & Hs2 & Hd2 & Hz2).
    { rewrite list_elem_of_In. now apply nth_In. }
    apply meta_row_sizes; congruence. }
  replace (forallb _ _) with true; [reflexivity|].
  symmetry. apply forallb_forall. intros i Hi.
  apply in_seq in Hi. apply orb_true_iff. right.
  apply bool_decide_eq_true_2. apply Hsame; lia.
Qed.

(** The shared shape of [allgather_indices] and [allgather_values]:
    every rank writes its payload into its own row, padded to the
    longest; cutting row [i] back to [nnz] of rank [i] returns the
    payload of rank [i]. *)
Lemma gathered_rows {A : Type} (u : A) (payload : SparseTensor V -> list A)
      (n size : nat) (L : list (SparseTensor V)) :
  (forall t, length (payload t) = length (entries t)) ->
  (length L <= size)%nat ->
  sequence
    (imap (fun i m =>
             narrow (nth i (gloo_allgather []
                       (imap (fun i t =>
                                <[i := payload t ++ skipn (length (payload t)) (repeat u n)]>
                                  (repeat (repeat u n) size)) L)) [])
                    (Meta.nnz m))
          (map meta_row L))
  = Ok (map payload L).
Proof.
  intros Hpay Hlen.
  rewrite gloo_allgather_own_slots by exact Hlen.
  rewrite imap_map.
  rewrite (sequence_imap_Ok _ (fun _ t => payload t)).
  - now rewrite imap_const_map.
  - intros i t Hi.
    rewrite nth_lookup, list_lookup_imap, Hi. simpl.
    rewrite meta_row_nnz. unfold _nnz. rewrite <- Hpay.
    apply narrow_prefix.
Qed.

Lemma max_nnz_rows (L : list (SparseTensor V)) :
  L <> [] ->
  exists mx, max_nnz (map meta_row L) = Ok mx /\
             forall t, In t L -> (length (entries t) <= Z.to_nat mx)%nat.
Proof.
  intros Hne. destruct L as [|t0 L']; [contradiction|].
  eexists. split; [reflexivity|].
  intros t Ht.
  pose proof (max_nnz_bounds (map meta_row (t0 :: L')) _ eq_refl (meta_row t)
                             (in_map meta_row _ _ Ht)) as Hb.
  rewrite meta_row_nnz in Hb. unfold _nnz in Hb. lia.
Qed.

Lemma allgather_indices_rows (context : GlooContext) (L : list (SparseTensor V)) :
  length L = ctx_size context -> L <> [] ->
  allgather_indices context L (map meta_row L) = Ok (map indices L).
Proof.
  intros Hlen Hne. unfold allgather_indices.
  destruct (max_nnz_rows L Hne) as (mx & -> & Hmx). simpl.
  rewrite (sequence_imap_Ok _
    (fun i t => <[i := indices t ++ skipn (length (indices t))
                                          (repeat uninit_index (Z.to_nat mx))]>
                  (repeat (repeat uninit_index (Z.to_nat mx)) (ctx_size context)))).
  - simpl. apply gathered_rows; [|lia].
    intros t. unfold indices. apply length_map.
  - intros i t Hi. unfold indices_buffer.
    rewrite nth_repeat, narrow_copy_repeat; [reflexivity|].
    unfold indices. rewrite length_map. apply Hmx.
    rewrite <- list_elem_of_In. eapply list_elem_of_lookup_2; eauto.
Qed.

Lemma allgather_values_rows (context : GlooContext) (L : list (SparseTensor V))
      ty sd dd sz :
  length L = ctx_size context ->
  (ctx_rank context < ctx_size context)%nat ->
  Forall (has_shape ty sd dd sz) L ->
  supported_type ty ->
  allgather_values context L (map meta_row L) = Ok (map values L).
Proof.
  intros Hlen Hrank Hshape Hty. unfold allgather_values.
  assert (Hne : L <> []) by (intros ->; simpl in Hlen; lia).
  destruct (max_nnz_rows L Hne) as (mx & -> & Hmx). simpl.
  rewrite (sequence_imap_Ok _
    (fun i t => <[i := values t ++ skipn (length (values t))
                                         (repeat uninit_value (Z.to_nat mx))]>
                  (repeat (repeat uninit_value (Z.to_nat mx)) (ctx_size context)))).
  - simpl.
    destruct (lookup_lt_is_Some_2 L (ctx_rank context)) as [t Ht]; [lia|].
    rewrite Ht. simpl.
    rewrite Forall_forall in Hshape.
    destruct (Hshape t) as (Hty' & _).
    { eapply list_elem_of_lookup_2; eauto. }
    rewrite Hty'. unfold supported_type in Hty. rewrite Hty. simpl.
    apply gathered_rows; [|lia].
    intros t'. unfold values. apply length_map.
  - intros i t Hi. unfold values_buffer.
    rewrite nth_repeat, narrow_copy_repeat; [reflexivity|].
    unfold values. rewrite length_map. apply Hmx.
    rewrite <- list_elem_of_In. eapply list_elem_of_lookup_2; eauto.
Qed.

End Gathers.
(** ** Local and global reduction *)

Section Reductions.
Context {V : Type} `{ValueBlockLaws V} `{Uninitialized V}.

Lemma same_shape_has_shape (a b : SparseTensor V) ty sd dd sz :
  has_shape ty sd dd sz a -> has_shape ty sd dd sz b -> same_shape a b = true.
Proof.
  intros (Ha1 & Ha2 & Ha3 & Ha4) (Hb1 & Hb2 & Hb3 & Hb4).
  unfold same_shape. rewrite Ha1, Ha2, Ha3, Ha4, Hb1, Hb2, Hb3, Hb4.
  rewrite bool_decide_eq_true_2 by reflexivity.
  rewrite !Nat.eqb_refl. unfold ScalarType_eqb.
  destruct (ScalarType_eq_dec ty ty); [reflexivity|contradiction].
Qed.

Lemma add_has_shape (a b : SparseTensor V) ty sd dd sz :
  has_shape ty sd dd sz a -> has_shape ty sd dd sz b ->
  exists s, add_ a b = Ok s /\ has_shape ty sd dd sz s /\
            entries s = entries a ++ entries b.
Proof.
  intros Ha Hb. unfold add_.
  rewrite (same_shape_has_shape a b ty sd dd sz Ha Hb).
  eexists; split; [reflexivity|]. split; [|reflexivity].
  destruct Ha as (? & ? & ? & ?). repeat split; assumption.
Qed.

Lemma coalesce_has_shape (t : SparseTensor V) ty sd dd sz :
  has_shape ty sd dd sz t -> has_shape ty sd dd sz (coalesce t).
Proof. intros (? & ? & ? & ?). repeat split; assumption. Qed.

(** The in-place local sum: only [tensors[0]] is written, and it ends
    up holding the sum of the list. *)
Lemma local_reduction_sum (rest : list nat) (h : gmap nat (SparseTensor V))
      (t0 : nat) (a : SparseTensor V) ty sd dd sz :
  h !! t0 = Some a ->
  has_shape ty sd dd sz a ->
  ~ In t0 rest ->
  (forall t, In t rest -> exists x, h !! t = Some x /\ has_shape ty sd dd sz x) ->
  exists h' s,
    local_reduction h t0 rest = Ok h' /\
    h' !! t0 = Some s /\
    has_shape ty sd dd sz s /\
    (forall k, k <> t0 -> h' !! k = h !! k) /\
    forall c, value_at s c =
              vadd (value_at a c)
                   (sumV (fun t => match h !! t with
                                   | Some x => value_at x c
                                   | None => vzero
                                   end) rest).
Proof.
  revert h a; induction rest as [|t rest IH]; intros h a Ha Hsh Hnin Hrest; simpl.
  - exists h, a. split_and!; auto.
    intros c. now rewrite vadd_zero_r.
  - destruct (Hrest t) as (x & Hx & Hxs); [now left|].
    rewrite Ha, Hx.
    destruct (add_has_shape a x ty sd dd sz Hsh Hxs) as (s & -> & Hss & Hse).
    simpl.
    assert (Hne : t0 <> t) by (intros ->; apply Hnin; now left).
    destruct (IH (<[t0 := s]> h) s) as (h' & s' & Hred & Hs' & Hsh' & Hframe & Hval).
    + apply lookup_insert_eq.
    + exact Hss.
    + intros Hin. apply Hnin. now right.
    + intros t' Ht'. destruct (Hrest t') as (x' & Hx' & Hxs'); [now right|].
      exists x'. split; [|exact Hxs'].
      rewrite lookup_insert_ne; [exact Hx'|].
      intros ->. apply Hnin. now right.
    + exists h', s'. split_and!; auto.
      * intros k Hk. rewrite Hframe by exact Hk. now apply lookup_insert_ne.
      * intros c. rewrite Hval. unfold value_at at 1. rewrite Hse.
        rewrite value_at_entries_app. rewrite <- vadd_assoc. f_equal.
        fold (value_at x c). f_equal.
        apply sumV_ext. intros t' Ht'.
        rewrite lookup_insert_ne; [reflexivity|].
        intros ->. apply Hnin. now right.
Qed.

Lemma local_input_sum (p : Proc V) ty sd dd sz :
  valid_inputs ty sd dd sz p ->
  exists h input,
    local_input p = Ok (h, input) /\
    has_shape ty sd dd sz input /\
    is_coalesced input /\
    (forall k, Some k <> head (tensors p) -> h !! k = heap p !! k) /\
    (forall c, value_at input c = input_value p c) /\
    forall t0, head (tensors p) = Some t0 ->
      exists s, h !! t0 = Some s /\ forall c, value_at s c = input_value p c.
Proof.
  intros (Hne & Hnd & Hall). unfold local_input, input_value.
  destruct (tensors p) as [|t0 rest]; [contradiction|].
  destruct (Hall t0) as (a & Ha & Hty & Hsd & Hdd & Hsz); [now left|].
  apply NoDup_cons in Hnd as [Hnin _].
  destruct (local_reduction_sum rest (heap p) t0 a ty sd dd sz)
    as (h' & s & -> & Hs & Hsh & Hframe & Hval); auto.
  - repeat split; assumption.
  - now rewrite <- list_elem_of_In.
  - intros t Ht. destruct (Hall t) as (x & Hx & Hxs); [now right|].
    exists x. split; [exact Hx|]. exact Hxs.
  - simpl. rewrite Hs. exists h', (coalesce s). split_and!.
    + reflexivity.
    + now apply coalesce_has_shape.
    + apply coalesce_is_coalesced.
    + intros k Hk. apply Hframe. intros ->. now apply Hk.
    + intros c. rewrite value_at_coalesce, Hval. simpl. now rewrite Ha.
    + intros t0' [= <-]. exists s. split; [exact Hs|].
      intros c. rewrite Hval. simpl. now rewrite Ha.
Qed.

Lemma global_reduction_fold (input acc : SparseTensor V)
      (rest : list (SparseTensor V)) ty sd dd sz :
  has_shape ty sd dd sz input ->
  has_shape ty sd dd sz acc ->
  exists out,
    fold_left (fun acc iv =>
                 output ← acc;
                 add_ output
                   (sparse_coo_tensor (scalar_type input) (sparse_dim input)
                                      (dense_dim input) (fst iv) (snd iv) (sizes input)))
              (map (fun t => (indices t, values t)) rest) (Ok acc) = Ok out /\
    has_shape ty sd dd sz out /\
    entries out = entries acc ++ concat (map entries rest).
Proof.
  intros Hin. revert acc; induction rest as [|t rest IH]; intros acc Hacc; simpl.
  - exists acc. split_and!; auto. now rewrite app_nil_r.
  - set (b := sparse_coo_tensor _ _ _ _ _ _).
    assert (Hb : has_shape ty sd dd sz b).
    { destruct Hin as (? & ? & ? & ?). repeat split; assumption. }
    destruct (add_has_shape acc b ty sd dd sz Hacc Hb) as (s & Hs & Hss & Hse).
    rewrite Hs.
    destruct (IH s Hss) as (out & Hout & Hos & Hoe).
    exists out. split_and!; auto.
    rewrite Hoe, Hse. subst b. simpl.
    unfold indices, values. rewrite combine_fst_snd.
    now rewrite <- app_assoc.
Qed.

Lemma global_reduction_concat (input : SparseTensor V) (L : list (SparseTensor V))
      ty sd dd sz :
  has_shape ty sd dd sz input ->
  L <> [] ->
  exists out,
    global_reduction input (map indices L) (map values L) = Ok out /\
    has_shape ty sd dd sz out /\
    entries out = concat (map entries L).
Proof.
  intros Hin Hne. unfold global_reduction.
  rewrite combine_map_both.
  destruct L as [|t0 rest]; [contradiction|]. simpl.
  set (b := sparse_coo_tensor _ _ _ _ _ _).
  assert (Hb : has_shape ty sd dd sz b).
  { destruct Hin as (? & ? & ? & ?). repeat split; assumption. }
  destruct (global_reduction_fold input b rest ty sd dd sz Hin Hb)
    as (out & Hout & Hos & Hoe).
  exists out. split_and!; auto.
  rewrite Hoe. subst b. simpl. unfold indices, values.
  now rewrite combine_fst_snd.
Qed.

End Reductions.
(** ** Sparse allreduce computes the sum over all ranks *)

Lemma sequence_map_Forall2 {A B : Type} (f : A -> Result B) (l : list A) (l' : list B) :
  Forall2 (fun a b => f a = Ok b) l l' -> sequence (map f l) = Ok l'.
Proof.
  induction 1 as [|a b l l' Hab _ IH]; simpl; [reflexivity|].
  rewrite Hab. simpl. now rewrite IH.
Qed.

Section SparseAllreduceCorrect.
Context {V : Type} `{ValueBlockLaws V} `{Uninitialized V}.

Lemma locals_exist (world : list (Proc V)) ty sd dd sz :
  Forall (valid_inputs ty sd dd sz) world ->
  exists locals, Forall2 (local_ok ty sd dd sz) world locals.
Proof.
  intros Hvalid. apply Forall_exists_Forall2.
  eapply Forall_impl; [exact Hvalid|].
  intros p Hp.
  destruct (local_input_sum p ty sd dd sz Hp) as (h & input & H1').
  exists (h, input). exact H1'.
Qed.

Lemma locals_facts (world : list (Proc V)) locals ty sd dd sz :
  Forall2 (local_ok ty sd dd sz) world locals ->
  sequence (map local_input world) = Ok locals /\
  length (map snd locals) = length world /\
  Forall (has_shape ty sd dd sz) (map snd locals) /\
  forall c, sumV (fun t => value_at t c) (map snd locals) = world_value world c.
Proof.
  intros HF. split_and!.
  - apply sequence_map_Forall2.
    eapply Forall2_impl; [exact HF|]. intros p loc Hl. apply Hl.
  - rewrite length_map. symmetry. eapply Forall2_length; eauto.
  - induction HF as [|p loc world locals Hl _ IH]; simpl; constructor; auto.
    apply Hl.
  - intros c. unfold world_value.
    induction HF as [|p loc world locals Hl _ IH]; simpl; [reflexivity|].
    rewrite IH. f_equal. apply Hl.
Qed.

(** The statement shared by the results on [sparse_allreduce] and [sparse_run]. *)
Lemma allreduce_from_locals (context : GlooContext) (world : list (Proc V))
      locals ty sd dd sz :
  ctx_size context = length world ->
  (ctx_rank context < ctx_size context)%nat ->
  Forall2 (local_ok ty sd dd sz) world locals ->
  (sd <= 4)%nat -> (dd <= 4)%nat -> supported_type ty ->
  exists h input out,
    locals !! ctx_rank context = Some (h, input) /\
    sparse_allreduce context world = Ok (h, out) /\
    has_shape ty sd dd sz out /\
    is_coalesced out /\
    forall c, value_at out c = world_value world c.
Proof.
  intros Hsize Hrank HF Hsd Hdd Hty.
  destruct (locals_facts world locals ty sd dd sz HF) as (Hseq & Hlen & Hshape & Hsum).
  unfold sparse_allreduce. rewrite Hseq. simpl.
  assert (Hll : length locals = length world) by (now rewrite length_map in Hlen).
  destruct (lookup_lt_is_Some_2 locals (ctx_rank context)) as [[h input] Hloc]; [lia|].
  rewrite Hloc.
  set (L := map snd locals) in *.
  assert (HinL : input ∈ L).
  { subst L. rewrite list_elem_of_In. apply in_map_iff. exists (h, input).
    split; [reflexivity|]. rewrite <- list_elem_of_In.
    eapply list_elem_of_lookup_2; eauto. }
  assert (Hne : L <> []) by (intros E; rewrite E in HinL; inversion HinL).
  assert (Hin : has_shape ty sd dd sz input).
  { rewrite Forall_forall in Hshape. now apply Hshape. }
  rewrite allgather_metadata_rows; [|lia|].
  2:{ eapply Forall_impl; [exact Hshape|].
      intros t (_ & -> & -> & _). split; assumption. }
  simpl.
  rewrite (check_sizes_same_shape context L ty sd dd sz) by (auto; lia).
  simpl.
  rewrite allgather_indices_rows by (auto; lia). simpl.
  rewrite (allgather_values_rows context L ty sd dd sz) by (auto; lia). simpl.
  rewrite !length_map. fold L. rewrite Hlen, <- Hsize, Nat.eqb_refl. simpl.
  destruct (global_reduction_concat input L ty sd dd sz Hin Hne)
    as (out & -> & Hos & Hoe).
  simpl. exists h, input, (coalesce out).
  split; [reflexivity|]. split; [reflexivity|].
  split; [now apply coalesce_has_shape|].
  split; [apply coalesce_is_coalesced|].
  intros c. rewrite value_at_coalesce. unfold value_at at 1. rewrite Hoe.
  rewrite value_at_entries_concat. rewrite <- Hsum.
  clear. induction L as [|t L IH]; simpl; [reflexivity|]. now rewrite IH.
Qed.

(** C1 (as amended).  When every rank passes a non-empty list of
    distinct sparse tensors of one supported scalar type and one shape
    with at most four sparse and four dense dimensions, [sparse_allreduce]
    returns a tensor of that shape with unique, sorted indices whose
    value at every coordinate is the sum over all ranks of the values
    of the rank's inputs there. *)
Theorem sparse_allreduce_sum (context : GlooContext) (world : list (Proc V))
        (ty : ScalarType) (sd dd : nat) (sz : list Z) :
  ctx_size context = length world ->
  (ctx_rank context < ctx_size context)%nat ->
  Forall (valid_inputs ty sd dd sz) world ->
  (sd <= 4)%nat -> (dd <= 4)%nat -> supported_type ty ->
  exists h out,
    sparse_allreduce context world = Ok (h, out) /\
    scalar_type out = ty /\
    sparse_dim out = sd /\ dense_dim out = dd /\ sizes out = sz /\
    is_coalesced out /\
    forall c, value_at out c = world_value world c.
Proof.
  intros Hsize Hrank Hvalid Hsd Hdd Hty.
  destruct (locals_exist world ty sd dd sz Hvalid) as (locals & HF).
  destruct (allreduce_from_locals context world locals ty sd dd sz
              Hsize Hrank HF Hsd Hdd Hty)
    as (h & input & out & _ & Hrun & (H2' & H3' & H4' & H5') & Hco & Hval).
  exists h, out. split_and!; auto.
Qed.

End SparseAllreduceCorrect.
(** ** Concrete runs of the sparse sparse_allreduce *)

Lemma Z_ValueBlockLaws : ValueBlockLaws Z.
Proof. split; intros; simpl; lia. Defined.

Lemma ex_world_valid : Forall (valid_inputs Long 1 0 [4]) ex_world.
Proof.
  repeat constructor; simpl; try discriminate;
    try (rewrite list_elem_of_In; simpl; intuition discriminate).
  - intros t [<-|[<-|[]]]; eexists; (split; [vm_compute; reflexivity|]);
      repeat split.
  - intros t [<-|[]]; eexists; (split; [vm_compute; reflexivity|]); repeat split.
Qed.

(** C1, counterexample: a tensor with five sparse dimensions, the same
    on every rank, makes [sparse_allreduce] throw on the metadata assertion. *)
Lemma sparse_allreduce_five_sparse_dims :
  Forall (valid_inputs Long 5 0 [2; 2; 2; 2; 2]) ex_world5 /\
  supported_type Long /\
  sparse_allreduce (mkContext 0 1) ex_world5 = Throw (RuntimeError "sparse_dim <= 4").
Proof.
  split; [|split; [reflexivity|vm_compute; reflexivity]].
  repeat constructor; simpl; try discriminate;
    try (rewrite list_elem_of_In; simpl; intuition discriminate).
  intros t [<-|[]]; eexists; (split; [vm_compute; reflexivity|]); repeat split.
Qed.

Lemma sparse_allreduce_sum_witness :
  exists h out,
    sparse_allreduce (mkContext 0 2) ex_world = Ok (h, out) /\
    scalar_type out = Long /\
    sparse_dim out = 1%nat /\ dense_dim out = 0%nat /\ sizes out = [4] /\
    is_coalesced out /\
    forall c, value_at out c = world_value ex_world c.
Proof.
  apply (@sparse_allreduce_sum Z Z_ValueBlock Z_ValueBlockLaws Z_Uninitialized
           (mkContext 0 2) ex_world Long 1 0 [4]).
  - reflexivity.
  - simpl; lia.
  - exact ex_world_valid.
  - lia.
  - lia.
  - reflexivity.
Defined.

(** ** The work item leaves its result in [outputs] *)

Section SparseRun.
Context {V : Type} `{ValueBlockLaws V} `{Uninitialized V}.

Lemma push_clones_spec (n : nat) :
  forall (h : gmap nat (SparseTensor V)) (outs : list nat) (out : SparseTensor V),
  exists h2 new,
    push_clones h outs out n = (h2, outs ++ new) /\
    length new = n /\
    NoDup new /\
    (forall o, In o new -> h !! o = None /\ h2 !! o = Some out) /\
    forall k, is_Some (h !! k) -> h2 !! k = h !! k.
Proof.
  induction n as [|n IH]; intros h outs out; simpl.
  - exists h, []. rewrite app_nil_r. split_and!; auto.
    + constructor.
    + intros o [].
  - set (o := fresh (dom h)).
    assert (Ho : h !! o = None).
    { apply not_elem_of_dom. apply is_fresh. }
    destruct (IH (<[o := out]> h) (outs ++ [o]) out)
      as (h2 & new & Hrun & Hlen & Hnd & Hnew & Hframe).
    exists h2, (o :: new). split_and!.
    + rewrite Hrun. now rewrite <- app_assoc.
    + simpl. now rewrite Hlen.
    + apply NoDup_cons_2; [|exact Hnd].
      intros Hin. rewrite list_elem_of_In in Hin.
      destruct (Hnew o Hin) as [Hnone _].
      rewrite lookup_insert_eq in Hnone. discriminate.
    + intros o' [<-|Hin].
      * split; [exact Ho|].
        rewrite Hframe; [apply lookup_insert_eq|].
        rewrite lookup_insert_eq. eauto.
      * destruct (Hnew o' Hin) as [Hnone Hsome]. split; [|exact Hsome].
        apply lookup_insert_None in Hnone. apply Hnone.
    + intros k Hk.
      assert (Hne : o <> k) by (intros ->; rewrite Ho in Hk; destruct Hk; discriminate).
      rewrite Hframe.
      * now apply lookup_insert_ne.
      * now rewrite lookup_insert_ne.
Qed.

(** What [sparse_run] does as written: the result goes to [outputs],
    one new tensor per input, each holding the reduced result and
    sharing storage with nothing that existed before.  Nothing is
    written to the input tensors after the reduction: all but the first
    keep their contents, and the first is left with the local sum of
    the in-place reduction. *)
Lemma sparse_run_result (h : gmap nat (SparseTensor V))
        (work : AsyncSparseAllreduceWork) (peers : list (Proc V))
        (ty : ScalarType) (sd dd : nat) (sz : list Z) :
  ctx_size (sw_context work) = length peers ->
  (ctx_rank (sw_context work) < ctx_size (sw_context work))%nat ->
  Forall (valid_inputs ty sd dd sz) (run_world h work peers) ->
  (sd <= 4)%nat -> (dd <= 4)%nat -> supported_type ty ->
  exists h2 outs out,
    sparse_run h work peers
    = Ok (h2, mkSparseWork (sw_context work) (sw_inputs work)
                           (sw_outputs work ++ outs) (sw_tag work)) /\
    length outs = length (sw_inputs work) /\
    NoDup outs /\
    (forall o, In o outs -> h !! o = None /\ h2 !! o = Some out) /\
    is_coalesced out /\
    (forall c, value_at out c = world_value (run_world h work peers) c) /\
    (forall t, In t (sw_inputs work) -> Some t <> head (sw_inputs work) ->
               h2 !! t = h !! t) /\
    (forall t0, head (sw_inputs work) = Some t0 ->
                exists s, h2 !! t0 = Some s /\
                          forall c, value_at s c
                                    = input_value (mkProc h (sw_inputs work)) c).
Proof.
  intros Hsize Hrank Hvalid Hsd Hdd Hty.
  set (world := run_world h work peers) in *.
  assert (Hwlen : length world = length peers)
    by (unfold world, run_world; apply length_insert).
  assert (Hself : world !! ctx_rank (sw_context work)
                  = Some (mkProc h (sw_inputs work))).
  { unfold world, run_world. apply list_lookup_insert_eq. lia. }
  destruct (locals_exist world ty sd dd sz Hvalid) as (locals & HF).
  destruct (allreduce_from_locals (sw_context work) world locals ty sd dd sz)
    as (h1 & input & out & Hloc & Hrun & Hshape & Hco & Hval); auto; [lia|].
  pose proof (Forall2_lookup_lr _ _ _ _ _ _ HF Hself Hloc)
    as (_ & _ & _ & Hframe1 & _ & Hhead).
  simpl in Hframe1, Hhead.
  assert (Hmine : valid_inputs ty sd dd sz (mkProc h (sw_inputs work))).
  { rewrite Forall_forall in Hvalid. apply Hvalid.
    eapply list_elem_of_lookup_2; eauto. }
  destruct Hmine as (Hne & Hnd & Hall). simpl in Hne, Hnd, Hall.
  destruct (sw_inputs work) as [|t0 rest] eqn:Hinputs; [contradiction|].
  destruct (Hhead t0 eq_refl) as (s & Hs & Hsval).
  destruct (push_clones_spec (length (t0 :: rest)) h1 (sw_outputs work) out)
    as (h2 & outs & Hpush & Hlen & Hndo & Hnew & Hframe2).
  exists h2, outs, out. split_and!; auto.
  - unfold sparse_run. fold world. rewrite Hrun. simpl. rewrite Hinputs.
    simpl in Hpush. simpl. rewrite Hpush. reflexivity.
  - intros o Ho. destruct (Hnew o Ho) as [Hnone Hsome]. split; [|exact Hsome].
    destruct (decide (o = t0)) as [->|Hne0].
    + rewrite Hs in Hnone. discriminate.
    + rewrite <- Hframe1; [exact Hnone|]. simpl. congruence.
  - intros t Ht Hnh.
    destruct (Hall t Ht) as (x & Hx & _).
    rewrite Hframe2.
    + apply Hframe1. exact Hnh.
    + rewrite Hframe1 by exact Hnh. rewrite Hx. eauto.
  - intros t0' [= <-]. exists s. split; [|exact Hsval].
    rewrite Hframe2; [exact Hs|]. rewrite Hs. eauto.
Qed.

End SparseRun.

(** C2, the failing run.  [run] stands under the comment "Copy back to
    input tensors", and the dense work item copies its result into
    every input; the sparse one does not.  In the two-rank run, rank 0
    passing two tensors, both inputs hold something else than the
    result afterwards; the result sits only in the two new tensors
    listed by [result]. *)
Theorem sparse_run_inputs_not_overwritten :
  exists h2 w2,
    sparse_run ex_heap0 ex_work ex_world = Ok (h2, w2) /\
    sparse_result w2 = [2%nat; 3%nat] /\
    (forall o, In o (sparse_result w2) -> h2 !! o = Some ex_result) /\
    forall t, In t (sw_inputs ex_work) -> h2 !! t <> Some ex_result.
Proof.
  eexists. eexists. split; [vm_compute; reflexivity|].
  split; [reflexivity|]. split.
  - intros o [<-|[<-|[]]]; vm_compute; reflexivity.
  - intros t [<-|[<-|[]]]; vm_compute; discriminate.
Qed.

(** [sparse_run_result] on the two-rank run. *)
Lemma sparse_run_result_witness :
  exists h2 outs out,
    sparse_run ex_heap0 ex_work ex_world
    = Ok (h2, mkSparseWork (mkContext 0 2) [0%nat; 1%nat] ([] ++ outs) 0) /\
    length outs = 2%nat /\
    NoDup outs /\
    (forall o, In o outs -> ex_heap0 !! o = None /\ h2 !! o = Some out) /\
    is_coalesced out /\
    (forall c, value_at out c = world_value (run_world ex_heap0 ex_work ex_world) c) /\
    (forall t, In t [0%nat; 1%nat] -> Some t <> Some 0%nat -> h2 !! t = ex_heap0 !! t) /\
    (forall t0, Some 0%nat = Some t0 ->
                exists s, h2 !! t0 = Some s /\
                          forall c, value_at s c
                                    = input_value (mkProc ex_heap0 [0%nat; 1%nat]) c).
Proof.
  apply (@sparse_run_result Z Z_ValueBlock Z_ValueBlockLaws Z_Uninitialized
           ex_heap0 ex_work ex_world Long 1 0 [4]).
  - reflexivity.
  - simpl; lia.
  - exact ex_world_valid.
  - lia.
  - lia.
  - reflexivity.
Defined.
(** ** Dense allreduce: every input ends up equal to the first *)

Section DenseAllreduceCorrect.
Context {E : Type} `{GlooTransport E}.

Lemma set_data_same (x x0 : DenseTensor E) :
  d_type x = d_type x0 -> d_sizes x = d_sizes x0 ->
  set_data (d_data x0) x = x0.
Proof. destruct x, x0; simpl; intros -> ->; reflexivity. Qed.

(** The transport changes contents, never types or shapes. *)
Lemma write_outputs_shape (tds : list (nat * list E)) :
  forall (h : gmap nat (DenseTensor E)) (k : nat) (x : DenseTensor E),
    h !! k = Some x ->
    exists x',
      fold_left (fun h td => alter (set_data (snd td)) (fst td) h) tds h !! k = Some x' /\
      d_type x' = d_type x /\ d_sizes x' = d_sizes x.
Proof.
  induction tds as [|[t d] tds IH]; intros h k x Hk; simpl.
  - exists x. auto.
  - destruct (decide (t = k)) as [->|Hne].
    + destruct (IH (alter (set_data d) k h) k (set_data d x)) as (x' & Hx' & Ht & Hs).
      { rewrite lookup_alter_eq, Hk. reflexivity. }
      exists x'. auto.
    + apply IH. rewrite lookup_alter_ne by exact Hne. exact Hk.
Qed.

Lemma copy_first_all (first : nat) (x0 : DenseTensor E) (rest : list nat) :
  forall (h : gmap nat (DenseTensor E)) (done : list nat),
    h !! first = Some x0 ->
    (forall t, In t done -> h !! t = Some x0) ->
    (forall t, In t rest ->
       exists x, h !! t = Some x /\ d_type x = d_type x0 /\ d_sizes x = d_sizes x0) ->
    exists h',
      copy_first h first rest = Ok h' /\
      h' !! first = Some x0 /\
      forall t, In t (done ++ rest) -> h' !! t = Some x0.
Proof.
  induction rest as [|t rest IH]; intros h done Hfirst Hdone Hrest; simpl.
  - exists h. rewrite app_nil_r. auto.
  - destruct (Hrest t) as (x & Hx & Hty & Hsz); [now left|].
    unfold copy_, lookup_tensor. rewrite Hfirst, Hx. simpl.
    rewrite bool_decide_eq_true_2 by exact Hsz. simpl.
    rewrite (set_data_same x x0 Hty Hsz).
    assert (Hins : forall k y, h !! k = Some y ->
              (k = t /\ <[t := x0]> h !! k = Some x0) \/
              (k <> t /\ <[t := x0]> h !! k = Some y)).
    { intros k y Hk. destruct (decide (k = t)) as [->|Hne].
      - left. split; [reflexivity|apply lookup_insert_eq].
      - right. split; [exact Hne|]. rewrite lookup_insert_ne by congruence. exact Hk. }
    destruct (IH (<[t := x0]> h) (done ++ [t])) as (h' & Hrun & Hf' & Hall).
    + destruct (Hins first x0 Hfirst) as [[_ Hr]|[_ Hr]]; exact Hr.
    + intros t' Ht'. apply in_app_or in Ht' as [Ht'|[<-|[]]].
      * destruct (Hins t' x0 (Hdone t' Ht')) as [[_ Hr]|[_ Hr]]; exact Hr.
      * apply lookup_insert_eq.
    + intros t' Ht'. destruct (Hrest t') as (x' & Hx' & Hty' & Hsz'); [now right|].
      destruct (Hins t' x' Hx') as [[_ Hr]|[_ Hr]]; eauto.
    + exists h'. split_and!; auto.
      intros t' Ht'. apply Hall. rewrite <- app_assoc. exact Ht'.
Qed.

Lemma dense_allreduce_runs (work : AsyncAllreduceWork)
      (h : gmap nat (DenseTensor E)) (tensors : list nat) ty sz :
  tensors <> [] ->
  dense_inputs_match h tensors ty sz ->
  supported_type ty ->
  aw_reduceOp work <> UNUSED ->
  transport_succeeds work ->
  exists h1,
    dense_allreduce work h tensors = Ok h1 /\
    dense_inputs_match h1 tensors ty sz.
Proof.
  intros Hne Hmatch Hty Hop Htr. unfold dense_allreduce.
  destruct tensors as [|t0 rest]; [contradiction|].
  destruct (Hmatch t0) as (x0 & Hx0 & Hty0 & Hsz0); [now left|].
  lazy beta iota.
  remember (t0 :: rest) as ts eqn:Hts.
  assert (Hfn : exists fn, getFunction ty (aw_reduceOp work) = Ok fn).
  { unfold getFunction, toFunction. unfold supported_type in Hty.
    destruct ty; try discriminate Hty; simpl;
      destruct (aw_reduceOp work); try contradiction; eauto. }
  destruct Hfn as (fn & Hfn).
  assert (Hseq : sequence (map (fun t => x ← lookup_tensor h t; Ok (d_data x)) ts)
                 = Ok (map (fun t => match h !! t with
                                     | Some x => d_data x
                                     | None => []
                                     end) ts)).
  { apply sequence_map_Ok. intros t Ht.
    destruct (Hmatch t Ht) as (x & Hx & _).
    unfold lookup_tensor. now rewrite Hx. }
  destruct (Htr fn (map (fun t => match h !! t with
                                  | Some x => d_data x
                                  | None => []
                                  end) ts)) as (new & Hnew).
  assert (Hl : lookup_tensor h t0 = Ok x0)
    by (unfold lookup_tensor; now rewrite Hx0).
  rewrite Hl. simpl. rewrite Hty0, Hfn. simpl.
  unfold supported_type in Hty. rewrite Hty. simpl.
  rewrite Hseq. simpl. rewrite Hnew. simpl.
  eexists. split; [reflexivity|].
  intros t Ht. destruct (Hmatch t Ht) as (x & Hx & Htx & Hsx).
  destruct (write_outputs_shape (combine ts new) h t x Hx)
    as (x' & Hx' & Ht' & Hs').
  exists x'. split; [exact Hx'|]. split; congruence.
Qed.

(** C7.  For a dense allreduce on a list of [n >= 1] tensors of one
    type and shape, [run] performs the transport allreduce and then
    leaves in every input what the first input held after the
    transport call. *)
Theorem dense_allreduce_all_equal (work : AsyncAllreduceWork)
        (h : gmap nat (DenseTensor E)) (ty : ScalarType) (sz : list Z) :
  aw_inputs work <> [] ->
  dense_inputs_match h (aw_inputs work) ty sz ->
  supported_type ty ->
  aw_reduceOp work <> UNUSED ->
  transport_succeeds work ->
  exists h1 h' x0,
    dense_allreduce work h (aw_inputs work) = Ok h1 /\
    head (aw_inputs work) ≫= (fun t0 => h1 !! t0) = Some x0 /\
    dense_run work h = Ok h' /\
    forall t, In t (aw_inputs work) -> h' !! t = Some x0.
Proof.
  intros Hne Hmatch Hty Hop Htr.
  destruct (dense_allreduce_runs work h (aw_inputs work) ty sz Hne Hmatch Hty Hop Htr)
    as (h1 & Hrun & Hmatch1).
  unfold dense_run. rewrite Hrun. simpl.
  destruct (aw_inputs work) as [|t0 rest]; [contradiction|].
  destruct (Hmatch1 t0) as (x0 & Hx0 & Hty0 & Hsz0); [now left|].
  destruct (copy_first_all t0 x0 rest h1 [t0]) as (h' & Hcopy & _ & Hall).
  - exact Hx0.
  - intros t [<-|[]]. exact Hx0.
  - intros t Ht. destruct (Hmatch1 t) as (x & Hx & Htx & Hsx); [now right|].
    exists x. split; [exact Hx|]. split; congruence.
  - exists h1, h', x0. split_and!; auto.
Qed.

End DenseAllreduceCorrect.

Lemma dense_allreduce_all_equal_witness :
  exists h1 h' x0,
    dense_allreduce ex_dense_work ex_dense_heap (aw_inputs ex_dense_work) = Ok h1 /\
    head (aw_inputs ex_dense_work) ≫= (fun t0 => h1 !! t0) = Some x0 /\
    dense_run ex_dense_work ex_dense_heap = Ok h' /\
    forall t, In t (aw_inputs ex_dense_work) -> h' !! t = Some x0.
Proof.
  apply (@dense_allreduce_all_equal Z Loopback_Transport ex_dense_work ex_dense_heap
           Int [3]).
  - simpl. discriminate.
  - intros t [<-|[<-|[]]]; eexists; (split; [vm_compute; reflexivity|]);
      split; reflexivity.
  - reflexivity.
  - simpl. discriminate.
  - intros fn bufs. exists bufs. reflexivity.
Defined.
(** ** Validation and the tag counter *)

Module DispatchFacts.
Import Dispatch DispatchSpec.

Lemma read_only_ret {A} (a : A) : read_only (ret a).
Proof. intros pg. reflexivity. Qed.

Lemma read_only_throw {A} (e : exn) : read_only (@throw A e).
Proof. intros pg. reflexivity. Qed.

Lemma read_only_gets {A} (f : ProcessGroupGloo -> A) : read_only (gets f).
Proof. intros pg. reflexivity. Qed.

Lemma read_only_invalidArgument {A} (w msg : string) :
  read_only (@invalidArgument A w msg).
Proof. intros pg. reflexivity. Qed.

Lemma read_only_bind {A B} (m : M A) (k : A -> M B) :
  read_only m -> (forall a, read_only (k a)) -> read_only (m ≫= k).
Proof.
  intros Hm Hk pg. unfold mbind, M_bind.
  specialize (Hm pg). destruct (m pg) as [[a|e] pg1]; simpl in Hm; subst.
  - apply Hk.
  - reflexivity.
Qed.

Lemma read_only_when (b : bool) (m : M unit) : read_only m -> read_only (when b m).
Proof. intros Hm. destruct b; simpl; [exact Hm|apply read_only_ret]. Qed.

Lemma read_only_for_each {A} (f : A -> M unit) (l : list A) :
  (forall a, read_only (f a)) -> read_only (for_each f l).
Proof.
  intros Hf. induction l as [|a l IH]; simpl.
  - apply read_only_ret.
  - apply read_only_bind; auto.
Qed.

Lemma read_only_for_each_from {A} (f : nat -> A -> M unit) (l : list A) :
  (forall i a, read_only (f i a)) -> forall i, read_only (for_each_from i f l).
Proof.
  intros Hf. induction l as [|a l IH]; intros i; simpl.
  - apply read_only_ret.
  - apply read_only_bind; auto.
Qed.

Lemma read_only_front {A} (l : list A) : read_only (front l).
Proof. destruct l; [apply read_only_throw|apply read_only_ret]. Qed.

Lemma read_only_check_device (fn : string -> M unit) (d : DeviceType) :
  (forall msg, read_only (fn msg)) -> read_only (check_device fn d).
Proof.
  intros Hfn pg. unfold check_device.
  destruct d; try destruct (USE_CUDA pg); try reflexivity; apply Hfn.
Qed.

Ltac read_only_tac :=
  repeat first
    [ progress intros
    | apply read_only_bind
    | apply read_only_when
    | apply read_only_for_each
    | apply read_only_for_each_from
    | apply read_only_check_device
    | apply read_only_ret
    | apply read_only_throw
    | apply read_only_gets
    | apply read_only_invalidArgument
    | apply read_only_front
    | match goal with
      | |- read_only (if ?b then _ else _) => destruct b
      | |- read_only (match ?x with _ => _ end) => destruct x
      end ].

Lemma read_only_validators (fn : string -> M unit) :
  (forall msg, read_only (fn msg)) ->
  (forall r s, read_only (assertRootRank fn r s)) /\
  (forall r s, read_only (assertRootTensor fn r s)) /\
  (forall l, read_only (assertNonEmpty fn l)) /\
  (forall l, read_only (assertSingleElement fn l)) /\
  (forall l, read_only (assertSingleElementInput fn l)) /\
  (forall l, read_only (assertSingleElementOutput fn l)) /\
  (forall l, read_only (assertDense fn l)) /\
  (forall l, read_only (assertLayoutMatch fn l)) /\
  (forall l t s, read_only (assertTypeAndSizesMatch_with fn l t s)) /\
  (forall l, read_only (assertTypeAndSizesMatch fn l)).
Proof.
  intros Hfn.
  assert (Hw : forall l t s, read_only (assertTypeAndSizesMatch_with fn l t s)).
  { intros l t s. unfold assertTypeAndSizesMatch_with. read_only_tac; apply Hfn. }
  split_and!; try exact Hw; intros;
    unfold assertRootRank, assertRootTensor, assertNonEmpty, assertSingleElement,
      assertSingleElementInput, assertSingleElementOutput, assertDense,
      assertLayoutMatch, assertTypeAndSizesMatch;
    read_only_tac; try apply Hfn; apply Hw.
Qed.

(** Stepping over a check: it throws and nothing has changed, or it
    returns and the rest runs from the same state. *)
Lemma bind_read_only {A B} (m : M A) (k : A -> M B) (pg : ProcessGroupGloo)
      (P : Result B * ProcessGroupGloo -> Prop) :
  read_only m ->
  (forall e, m pg = (Throw e, pg) -> P (Throw e, pg)) ->
  (forall a, m pg = (Ok a, pg) -> P (k a pg)) ->
  P ((m ≫= k) pg).
Proof.
  intros Hm He Ha. unfold mbind, M_bind.
  specialize (Hm pg). destruct (m pg) as [[a|e] pg1] eqn:E; simpl in Hm; subst pg1.
  - now apply Ha.
  - now apply He.
Qed.

Lemma check_device_Ok (fn : string -> M unit) (d : DeviceType) pg :
  (forall msg, exists e, fn msg pg = (Throw e, pg)) ->
  check_device fn d pg = (Ok tt, pg) ->
  d = kCPU \/ (d = kCUDA /\ USE_CUDA pg = true).
Proof.
  intros Hfn. unfold check_device.
  destruct d; auto.
  - destruct (USE_CUDA pg); auto.
    destruct (Hfn "unsupported device type") as (e & ->). discriminate.
  - destruct (Hfn "unsupported device type") as (e & ->). discriminate.
Qed.

Lemma invalidArgument_throws (w msg : string) pg :
  exists e, @invalidArgument unit w msg pg = (Throw e, pg).
Proof. eexists. reflexivity. Qed.

(** Walks through the checks of an entry point. *)
Ltac checks fn :=
  let Hv := fresh "Hv" in
  pose proof (read_only_validators fn (read_only_invalidArgument _)) as Hv;
  repeat (apply bind_read_only;
          [ first [ solve [apply Hv] | solve [read_only_tac; try apply Hv] ]
          | intros ? _; reflexivity
          | intros ? ? ]).

(** The last lines of an entry point, once the device check passed. *)
Ltac submit Hdev :=
  repeat match goal with a : unit |- _ => destruct a end;
  match type of Hdev with
  | check_device _ ?d ?pg = _ =>
      apply check_device_Ok in Hdev; [|intros; apply invalidArgument_throws];
      unfold mbind, M_bind, nextTag, getContext, gets, by_device, enqueue, ret, throw;
      destruct Hdev as [Hdev|[Hdev Hcuda]]; rewrite Hdev; simpl;
      rewrite ?Hcuda; simpl; try (split; reflexivity)
  end.

Lemma broadcast_validated inputs rootRank rootTensor pg :
  validated pg (broadcast inputs rootRank rootTensor pg).
Proof.
  unfold broadcast. cbv zeta.
  checks (@invalidArgument unit "ProcessGroupGloo::broadcast: ").
  match goal with H : check_device _ _ _ = _ |- _ => submit H end.
Qed.

Lemma reduce_validated inputs rootRank rootTensor reduceOp pg :
  validated pg (reduce inputs rootRank rootTensor reduceOp pg).
Proof.
  unfold reduce. cbv zeta.
  checks (@invalidArgument unit "ProcessGroupGloo::reduce: ").
  match goal with H : check_device _ _ _ = _ |- _ => submit H end.
Qed.

(** The nested [initializeStreamsEvents] returns or throws a runtime
    error; it leaves the group alone. *)
Lemma initializeStreamsEvents_nested_outcome (tensors : list (list Tensor)) pg :
  initializeStreamsEvents_nested tensors pg = (Ok tt, pg) \/
  exists msg, initializeStreamsEvents_nested tensors pg = (Throw (RuntimeError msg), pg).
Proof.
  assert (Hstep : forall (A : Type) (f : A -> M unit) (l : list A),
             (forall a, f a pg = (Ok tt, pg) \/
                        exists msg, f a pg = (Throw (RuntimeError msg), pg)) ->
             for_each f l pg = (Ok tt, pg) \/
             exists msg, for_each f l pg = (Throw (RuntimeError msg), pg)).
  { intros A f l Hf. induction l as [|a l IH]; [left; reflexivity|].
    cbn [for_each]. unfold mbind, M_bind.
    destruct (Hf a) as [->|(msg & ->)]; [exact IH|right; eauto]. }
  unfold initializeStreamsEvents_nested. apply Hstep. intros inner.
  destruct inner as [|t0 rest].
  - right. eexists. reflexivity.
  - unfold mbind, M_bind. cbn [front tail ret]. apply Hstep. intros t.
    destruct (negb (device_index t =? device_index t0)); simpl.
    + right. eexists. reflexivity.
    + left. reflexivity.
Qed.

(** What the nested [initializeStreamsEvents] throws: the error of its
    check, unless an inner list is empty and has no first tensor. *)
Lemma initializeStreamsEvents_nested_throws (tensors : list (list Tensor)) pg e pg' :
  initializeStreamsEvents_nested tensors pg = (Throw e, pg') ->
  e = RuntimeError "tensors in the nested tensor vectors need to be on the same device" \/
  In [] tensors.
Proof.
  unfold initializeStreamsEvents_nested.
  induction tensors as [|inner tensors IH]; [discriminate|].
  cbn [for_each]. unfold mbind at 1, M_bind at 1.
  destruct inner as [|t0 rest]; [intros _; right; now left|].
  unfold mbind at 1, M_bind at 1. cbn [front tail ret].
  match goal with
  | |- context [for_each ?f rest pg] =>
      assert (Hinner : for_each f rest pg = (Ok tt, pg) \/
                       for_each f rest pg
                       = (Throw (RuntimeError
                            "tensors in the nested tensor vectors need to be on the same device"),
                          pg))
  end.
  { clear IH. induction rest as [|t rest IHr]; [left; reflexivity|].
    cbn [for_each]. unfold mbind, M_bind.
    destruct (negb (device_index t =? device_index t0)); simpl.
    - right. reflexivity.
    - exact IHr. }
  destruct Hinner as [->| ->].
  - intros Hrun. destruct (IH Hrun) as [He|Hin]; [now left|right; now right].
  - intros [= <- _]. now left.
Qed.

Lemma make_AsyncAllgatherWork_outcome cuda context outputs inputs tag pg :
  make_AsyncAllgatherWork cuda context outputs inputs tag pg
  = (Ok (AsyncAllgatherWork cuda context outputs inputs tag), pg) \/
  (cuda = true /\
   exists e, initializeStreamsEvents_nested outputs pg = (Throw e, pg) /\
             make_AsyncAllgatherWork cuda context outputs inputs tag pg = (Throw e, pg) /\
             exists msg, e = RuntimeError msg).
Proof.
  unfold make_AsyncAllgatherWork, mbind, M_bind.
  destruct cuda; [|left; reflexivity]. cbn [when].
  destruct (initializeStreamsEvents_nested_outcome outputs pg) as [->|(msg & ->)];
    [left; reflexivity|right; eauto 10].
Qed.

Lemma make_AsyncGatherWork_outcome cuda context outputs inputs root tag pg :
  make_AsyncGatherWork cuda context outputs inputs root tag pg
  = (Ok (AsyncGatherWork cuda context outputs inputs root tag), pg) \/
  (cuda = true /\
   exists e, initializeStreamsEvents_nested outputs pg = (Throw e, pg) /\
             make_AsyncGatherWork cuda context outputs inputs root tag pg = (Throw e, pg) /\
             exists msg, e = RuntimeError msg).
Proof.
  unfold make_AsyncGatherWork, mbind, M_bind.
  destruct cuda; [|left; reflexivity]. cbn [when].
  destruct (initializeStreamsEvents_nested_outcome outputs pg) as [->|(msg & ->)];
    [left; reflexivity|right; eauto 10].
Qed.

Lemma make_AsyncScatterWork_outcome cuda context outputs inputs root tag pg :
  make_AsyncScatterWork cuda context outputs inputs root tag pg
  = (Ok (AsyncScatterWork cuda context outputs inputs root tag), pg) \/
  (cuda = true /\
   exists e, initializeStreamsEvents_nested inputs pg = (Throw e, pg) /\
             make_AsyncScatterWork cuda context outputs inputs root tag pg = (Throw e, pg) /\
             exists msg, e = RuntimeError msg).
Proof.
  unfold make_AsyncScatterWork, mbind, M_bind.
  destruct cuda; [|left; reflexivity]. cbn [when].
  destruct (initializeStreamsEvents_nested_outcome inputs pg) as [->|(msg & ->)];
    [left; reflexivity|right; eauto 10].
Qed.

(** Walks through the checks of an entry point whose constructor can
    fail. *)
Ltac checks_built fn :=
  let Hv := fresh "Hv" in
  pose proof (read_only_validators fn (read_only_invalidArgument _)) as Hv;
  repeat (apply bind_read_only;
          [ first [ solve [apply Hv] | solve [read_only_tac; try apply Hv] ]
          | intros [?|?] _; [reflexivity|left; reflexivity]
          | intros ? ? ]).

(** The last lines of an entry point whose constructor can fail. *)
Ltac submit_built Hdev mk make_outcome :=
  repeat match goal with a : unit |- _ => destruct a end;
  match type of Hdev with
  | check_device _ ?d ?pg = _ =>
      apply check_device_Ok in Hdev; [|intros; apply invalidArgument_throws];
      unfold mbind, M_bind, nextTag, getContext, gets, by_device;
      destruct Hdev as [Hdev|[Hdev Hcuda]]; rewrite Hdev; cbn [USE_CUDA];
      rewrite ?Hcuda;
      first
        [ match goal with
          | |- context [mk ?cuda ?context ?o ?i ?r ?tag ?pg1] =>
              destruct (make_outcome cuda context o i r tag pg1)
                as [E|(Ec & e & _ & E & msg & ->)];
              rewrite E; try discriminate Ec
          end
        | match goal with
          | |- context [mk ?cuda ?context ?o ?i ?tag ?pg1] =>
              destruct (make_outcome cuda context o i tag pg1)
                as [E|(Ec & e & _ & E & msg & ->)];
              rewrite E; try discriminate Ec
          end ];
      try (split; reflexivity); try (right; reflexivity)
  end.

Lemma allgather_built outputs inputs pg :
  built pg (allgather outputs inputs pg).
Proof.
  unfold allgather. cbv zeta.
  checks_built (@invalidArgument unit "ProcessGroupGloo::allgather: ").
  match goal with
  | H : check_device _ _ _ = _ |- _ => 
      submit_built H make_AsyncAllgatherWork make_AsyncAllgatherWork_outcome
  end.
Qed.

Lemma gather_built outputs inputs rootRank pg :
  built pg (gather outputs inputs rootRank pg).
Proof.
  unfold gather. cbv zeta.
  checks_built (@invalidArgument unit "ProcessGroupGloo::gather: ").
  match goal with
  | H : check_device _ _ _ = _ |- _ => 
      submit_built H make_AsyncGatherWork make_AsyncGatherWork_outcome
  end.
Qed.

Lemma scatter_built outputs inputs rootRank pg :
  built pg (scatter outputs inputs rootRank pg).
Proof.
  unfold scatter. cbv zeta.
  checks_built (@invalidArgument unit "ProcessGroupGloo::scatter: ").
  match goal with
  | H : check_device _ _ _ = _ |- _ => 
      submit_built H make_AsyncScatterWork make_AsyncScatterWork_outcome
  end.
Qed.

Lemma allreduce_coalesced_validated tensors reduceOp pg :
  validated pg (allreduce_coalesced tensors reduceOp pg).
Proof.
  unfold allreduce_coalesced. cbv zeta.
  checks (@invalidArgument unit "ProcessGroupGloo::allreduce_coalesced: ").
  repeat match goal with
    | H : (match ?x with _ => _ end) _ = (Ok _, _) |- _ =>
        destruct x; try discriminate H; clear H
    end.
  unfold mbind, M_bind, nextTag, getContext, gets, enqueue, ret. simpl.
  split; reflexivity.
Qed.

Lemma reduce_scatter_validated outputs inputs pg :
  validated pg (reduce_scatter outputs inputs pg).
Proof. reflexivity. Qed.

Lemma barrier_validated pg : validated pg (barrier pg).
Proof. unfold barrier, validated. simpl. split; reflexivity. Qed.

Lemma validated_tagged pg out : validated pg out -> tagged pg out.
Proof.
  destruct out as [[w|e] pg']; simpl; auto.
  intros ->. now left.
Qed.

Lemma built_tagged pg out : built pg out -> tagged pg out.
Proof.
  destruct out as [[w|[msg|msg]] pg']; simpl; auto.
  intros ->. now left.
Qed.

Lemma allreduce_tagged inputs reduceOp pg :
  tagged pg (allreduce inputs reduceOp pg).
Proof.
  unfold allreduce. cbv zeta.
  pose proof (read_only_validators (@invalidArgument unit "ProcessGroupGloo::allreduce: ")
                (read_only_invalidArgument _)) as Hv.
  repeat (apply bind_read_only;
          [ first [ solve [apply Hv] | solve [read_only_tac; try apply Hv] ]
          | intros ? _; left; reflexivity
          | intros ? ? ]).
  repeat match goal with a : unit |- _ => destruct a end.
  match goal with
  | H : check_device _ _ _ = _ |- _ =>
      apply check_device_Ok in H; [|intros; apply invalidArgument_throws];
      unfold mbind, M_bind, nextTag, getContext, gets, by_device, enqueue, ret, throw,
        invalidArgument;
      destruct H as [H|[H Hcuda]]; rewrite H; simpl; rewrite ?Hcuda; simpl
  end;
  match goal with
  | |- context [layout ?t] => destruct (layout t); simpl
  end;
  first [ split; reflexivity | right; reflexivity ].
Qed.

Lemma dispatch_tagged (c : Call) pg : tagged pg (dispatch c pg).
Proof.
  destruct c; unfold dispatch.
  - apply validated_tagged, broadcast_validated.
  - apply allreduce_tagged.
  - apply validated_tagged, allreduce_coalesced_validated.
  - apply validated_tagged, reduce_validated.
  - apply built_tagged, allgather_built.
  - apply built_tagged, gather_built.
  - apply built_tagged, scatter_built.
  - apply validated_tagged, reduce_scatter_validated.
  - apply validated_tagged, barrier_validated.
Qed.

(** Every entry point other than [allreduce] validates before it
    touches the counter: an invalid-argument failure leaves the group as
    it was. *)
Lemma validation_failure_keeps_group (c : Call) pg msg pg' :
  is_allreduce c = false ->
  dispatch c pg = (Throw (InvalidArgument msg), pg') ->
  pg' = pg.
Proof.
  intros Hc Hd.
  assert (Hval : validated pg (dispatch c pg) \/ built pg (dispatch c pg)).
  { destruct c; unfold dispatch; try discriminate Hc.
    - left. apply broadcast_validated.
    - left. apply allreduce_coalesced_validated.
    - left. apply reduce_validated.
    - right. apply allgather_built.
    - right. apply gather_built.
    - right. apply scatter_built.
    - left. apply reduce_scatter_validated.
    - left. apply barrier_validated. }
  rewrite Hd in Hval. destruct Hval as [Hval|Hval]; exact Hval.
Qed.

End DispatchFacts.
(** ** The tag counter *)

Module TagFacts.
Import Dispatch DispatchSpec DispatchFacts.

(** C5, the failing call: [allreduce] on a host tensor of a layout that
    is neither strided nor sparse throws its invalid-argument error
    only after [nextTag] ran, so the failed call has advanced the
    counter. *)
Theorem allreduce_unsupported_layout_advances_counter
        (pg : ProcessGroupGloo) (reduceOp : ReduceOp) :
  exists pg',
    allreduce [ex_mkldnn_tensor] reduceOp pg
    = (Throw (InvalidArgument "ProcessGroupGloo::allreduce: unsupported layout"), pg') /\
    collectiveCounter_ pg' = next_counter pg /\
    workQueue_ pg' = workQueue_ pg.
Proof.
  unfold allreduce. simpl. destruct reduceOp; simpl;
    (eexists; split; [reflexivity|split; reflexivity]).
Qed.

(** On the group of the examples the counter goes from 0 to 1. *)
Lemma allreduce_unsupported_layout_example :
  collectiveCounter_ ex_pg = 0 /\
  collectiveCounter_ (snd (allreduce [ex_mkldnn_tensor] SUM ex_pg)) = 1 /\
  collectiveCounter_ (snd (allreduce_coalesced [ex_mkldnn_tensor] SUM ex_pg)) = 0.
Proof. split; [|split]; reflexivity. Qed.

Lemma tag_after_succ c0 k :
  (tag_after c0 k + 1) mod uint32_modulus = tag_after c0 (S k).
Proof.
  unfold tag_after, uint32_modulus.
  rewrite Z.add_mod_idemp_l by lia. f_equal. lia.
Qed.

Lemma tag_after_inj c0 k1 k2 :
  Z.of_nat k1 < uint32_modulus -> Z.of_nat k2 < uint32_modulus ->
  tag_after c0 k1 = tag_after c0 k2 -> k1 = k2.
Proof.
  unfold tag_after, uint32_modulus. intros H1 H2 E.
  assert (Hdiv : ((c0 + Z.of_nat k1) - (c0 + Z.of_nat k2)) mod 2 ^ 32 = 0).
  { rewrite Zminus_mod, E, Z.sub_diag. reflexivity. }
  apply Z.mod_divide in Hdiv; [|lia].
  destruct Hdiv as [q Hq].
  assert (q = 0) by lia. subst q. lia.
Qed.

Lemma dispatch_all_tags (calls : list Call) :
  forall pg c0 m,
    collectiveCounter_ pg = tag_after c0 m ->
    exists ks,
      tags (fst (dispatch_all calls pg)) = map (tag_after c0) ks /\
      StronglySorted lt ks /\
      Forall (fun k => m <= k < m + length calls)%nat ks.
Proof.
  induction calls as [|c calls IH]; intros pg c0 m Hc; simpl.
  - exists []. split_and!; constructor.
  - pose proof (dispatch_tagged c pg) as Ht.
    destruct (dispatch c pg) as [r pg1]. unfold tagged in Ht.
    assert (Hwiden : forall m' ks,
              (m <= m')%nat -> (m' <= S m)%nat ->
              Forall (fun k => m' <= k < m' + length calls)%nat ks ->
              Forall (fun k => m <= k < m + S (length calls))%nat ks).
    { intros m' ks H1 H2 HF. eapply Forall_impl; [exact HF|].
      intros k Hk. simpl in Hk. lia. }
    destruct r as [w|e].
    + destruct Ht as [Htag Hnext].
      destruct (IH pg1 c0 (S m)) as (ks & Hks & Hs & HF).
      { rewrite Hnext. unfold next_counter. rewrite Hc. apply tag_after_succ. }
      destruct (dispatch_all calls pg1) as [rs pg2]. simpl in *.
      exists (m :: ks). split_and!.
      * now rewrite Htag, Hc, Hks.
      * constructor; [exact Hs|].
        eapply Forall_impl; [exact HF|]. intros k Hk. simpl in Hk. lia.
      * constructor; [lia|]. apply (Hwiden (S m)); auto.
    + destruct Ht as [Hsame|Hnext].
      * destruct (IH pg1 c0 m) as (ks & Hks & Hs & HF); [congruence|].
        destruct (dispatch_all calls pg1) as [rs pg2]. simpl in *.
        exists ks. split_and!; auto. apply (Hwiden m); auto.
      * destruct (IH pg1 c0 (S m)) as (ks & Hks & Hs & HF).
        { rewrite Hnext. unfold next_counter. rewrite Hc. apply tag_after_succ. }
        destruct (dispatch_all calls pg1) as [rs pg2]. simpl in *.
        exists ks. split_and!; auto. apply (Hwiden (S m)); auto.
Qed.

Lemma tag_after_NoDup c0 (ks : list nat) :
  StronglySorted lt ks ->
  Forall (fun k => Z.of_nat k < uint32_modulus) ks ->
  NoDup (map (tag_after c0) ks).
Proof.
  induction 1 as [|k ks Hs IH Hall]; intros HF; simpl.
  - constructor.
  - apply Forall_cons in HF as [Hk HF].
    apply NoDup_cons. split; [|now apply IH].
    rewrite list_elem_of_In, in_map_iff. intros (k' & E & Hin).
    rewrite Forall_forall in Hall, HF.
    rewrite <- list_elem_of_In in Hin.
    specialize (Hall k' Hin). specialize (HF k' Hin).
    apply tag_after_inj in E; auto. lia.
Qed.

(** C6 (as amended).  Over any run of at most [2^32] dispatch calls the
    work items handed out carry pairwise distinct tags. *)
Theorem dispatch_tags_distinct (calls : list Call) (pg : ProcessGroupGloo) :
  0 <= collectiveCounter_ pg < uint32_modulus ->
  Z.of_nat (length calls) <= uint32_modulus ->
  NoDup (tags (fst (dispatch_all calls pg))).
Proof.
  intros Hrange Hlen.
  destruct (dispatch_all_tags calls pg (collectiveCounter_ pg) 0) as (ks & -> & Hs & HF).
  - unfold tag_after. rewrite Z.add_0_r. symmetry. now apply Z.mod_small.
  - apply tag_after_NoDup; [exact Hs|].
    eapply Forall_impl; [exact HF|]. intros k Hk. simpl in Hk. lia.
Qed.

Lemma dispatch_tags_distinct_witness :
  NoDup (tags (fst (dispatch_all
                      [CallBarrier; CallAllreduce [ex_cpu_tensor] SUM;
                       CallAllreduce [ex_mkldnn_tensor] SUM; CallBarrier]
                      ex_pg))).
Proof.
  apply dispatch_tags_distinct.
  - unfold uint32_modulus. simpl. lia.
  - unfold uint32_modulus. simpl. lia.
Defined.

(** A run of barriers hands out the counter values one after another. *)
Lemma barriers_tags (n : nat) :
  forall pg c0 m,
    collectiveCounter_ pg = tag_after c0 m ->
    tags (fst (dispatch_all (repeat CallBarrier n) pg))
    = map (tag_after c0) (seq m n).
Proof.
  induction n as [|n IH]; intros pg c0 m Hc; [reflexivity|].
  cbn [repeat dispatch_all dispatch].
  pose proof (barrier_validated pg) as Hb.
  destruct (barrier pg) as [[w|e] pg1] eqn:Eb.
  - destruct Hb as [Htag Hnext].
    specialize (IH pg1 c0 (S m)).
    destruct (dispatch_all (repeat CallBarrier n) pg1) as [rs pg2].
    cbn [fst tags seq map] in *. rewrite Htag, Hc. f_equal.
    apply IH. rewrite Hnext. unfold next_counter. rewrite Hc. apply tag_after_succ.
  - unfold barrier in Eb. discriminate Eb.
Qed.

Lemma barriers_wrap (N : nat) :
  Z.of_nat N = uint32_modulus ->
  ~ NoDup (tags (fst (dispatch_all (repeat CallBarrier (S N)) ex_pg))).
Proof.
  intros HNz.
  rewrite (barriers_tags (S N) ex_pg 0 0) by reflexivity.
  cbn [seq map]. intros Hnd. apply NoDup_cons in Hnd as [Hnin _].
  apply Hnin. rewrite list_elem_of_In, in_map_iff.
  exists N. split.
  - unfold tag_after. rewrite HNz. unfold uint32_modulus.
    rewrite Z.add_0_l, Z.add_0_l. rewrite Z.mod_same by lia. reflexivity.
  - apply in_seq. assert (0 < N)%nat; [|lia].
    apply Nat2Z.inj_lt. rewrite HNz. unfold uint32_modulus. lia.
Qed.

(** C6, counterexample: the first and the last of [2^32 + 1] barriers
    carry the same tag. *)
Lemma dispatch_tags_wrap_around :
  ~ NoDup (tags (fst (dispatch_all
                        (repeat CallBarrier (S (Z.to_nat uint32_modulus))) ex_pg))).
Proof.
  apply barriers_wrap. apply Z2Nat.id. unfold uint32_modulus. lia.
Qed.

End TagFacts.
(** ** Point-to-point calls *)

Module P2PFacts.
Import Dispatch DispatchSpec.

Lemma checkSingleTensor_outcome (tensors : list Tensor) (pg : ProcessGroupGloo) :
  (exists msg, checkSingleTensor tensors pg = (Throw (RuntimeError msg), pg)) \/
  (exists t, checkSingleTensor tensors pg = (Ok t, pg)).
Proof.
  unfold checkSingleTensor.
  destruct tensors as [|t [|t' rest]]; [left; eauto|..|left; eauto].
  destruct (negb (contiguous t)); [left; eauto|].
  destruct (is_sparse t); [left; eauto|right; eauto].
Qed.

Lemma checkTag_negative (tag : Z) (pg : ProcessGroupGloo) :
  tag < 0 -> checkTag tag pg = (Throw (RuntimeError "Tag must be >= 0"), pg).
Proof.
  intros Hneg. unfold checkTag.
  replace (tag <? 0) with true by (symmetry; apply Z.ltb_lt; exact Hneg).
  reflexivity.
Qed.

(** C4 (as amended).  With a negative tag, [send], [recv] and
    [recvAnysource] fail with a runtime error and leave the group,
    and with it the record of transport calls, as it was. *)
Theorem negative_tag_fails_before_transport
        (tensors : list Tensor) (peer tag : Z) (pg : ProcessGroupGloo) :
  tag < 0 ->
  (exists msg, send tensors peer tag pg = (Throw (RuntimeError msg), pg)) /\
  (exists msg, recv tensors peer tag pg = (Throw (RuntimeError msg), pg)) /\
  (exists msg, recvAnysource tensors tag pg = (Throw (RuntimeError msg), pg)).
Proof.
  intros Hneg. unfold send, recv, recvAnysource, mbind, M_bind.
  destruct (checkSingleTensor_outcome tensors pg) as [(msg & ->)|(t & ->)].
  - split_and!; eauto.
  - rewrite (checkTag_negative tag pg Hneg). split_and!; eauto.
Qed.

Lemma negative_tag_fails_before_transport_witness :
  (exists msg, send [ex_cpu_tensor] 1 (-1) ex_pg = (Throw (RuntimeError msg), ex_pg)) /\
  (exists msg, recv [ex_cpu_tensor] 1 (-1) ex_pg = (Throw (RuntimeError msg), ex_pg)) /\
  (exists msg, recvAnysource [ex_cpu_tensor] (-1) ex_pg
               = (Throw (RuntimeError msg), ex_pg)).
Proof.
  apply (negative_tag_fails_before_transport [ex_cpu_tensor] 1 (-1) ex_pg).
  lia.
Defined.

(** C4, counterexample: the error of a negative tag is the runtime
    error of [checkTag], not an invalid-argument error. *)
Lemma negative_tag_is_runtime_error :
  send [ex_cpu_tensor] 1 (-1) ex_pg = (Throw (RuntimeError "Tag must be >= 0"), ex_pg) /\
  forall msg, fst (send [ex_cpu_tensor] 1 (-1) ex_pg) <> Throw (InvalidArgument msg).
Proof.
  split; [reflexivity|]. intros msg. simpl. discriminate.
Qed.

Lemma anysource_ranks_In (size r : Z) :
  0 <= size ->
  In r (anysource_ranks size) <-> 0 <= r < size.
Proof.
  intros Hsize. unfold anysource_ranks. rewrite in_app_iff, in_map_iff. split.
  - intros [Hin|(k & <- & Hk)].
    + destruct (Z.to_nat size) eqn:E; [destruct Hin|].
      apply repeat_spec in Hin. lia.
    + apply in_seq in Hk. lia.
  - intros Hr. right. exists (Z.to_nat r). split; [lia|].
    apply in_seq. lia.
Qed.

(** The list itself is twice as long as the group is large: [size]
    zeros from [resize], then the ranks. *)
Lemma anysource_ranks_length (size : Z) :
  length (anysource_ranks size) = (2 * Z.to_nat size)%nat.
Proof.
  unfold anysource_ranks. rewrite length_app, repeat_length, length_map, length_seq. lia.
Qed.

(** C3.  [recvAnysource] hands the transport a list of source ranks
    in which every rank of [0, size) occurs and nothing else does. *)
Theorem recvAnysource_source_ranks
        (tensor : Tensor) (tag : Z) (pg : ProcessGroupGloo) :
  0 <= size_ pg ->
  contiguous tensor = true ->
  is_sparse tensor = false ->
  0 <= tag ->
  exists context srcRanks pg',
    recvAnysource [tensor] tag pg = (Ok (RecvWork tensor (-1)), pg') /\
    transport pg' = transport pg ++ [createUnboundBuffer context tensor;
                                     buffer_recv_any srcRanks tag] /\
    forall r, In r srcRanks <-> 0 <= r < size_ pg.
Proof.
  intros Hsize Hc Hs Htag.
  unfold recvAnysource, checkSingleTensor, checkTag, mbind, M_bind.
  rewrite Hc, Hs. simpl.
  replace (tag <? 0) with false by (symmetry; apply Z.ltb_ge; exact Htag).
  simpl. eexists _, _, _. split; [reflexivity|]. simpl. split.
  - rewrite <- app_assoc. reflexivity.
  - intros r. now apply anysource_ranks_In.
Qed.

Lemma recvAnysource_source_ranks_witness :
  exists context srcRanks pg',
    recvAnysource [ex_cpu_tensor] 7 ex_pg = (Ok (RecvWork ex_cpu_tensor (-1)), pg') /\
    transport pg' = transport ex_pg ++ [createUnboundBuffer context ex_cpu_tensor;
                                        buffer_recv_any srcRanks 7] /\
    forall r, In r srcRanks <-> 0 <= r < size_ ex_pg.
Proof.
  apply (recvAnysource_source_ranks ex_cpu_tensor 7 ex_pg).
  - simpl; lia.
  - reflexivity.
  - reflexivity.
  - lia.
Defined.

End P2PFacts.
(** ** sourceRank before and after the receive completes *)

Module RecvWorkFacts.
Import RecvWork.

Lemma wait_failed_keeps_rank (o : WaitRecv) (w : t) :
  failed o -> srcRank_ (snd (wait o w)) = srcRank_ w.
Proof. intros (e & ->). reflexivity. Qed.

Lemma wait_received_rank (sender : Z) (w : t) :
  srcRank_ (snd (wait (Received sender) w)) = sender.
Proof. unfold wait. simpl. destruct (exception_ w); reflexivity. Qed.

Lemma waits_failed_keep_rank (outcomes : list WaitRecv) (w : t) :
  Forall failed outcomes -> srcRank_ (waits outcomes w) = srcRank_ w.
Proof.
  unfold waits. revert w.
  induction outcomes as [|o outcomes IH]; intros w HF; simpl; [reflexivity|].
  apply Forall_cons in HF as [Ho HF].
  rewrite IH by exact HF. now apply wait_failed_keeps_rank.
Qed.

(** C10.  On a new handle [sourceRank()] is -1 and stays -1 through
    any number of [wait()] calls in which the receive did not complete;
    after the [wait()] in which it completes, [sourceRank()] is the
    rank of the sender, and that [wait()] returns normally when none
    failed before it. *)
Theorem sourceRank_before_and_after_wait (outcomes : list WaitRecv) (sender : Z) :
  Forall failed outcomes ->
  sourceRank new = -1 /\
  sourceRank (waits outcomes new) = -1 /\
  sourceRank (snd (wait (Received sender) (waits outcomes new))) = sender /\
  (outcomes = [] -> fst (wait (Received sender) new) = Ok tt).
Proof.
  intros HF. unfold sourceRank. split_and!.
  - reflexivity.
  - now rewrite waits_failed_keep_rank.
  - apply wait_received_rank.
  - reflexivity.
Qed.

Lemma sourceRank_before_and_after_wait_witness :
  sourceRank new = -1 /\
  sourceRank (waits [Failed (RuntimeError "Timed out waiting for recv")] new) = -1 /\
  sourceRank (snd (wait (Received 3)
                        (waits [Failed (RuntimeError "Timed out waiting for recv")] new)))
  = 3 /\
  ([Failed (RuntimeError "Timed out waiting for recv")] = [] ->
   fst (wait (Received 3) new) = Ok tt).
Proof.
  apply (sourceRank_before_and_after_wait
           [Failed (RuntimeError "Timed out waiting for recv")] 3).
  repeat constructor. eexists. reflexivity.
Defined.

End RecvWorkFacts.

(** ** Destruction drains the queue *)

Module WorkerPoolFacts.
Import WorkerPool.

Lemma In_insert_other {A : Type} (l : list A) (i : nat) (x y z : A) :
  In x l -> l !! i = Some y -> x <> y -> In x (<[i := z]> l).
Proof.
  rewrite <- !list_elem_of_In. intros Hin Hi Hne.
  apply list_elem_of_lookup in Hin as [j Hj].
  apply list_elem_of_lookup. exists j.
  rewrite list_lookup_insert_ne; [exact Hj|].
  intros ->. congruence.
Qed.

Lemma In_insert_self {A : Type} (l : list A) (i : nat) (y z : A) :
  l !! i = Some y -> In z (<[i := z]> l).
Proof.
  intros Hi. rewrite <- list_elem_of_In. apply list_elem_of_lookup. exists i.
  apply list_lookup_insert_eq. eapply lookup_lt_Some; eauto.
Qed.

Lemma Forall_Returned_lookup (l : list Worker) (i : nat) (t : Worker) :
  Forall (fun t => t = Returned) l -> l !! i = Some t -> t = Returned.
Proof.
  intros HF Hi. rewrite Forall_forall in HF. apply HF.
  eapply list_elem_of_lookup_2; eauto.
Qed.

Lemma stop_after_drain_step (p p' : Pool) :
  step p p' -> stop_after_drain p -> stop_after_drain p'.
Proof.
  unfold stop_after_drain.
  destruct 1; simpl; intros Hinv; auto;
    try (destruct (destructor p); auto; try congruence;
         destruct Hinv as [Hs HF];
         try congruence;
         match goal with
         | Hi : threads_ _ !! _ = Some _ |- _ =>
             pose proof (Forall_Returned_lookup _ _ _ HF Hi); discriminate
         end).
Qed.

Lemma accounted_step (p p' : Pool) :
  step p p' -> accounted p -> accounted p'.
Proof.
  unfold accounted.
  destruct 1 as [p w0|p i w0 q Hi Hs Hq|p i w0 Hi|p i Hi|p i Hi Hs|p Hd|p Hd Hq|p Hd HF];
    simpl; intros Hinv w Hw.
  - (* enqueue *)
    assert (Hold : In w (enqueued_before_destruction p) \/
                   (w = w0 /\ destructor p = NotStarted)).
    { destruct (destructor p); auto.
      apply in_app_or in Hw as [Hw|[<-|[]]]; auto. }
    destruct Hold as [Hold|[-> Hd]].
    + destruct (Hinv w Hold) as [[Hin Hdd]|[Hex|Hdone]]; auto.
      left. split; [|exact Hdd]. apply in_or_app. now left.
    + left. split; [|now left]. apply in_or_app. right. now left.
  - (* pop *)
    destruct (Hinv w Hw) as [[Hin Hdd]|[Hex|Hdone]]; auto.
    + rewrite Hq in Hin. destruct Hin as [<-|Hin]; auto.
      right. left. unfold set_thread. eapply In_insert_self; eauto.
    + right. left. unfold set_thread.
      eapply In_insert_other; eauto; discriminate.
  - (* execute *)
    destruct (Hinv w Hw) as [[Hin Hdd]|[Hex|Hdone]]; auto.
    + destruct (decide (w = w0)) as [->|Hne].
      * right. right. apply in_or_app. right. now left.
      * right. left. unfold set_thread.
        eapply In_insert_other; eauto; congruence.
    + right. right. apply in_or_app. now left.
  - (* clear *)
    destruct (Hinv w Hw) as [[Hin Hdd]|[Hex|Hdone]]; auto.
    right. left. unfold set_thread. eapply In_insert_other; eauto; discriminate.
  - (* return *)
    destruct (Hinv w Hw) as [[Hin Hdd]|[Hex|Hdone]]; auto.
    right. left. unfold set_thread. eapply In_insert_other; eauto; discriminate.
  - (* the destructor starts *)
    destruct (Hinv w Hw) as [[Hin Hdd]|[Hex|Hdone]]; auto.
  - (* stop *)
    destruct (Hinv w Hw) as [[Hin Hdd]|[Hex|Hdone]]; auto.
    rewrite Hq in Hin. destruct Hin.
  - (* join *)
    destruct (Hinv w Hw) as [[Hin [Hdd|Hdd]]|[Hex|Hdone]]; auto; congruence.
Qed.

Lemma reachable_invariant (n : nat) (p : Pool) :
  reachable n p -> accounted p /\ stop_after_drain p.
Proof.
  induction 1 as [|p p' _ [IHa IHs] Hstep].
  - split; [intros w []|reflexivity].
  - split; [eapply accounted_step|eapply stop_after_drain_step]; eauto.
Qed.

(** C8.  The stop flag is only set with the queue empty, after the
    destructor's wait; and when the destructor has joined the worker
    threads, every item enqueued before destruction began has been
    executed. *)
Theorem destruction_drains_queue (n : nat) (p : Pool) :
  reachable n p ->
  (forall p', step p p' -> stop_ p = false -> stop_ p' = true ->
              workQueue_ p = [] /\ destructor p = WaitingForEmptyQueue /\
              destructor p' = Joining) /\
  (destructor p = Destroyed ->
   forall w, In w (enqueued_before_destruction p) -> In w (executed p)).
Proof.
  intros Hreach. split.
  - intros p' Hstep Hf Ht.
    destruct Hstep; simpl in Ht; try congruence. auto.
  - intros Hd w Hw.
    destruct (reachable_invariant n p Hreach) as [Hacc Hstop].
    unfold stop_after_drain in Hstop. rewrite Hd in Hstop.
    destruct Hstop as [_ HF].
    destruct (Hacc w Hw) as [[_ [Hdd|Hdd]]|[Hex|Hdone]]; try congruence; auto.
    rewrite Forall_forall in HF. rewrite <- list_elem_of_In in Hex.
    specialize (HF _ Hex). discriminate.
Qed.

Lemma ex_final_reachable : reachable 1 ex_final.
Proof.
  eapply reachable_step; [|apply (step_join
    (mkPool [] [None] true [Returned] Joining [7%nat] [7%nat]));
    [reflexivity|repeat constructor]].
  eapply reachable_step; [|apply (step_return
    (mkPool [] [None] true [AtLoopHead] Joining [7%nat] [7%nat]) 0);
    reflexivity].
  eapply reachable_step; [|apply (step_stop
    (mkPool [] [None] false [AtLoopHead] WaitingForEmptyQueue [7%nat] [7%nat]));
    reflexivity].
  eapply reachable_step; [|apply (step_clear
    (mkPool [] [Some 7%nat] false [Executed] WaitingForEmptyQueue [7%nat] [7%nat]) 0);
    reflexivity].
  eapply reachable_step; [|apply (step_execute
    (mkPool [] [Some 7%nat] false [Executing 7%nat] WaitingForEmptyQueue [7%nat] [])
    0 7%nat); reflexivity].
  eapply reachable_step; [|apply (step_pop
    (mkPool [7%nat] [None] false [AtLoopHead] WaitingForEmptyQueue [7%nat] [])
    0 7%nat []); reflexivity].
  eapply reachable_step; [|apply (step_destroy
    (mkPool [7%nat] [None] false [AtLoopHead] NotStarted [7%nat] []));
    reflexivity].
  eapply reachable_step; [apply reachable_init|].
  apply (step_enqueue (init 1) 7%nat).
Defined.

Lemma destruction_drains_queue_witness :
  (forall p', step ex_final p' -> stop_ ex_final = false -> stop_ p' = true ->
              workQueue_ ex_final = [] /\ destructor ex_final = WaitingForEmptyQueue /\
              destructor p' = Joining) /\
  (destructor ex_final = Destroyed ->
   forall w, In w (enqueued_before_destruction ex_final) -> In w (executed ex_final)).
Proof.
  apply (destruction_drains_queue 1 ex_final). exact ex_final_reachable.
Defined.

End WorkerPoolFacts.
(** * Further properties of the work items *)

(** ** Binds of the exception monad *)

Lemma Result_bind_Ok {A B : Type} (m : Result A) (k : A -> Result B) (b : B) :
  m ≫= k = Ok b -> exists a, m = Ok a /\ k a = Ok b.
Proof. destruct m as [a|e]; [eauto|discriminate]. Qed.

Lemma Result_bind_eq {A B : Type} (m : Result A) (k : A -> Result B) (a : A) :
  m = Ok a -> m ≫= k = k a.
Proof. intros ->. reflexivity. Qed.

(** Takes a successful run apart, one bind at a time. *)
Ltac bind_inv Hrun :=
  repeat (let a := fresh "a" in
          let E := fresh "E" in
          apply Result_bind_Ok in Hrun as (a & E & Hrun)).

(** ** More on the metadata record *)

Section MetadataSlots.
Context {V : Type}.

(** [populate_from_sparse_tensor] slot by slot. *)
Lemma populate_slots (t : SparseTensor V) (data_ : Meta.Data) :
  (sparse_dim t <= 4)%nat ->
  (dense_dim t <= 4)%nat ->
  length data_ = Meta.dim ->
  exists d,
    Meta.populate_from_sparse_tensor t data_ = Ok d /\
    length d = Meta.dim /\
    (forall i, (i < 4)%nat ->
       Meta.get d i = if (i <? sparse_dim t)%nat then tsize t i else Meta.get data_ i) /\
    (forall i, (i < 4)%nat ->
       Meta.get d (4 + i) = if (i <? dense_dim t)%nat then tsize t (sparse_dim t + i)
                            else Meta.get data_ (4 + i)) /\
    Meta.nnz d = _nnz t.
Proof.
  destruct t as [ty sd dd sz es]; simpl.
  intros Hsd Hdd Hd.
  do 10 (destruct data_ as [|? data_]; try discriminate Hd). clear Hd.
  unfold Meta.populate_from_sparse_tensor, Meta.nnz, Meta.get, tsize, _nnz; simpl.
  destruct sd as [|[|[|[|[|sd]]]]]; [| | | | |exfalso; lia];
  (destruct dd as [|[|[|[|[|dd]]]]]; [| | | | |exfalso; lia]);
  (eexists; split; [reflexivity|]);
  (split; [reflexivity|]);
  (split; [intros [|[|[|[|i]]]] Hi; try reflexivity; exfalso; lia|]);
  (split; [intros [|[|[|[|i]]]] Hi; try reflexivity; exfalso; lia|]);
  reflexivity.
Qed.

(** X1.  [populate_from_sparse_tensor] writes the size slots of the
    dimensions the tensor has and the nnz slot; it never clears a slot it
    does not use, so a record that held a larger shape keeps the stale
    sizes. *)
Theorem populate_leaves_unused_slots (t : SparseTensor V) (data_ : Meta.Data) :
  (sparse_dim t <= 4)%nat ->
  (dense_dim t <= 4)%nat ->
  length data_ = Meta.dim ->
  exists d,
    Meta.populate_from_sparse_tensor t data_ = Ok d /\
    length d = Meta.dim /\
    (forall i, (i < sparse_dim t)%nat -> Meta.get d i = tsize t i) /\
    (forall i, (i < dense_dim t)%nat -> Meta.get d (4 + i) = tsize t (sparse_dim t + i)) /\
    (forall i, (sparse_dim t <= i < 4)%nat -> Meta.get d i = Meta.get data_ i) /\
    (forall i, (dense_dim t <= i < 4)%nat -> Meta.get d (4 + i) = Meta.get data_ (4 + i)) /\
    Meta.nnz d = _nnz t.
Proof.
  intros Hsd Hdd Hd.
  destruct (populate_slots t data_ Hsd Hdd Hd) as (d & Hp & Hl & Hs & Hdn & Hn).
  exists d. split_and!; auto.
  - intros i Hi. rewrite Hs by lia.
    replace (i <? sparse_dim t)%nat with true by (symmetry; apply Nat.ltb_lt; lia).
    reflexivity.
  - intros i Hi. rewrite Hdn by lia.
    replace (i <? dense_dim t)%nat with true by (symmetry; apply Nat.ltb_lt; lia).
    reflexivity.
  - intros i Hi. rewrite Hs by lia.
    replace (i <? sparse_dim t)%nat with false by (symmetry; apply Nat.ltb_ge; lia).
    reflexivity.
  - intros i Hi. rewrite Hdn by lia.
    replace (i <? dense_dim t)%nat with false by (symmetry; apply Nat.ltb_ge; lia).
    reflexivity.
Qed.

Lemma sizes_loop_length (d : Meta.Data) (i n : nat) :
  (length (Meta.sizes_loop d i n) <= n)%nat.
Proof.
  revert i; induction n as [|n IH]; intros i; simpl; [lia|].
  destruct (Meta.get d i <=? 0); simpl; [lia|].
  specialize (IH (S i)). lia.
Qed.

Lemma sizes_loop_stops (d : Meta.Data) (n : nat) :
  forall i j, (j < n)%nat -> Meta.get d (i + j) <= 0 ->
              (length (Meta.sizes_loop d i n) <= j)%nat.
Proof.
  induction n as [|n IH]; intros i j Hj Hz; [lia|]. simpl.
  destruct (Meta.get d i <=? 0) eqn:E; simpl; [lia|].
  destruct j as [|j].
  - rewrite Nat.add_0_r in Hz. apply Z.leb_gt in E. lia.
  - specialize (IH (S i) j). rewrite <- Nat.add_succ_comm in Hz.
    specialize (IH ltac:(lia) Hz). lia.
Qed.

Lemma sizes_loop_positive (d : Meta.Data) (n : nat) :
  forall i, Forall (fun s => 0 < s) (Meta.sizes_loop d i n).
Proof.
  induction n as [|n IH]; intros i; simpl; [constructor|].
  destruct (Meta.get d i <=? 0) eqn:E; [constructor|].
  constructor; [|apply IH]. apply Z.leb_gt in E. exact E.
Qed.

(** X2.  [sizes()] never reports an empty dimension: whatever the record
    holds, the entries it returns are positive and there are at most
    eight of them. *)
Theorem sizes_entries_positive (d : Meta.Data) :
  Forall (fun s => 0 < s) (Meta.sizes d) /\ (length (Meta.sizes d) <= 8)%nat.
Proof.
  unfold Meta.sizes. split.
  - apply Forall_app. split; apply sizes_loop_positive.
  - rewrite length_app.
    pose proof (sizes_loop_length d 0 4). pose proof (sizes_loop_length d 4 4). lia.
Qed.

(** X3.  A dimension of size zero ends the list [sizes()] reads back: the
    record of a tensor with an empty dimension reports fewer dimensions
    than the tensor has. *)
Theorem sizes_drops_empty_dimension (t : SparseTensor V) (k : nat) :
  (sparse_dim t <= 4)%nat ->
  (dense_dim t <= 4)%nat ->
  (k < sparse_dim t + dense_dim t)%nat ->
  tsize t k <= 0 ->
  exists d,
    Meta.populate_from_sparse_tensor t Meta.zeros = Ok d /\
    (length (Meta.sizes d) < sparse_dim t + dense_dim t)%nat.
Proof.
  intros Hsd Hdd Hk Hz.
  destruct (populate_slots t Meta.zeros Hsd Hdd eq_refl) as (d & Hp & _ & Hs & Hdn & _).
  exists d. split; [exact Hp|].
  unfold Meta.sizes. rewrite length_app.
  assert (Hzero : forall i, (i < 8)%nat -> Meta.get Meta.zeros i = 0).
  { intros i Hi. do 8 (destruct i as [|i]; [reflexivity|]). lia. }
  assert (Hsl : (length (Meta.sizes_loop d 0 4) <= sparse_dim t)%nat).
  { destruct (decide (sparse_dim t = 4%nat)) as [->|Hne]; [apply sizes_loop_length|].
    apply sizes_loop_stops; [lia|]. simpl. rewrite Hs by lia.
    replace (sparse_dim t <? sparse_dim t)%nat with false
      by (symmetry; apply Nat.ltb_ge; lia).
    rewrite Hzero by lia. lia. }
  assert (Hdl : (length (Meta.sizes_loop d 4 4) <= dense_dim t)%nat).
  { destruct (decide (dense_dim t = 4%nat)) as [->|Hne]; [apply sizes_loop_length|].
    apply sizes_loop_stops; [lia|]. rewrite Hdn by lia.
    replace (dense_dim t <? dense_dim t)%nat with false
      by (symmetry; apply Nat.ltb_ge; lia).
    rewrite Hzero by lia. lia. }
  destruct (decide (k < sparse_dim t)%nat) as [Hks|Hkd].
  - assert ((length (Meta.sizes_loop d 0 4) <= k)%nat); [|lia].
    apply sizes_loop_stops; [lia|]. simpl. rewrite Hs by lia.
    replace (k <? sparse_dim t)%nat with true by (symmetry; apply Nat.ltb_lt; lia).
    exact Hz.
  - assert ((length (Meta.sizes_loop d 4 4) <= k - sparse_dim t)%nat); [|lia].
    apply sizes_loop_stops; [lia|]. rewrite Hdn by lia.
    replace (k - sparse_dim t <? dense_dim t)%nat with true
      by (symmetry; apply Nat.ltb_lt; lia).
    replace (sparse_dim t + (k - sparse_dim t))%nat with k by lia.
    exact Hz.
Qed.

End MetadataSlots.

Lemma populate_leaves_unused_slots_witness :
  exists d,
    Meta.populate_from_sparse_tensor (sparse1d []) [9; 9; 9; 9; 7; 7; 7; 7; 5] = Ok d /\
    length d = Meta.dim /\
    (forall i, (i < 1)%nat -> Meta.get d i = tsize (sparse1d []) i) /\
    (forall i, (i < 0)%nat -> Meta.get d (4 + i) = tsize (sparse1d []) (1 + i)) /\
    (forall i, (1 <= i < 4)%nat ->
       Meta.get d i = Meta.get [9; 9; 9; 9; 7; 7; 7; 7; 5] i) /\
    (forall i, (0 <= i < 4)%nat ->
       Meta.get d (4 + i) = Meta.get [9; 9; 9; 9; 7; 7; 7; 7; 5] (4 + i)) /\
    Meta.nnz d = 0.
Proof.
  apply (populate_leaves_unused_slots (sparse1d []) [9; 9; 9; 9; 7; 7; 7; 7; 5]).
  - simpl; lia.
  - simpl; lia.
  - reflexivity.
Defined.

(** A matrix with no columns: two sparse dimensions, the second empty. *)
Lemma sizes_drops_empty_dimension_witness :
  exists d,
    Meta.populate_from_sparse_tensor (mkSparse Long 2 0 [3; 0] ([] : list (list Z * Z)))
                                     Meta.zeros = Ok d /\
    (length (Meta.sizes d) < 2 + 0)%nat.
Proof.
  apply (sizes_drops_empty_dimension
           (mkSparse Long 2 0 [3; 0] ([] : list (list Z * Z))) 1).
  - simpl; lia.
  - simpl; lia.
  - simpl; lia.
  - unfold tsize; simpl; lia.
Defined.
(** ** More on the sparse allreduce *)

Section SparseAllreduceMore.
Context {V : Type} `{ValueBlock V}.

(** *** The gathers over arbitrary buffer contents *)

Lemma at_empty_row {A : Type} (fill : nat -> nat -> A) (size n row : nat) (d : list A) :
  (row < size)%nat -> nth row (at_empty fill size n) d = map (fill row) (seq 0 n).
Proof.
  intros Hrow. unfold at_empty.
  rewrite nth_lookup, list_lookup_fmap, lookup_seq_lt by exact Hrow. reflexivity.
Qed.

Lemma at_empty_length {A : Type} (fill : nat -> nat -> A) (size n : nat) :
  length (at_empty fill size n) = size.
Proof. unfold at_empty. now rewrite length_map, length_seq. Qed.

Lemma narrow_copy_any {A : Type} (row src : list A) :
  (length src <= length row)%nat ->
  narrow_copy_ row src = Ok (src ++ skipn (length src) row).
Proof.
  intros Hlen. unfold narrow_copy_, narrow.
  replace (0 <=? Z.of_nat (length src)) with true by (symmetry; apply Z.leb_le; lia).
  replace (Z.of_nat (length src) <=? Z.of_nat (length row)) with true
    by (symmetry; apply Z.leb_le; lia).
  reflexivity.
Qed.

(** After the allgather every rank holds, at row [i], what rank [i]
    wrote into row [i] of its own buffer, whatever the other rows of the
    buffers held. *)
Lemma gloo_allgather_own_rows {A T : Type} (d : A) (base : nat -> list A)
      (row : nat -> T -> A) (l : list T) :
  (forall i, (i < length l)%nat -> (i < length (base i))%nat) ->
  gloo_allgather d (imap (fun i t => <[i := row i t]> (base i)) l) = imap row l.
Proof.
  intros Hlen. unfold gloo_allgather. apply list_eq. intros i.
  rewrite !list_lookup_imap.
  destruct (l !! i) as [t|] eqn:Hi; simpl; [|reflexivity].
  f_equal. rewrite nth_lookup, list_lookup_insert_eq; [reflexivity|].
  apply Hlen. eapply lookup_lt_Some; eauto.
Qed.

(** Cutting row [i] of the gathered buffer back to [nnz] of rank [i]
    returns the payload of rank [i], whatever padded it. *)
Lemma gathered_rows_any {A : Type} (payload : SparseTensor V -> list A)
      (pad : nat -> SparseTensor V -> list A) (base : nat -> list (list A))
      (L : list (SparseTensor V)) :
  (forall t, length (payload t) = length (entries t)) ->
  (forall i, (i < length L)%nat -> (i < length (base i))%nat) ->
  sequence
    (imap (fun i m =>
             narrow (nth i (gloo_allgather []
                       (imap (fun i t => <[i := payload t ++ pad i t]> (base i)) L)) [])
                    (Meta.nnz m))
          (map meta_row L))
  = Ok (map payload L).
Proof.
  intros Hpay Hlen.
  rewrite (gloo_allgather_own_rows [] base (fun i t => payload t ++ pad i t) L Hlen).
  rewrite imap_map.
  rewrite (sequence_imap_Ok _ (fun _ t => payload t)).
  - now rewrite imap_const_map.
  - intros i t Hi.
    rewrite nth_lookup, list_lookup_imap, Hi. simpl.
    rewrite meta_row_nnz. unfold _nnz. rewrite <- Hpay.
    apply narrow_prefix.
Qed.

Lemma indices_buffer_on_row (g : Leftover V) (size i : nat) (t : SparseTensor V) (mx : Z) :
  (i < size)%nat -> (length (entries t) <= Z.to_nat mx)%nat ->
  indices_buffer_on g size i t mx
  = Ok (<[i := indices t ++ skipn (length (indices t))
                                  (map (leftover_index g i i) (seq 0 (Z.to_nat mx)))]>
          (at_empty (leftover_index g i) size (Z.to_nat mx))).
Proof.
  intros Hi Hmx. unfold indices_buffer_on. cbv zeta.
  rewrite at_empty_row by exact Hi.
  rewrite narrow_copy_any; [reflexivity|].
  unfold indices. rewrite !length_map, length_seq. exact Hmx.
Qed.

Lemma values_buffer_on_row (g : Leftover V) (size i : nat) (t : SparseTensor V) (mx : Z) :
  (i < size)%nat -> (length (entries t) <= Z.to_nat mx)%nat ->
  values_buffer_on g size i t mx
  = Ok (<[i := values t ++ skipn (length (values t))
                                 (map (leftover_value g i i) (seq 0 (Z.to_nat mx)))]>
          (at_empty (leftover_value g i) size (Z.to_nat mx))).
Proof.
  intros Hi Hmx. unfold values_buffer_on. cbv zeta.
  rewrite at_empty_row by exact Hi.
  rewrite narrow_copy_any; [reflexivity|].
  unfold values. rewrite !length_map, length_seq. exact Hmx.
Qed.

Lemma indices_buffers_on (g : Leftover V) (size : nat) (L : list (SparseTensor V)) (mx : Z) :
  (length L <= size)%nat ->
  (forall t, In t L -> (length (entries t) <= Z.to_nat mx)%nat) ->
  sequence (imap (fun i t => indices_buffer_on g size i t mx) L)
  = Ok (imap (fun i t =>
                <[i := indices t ++ skipn (length (indices t))
                                          (map (leftover_index g i i) (seq 0 (Z.to_nat mx)))]>
                  (at_empty (leftover_index g i) size (Z.to_nat mx))) L).
Proof.
  intros Hlen Hmx. apply sequence_imap_Ok. intros i t Hi.
  apply indices_buffer_on_row.
  - apply lookup_lt_Some in Hi. lia.
  - apply Hmx. rewrite <- list_elem_of_In. eapply list_elem_of_lookup_2; eauto.
Qed.

Lemma values_buffers_on (g : Leftover V) (size : nat) (L : list (SparseTensor V)) (mx : Z) :
  (length L <= size)%nat ->
  (forall t, In t L -> (length (entries t) <= Z.to_nat mx)%nat) ->
  sequence (imap (fun i t => values_buffer_on g size i t mx) L)
  = Ok (imap (fun i t =>
                <[i := values t ++ skipn (length (values t))
                                         (map (leftover_value g i i) (seq 0 (Z.to_nat mx)))]>
                  (at_empty (leftover_value g i) size (Z.to_nat mx))) L).
Proof.
  intros Hlen Hmx. apply sequence_imap_Ok. intros i t Hi.
  apply values_buffer_on_row.
  - apply lookup_lt_Some in Hi. lia.
  - apply Hmx. rewrite <- list_elem_of_In. eapply list_elem_of_lookup_2; eauto.
Qed.

Lemma allgather_indices_on_rows (g : Leftover V) (context : GlooContext)
      (L : list (SparseTensor V)) :
  length L = ctx_size context -> L <> [] ->
  allgather_indices_on g context L (map meta_row L) = Ok (map indices L).
Proof.
  intros Hlen Hne. unfold allgather_indices_on.
  destruct (max_nnz_rows L Hne) as (mx & Hmax & Hmx).
  rewrite (Result_bind_eq _ _ _ Hmax).
  rewrite (Result_bind_eq _ _ _
             (indices_buffers_on g (ctx_size context) L mx ltac:(lia) Hmx)).
  cbv zeta. apply gathered_rows_any.
  - intros t. unfold indices. apply length_map.
  - intros i Hi. rewrite at_empty_length. lia.
Qed.

Lemma allgather_values_on_rows (g : Leftover V) (context : GlooContext)
      (L : list (SparseTensor V)) (t : SparseTensor V) :
  length L = ctx_size context ->
  L !! ctx_rank context = Some t ->
  supported_type (scalar_type t) ->
  allgather_values_on g context L (map meta_row L) = Ok (map values L).
Proof.
  intros Hlen Ht Hty. unfold allgather_values_on.
  assert (Hne : L <> []) by (intros ->; discriminate Ht).
  destruct (max_nnz_rows L Hne) as (mx & Hmax & Hmx).
  rewrite (Result_bind_eq _ _ _ Hmax).
  rewrite (Result_bind_eq _ _ _
             (values_buffers_on g (ctx_size context) L mx ltac:(lia) Hmx)).
  rewrite Ht. unfold supported_type in Hty.
  rewrite (Result_bind_eq _ _ _ (eq_refl (Ok t))), (Result_bind_eq _ _ _ Hty).
  cbv zeta. apply gathered_rows_any.
  - intros t'. unfold values. apply length_map.
  - intros i Hi. rewrite at_empty_length. lia.
Qed.

Lemma generate_unsupported (ty : ScalarType) :
  ~ supported_type ty ->
  GENERATE_ALL_TYPES ty (Ok tt) = Throw (RuntimeError "Invalid scalar type").
Proof.
  unfold supported_type. intros Hno.
  destruct ty; simpl; try reflexivity; exfalso; apply Hno; reflexivity.
Qed.

Lemma allgather_values_on_unsupported (g : Leftover V) (context : GlooContext)
      (L : list (SparseTensor V)) (t : SparseTensor V) :
  length L = ctx_size context ->
  L !! ctx_rank context = Some t ->
  ~ supported_type (scalar_type t) ->
  allgather_values_on g context L (map meta_row L)
  = Throw (RuntimeError "Invalid scalar type").
Proof.
  intros Hlen Ht Hty. unfold allgather_values_on.
  assert (Hne : L <> []) by (intros ->; discriminate Ht).
  destruct (max_nnz_rows L Hne) as (mx & Hmax & Hmx).
  rewrite (Result_bind_eq _ _ _ Hmax).
  rewrite (Result_bind_eq _ _ _
             (values_buffers_on g (ctx_size context) L mx ltac:(lia) Hmx)).
  rewrite Ht, (Result_bind_eq _ _ _ (eq_refl (Ok t))).
  rewrite (generate_unsupported _ Hty). reflexivity.
Qed.

(** *** The local reduction keeps the shape, whatever the addition *)

Lemma local_reduction_shape (rest : list nat) :
  forall (h : gmap nat (SparseTensor V)) (t0 : nat) (a : SparseTensor V) ty sd dd sz,
    h !! t0 = Some a ->
    has_shape ty sd dd sz a ->
    ~ In t0 rest ->
    (forall t, In t rest -> exists x, h !! t = Some x /\ has_shape ty sd dd sz x) ->
    exists h' s,
      local_reduction h t0 rest = Ok h' /\
      h' !! t0 = Some s /\
      has_shape ty sd dd sz s.
Proof.
  induction rest as [|t rest IH]; intros h t0 a ty sd dd sz Ha Hsh Hnin Hrest; simpl.
  - exists h, a. auto.
  - destruct (Hrest t) as (x & Hx & Hxs); [now left|].
    rewrite Ha, Hx.
    destruct (add_has_shape a x ty sd dd sz Hsh Hxs) as (s & -> & Hss & _).
    simpl.
    apply (IH (<[t0 := s]> h) t0 s ty sd dd sz).
    + apply lookup_insert_eq.
    + exact Hss.
    + intros Hin. apply Hnin. now right.
    + intros t' Ht'. destruct (Hrest t') as (x' & Hx' & Hxs'); [now right|].
      exists x'. split; [|exact Hxs'].
      rewrite lookup_insert_ne; [exact Hx'|].
      intros ->. apply Hnin. now right.
Qed.

Lemma local_input_shape (p : Proc V) ty sd dd sz :
  valid_inputs ty sd dd sz p -> exists loc, local_shape ty sd dd sz p loc.
Proof.
  intros (Hne & Hnd & Hall). unfold local_shape, local_input.
  destruct (tensors p) as [|t0 rest]; [contradiction|].
  destruct (Hall t0) as (a & Ha & Hty & Hsd & Hdd & Hsz); [now left|].
  apply NoDup_cons in Hnd as [Hnin _].
  destruct (local_reduction_shape rest (heap p) t0 a ty sd dd sz)
    as (h' & s & -> & Hs & Hsh); auto.
  - repeat split; assumption.
  - now rewrite <- list_elem_of_In.
  - intros t Ht. destruct (Hall t) as (x & Hx & Hxs); [now right|].
    exists x. split; [exact Hx|]. exact Hxs.
  - simpl. rewrite Hs. exists (h', coalesce s). split; [reflexivity|].
    now apply coalesce_has_shape.
Qed.

Lemma locals_of_world (world : list (Proc V)) ty sd dd sz :
  Forall (valid_inputs ty sd dd sz) world ->
  exists locals,
    sequence (map local_input world) = Ok locals /\
    length locals = length world /\
    Forall (has_shape ty sd dd sz) (map snd locals).
Proof.
  intros Hvalid.
  assert (HF : exists locals, Forall2 (local_shape ty sd dd sz) world locals).
  { apply Forall_exists_Forall2. eapply Forall_impl; [exact Hvalid|].
    intros p Hp. now apply local_input_shape. }
  destruct HF as (locals & HF). exists locals. split_and!.
  - apply sequence_map_Forall2. eapply Forall2_impl; [exact HF|].
    intros p loc Hl. apply Hl.
  - symmetry. eapply Forall2_length; eauto.
  - clear Hvalid. induction HF as [|p loc w ls Hl _ IH]; simpl; constructor; auto.
    apply Hl.
Qed.

(** The steps of [sparse_allreduce_on] on a world of one shape and one
    supported type, and the tensor it returns, written out: the
    coalesced concatenation of what the ranks hold after their local
    reduction. *)
Lemma sparse_allreduce_on_explicit (g : Leftover V)
      (context : GlooContext) (world : list (Proc V)) locals ty sd dd sz :
  ctx_size context = length world ->
  (ctx_rank context < ctx_size context)%nat ->
  sequence (map local_input world) = Ok locals ->
  length locals = length world ->
  Forall (has_shape ty sd dd sz) (map snd locals) ->
  (sd <= 4)%nat -> (dd <= 4)%nat -> supported_type ty ->
  exists h input,
    locals !! ctx_rank context = Some (h, input) /\
    sparse_allreduce_on g context world
    = Ok (h, coalesce (mkSparse ty sd dd sz (concat (map entries (map snd locals))))).
Proof.
  intros Hsize Hrank Hseq Hll Hshape Hsd Hdd Hty.
  unfold sparse_allreduce_on. rewrite (Result_bind_eq _ _ _ Hseq).
  destruct (lookup_lt_is_Some_2 locals (ctx_rank context)) as [[h input] Hloc]; [lia|].
  rewrite Hloc. cbv zeta.
  set (L := map snd locals) in *.
  assert (Hlen : length L = ctx_size context) by (subst L; rewrite length_map; lia).
  assert (HLr : L !! ctx_rank context = Some input).
  { subst L. rewrite list_lookup_fmap, Hloc. reflexivity. }
  assert (Hne : L <> []) by (intros E; rewrite E in HLr; discriminate).
  assert (Hin : has_shape ty sd dd sz input).
  { rewrite Forall_forall in Hshape. apply Hshape.
    eapply list_elem_of_lookup_2; eauto. }
  assert (Hmeta : allgather_metadata context L = Ok (map meta_row L)).
  { apply allgather_metadata_rows; [exact Hlen|].
    eapply Forall_impl; [exact Hshape|].
    intros t (_ & -> & -> & _). split; assumption. }
  rewrite (Result_bind_eq _ _ _ Hmeta).
  rewrite (Result_bind_eq _ _ _
             (check_sizes_same_shape context L ty sd dd sz Hlen Hrank Hshape)).
  rewrite (Result_bind_eq _ _ _ (allgather_indices_on_rows g context L Hlen Hne)).
  assert (Hty' : supported_type (scalar_type input)) by (destruct Hin as (-> & _); exact Hty).
  rewrite (Result_bind_eq _ _ _ (allgather_values_on_rows g context L input Hlen HLr Hty')).
  rewrite !length_map. fold L. rewrite Hlen, Nat.eqb_refl. simpl.
  destruct (global_reduction_concat input L ty sd dd sz Hin Hne)
    as (out & -> & Hos & Hoe).
  simpl. exists h, input. split; [reflexivity|].
  destruct out as [oty osd odd osz oes].
  destruct Hos as (Ht & Hs & Hd & Hz). simpl in *. subst. reflexivity.
Qed.

(** X4.  In one run of the sparse allreduce, with whatever the
    uninitialised buffers of the ranks hold and whatever addition the
    value blocks have, every rank returns the same tensor. *)
Theorem sparse_allreduce_ranks_agree (g : Leftover V)
        (c1 c2 : GlooContext) (world : list (Proc V))
        (ty : ScalarType) (sd dd : nat) (sz : list Z) :
  ctx_size c1 = length world -> ctx_size c2 = length world ->
  (ctx_rank c1 < ctx_size c1)%nat -> (ctx_rank c2 < ctx_size c2)%nat ->
  Forall (valid_inputs ty sd dd sz) world ->
  (sd <= 4)%nat -> (dd <= 4)%nat -> supported_type ty ->
  exists h1 h2 out,
    sparse_allreduce_on g c1 world = Ok (h1, out) /\
    sparse_allreduce_on g c2 world = Ok (h2, out).
Proof.
  intros Hs1 Hs2 Hr1 Hr2 Hvalid Hsd Hdd Hty.
  destruct (locals_of_world world ty sd dd sz Hvalid) as (locals & Hseq & Hll & Hshape).
  destruct (sparse_allreduce_on_explicit g c1 world locals ty sd dd sz)
    as (h1 & i1 & _ & E1); auto.
  destruct (sparse_allreduce_on_explicit g c2 world locals ty sd dd sz)
    as (h2 & i2 & _ & E2); auto.
  eauto.
Qed.

(** X5.  What [at::empty] left in the index and value buffers, slot
    by slot and rank by rank, never reaches the result: the padding is
    cut off before the tensors are rebuilt. *)
Theorem sparse_allreduce_ignores_padding (g1 g2 : Leftover V)
        (context : GlooContext) (world : list (Proc V))
        (ty : ScalarType) (sd dd : nat) (sz : list Z) :
  ctx_size context = length world ->
  (ctx_rank context < ctx_size context)%nat ->
  Forall (valid_inputs ty sd dd sz) world ->
  (sd <= 4)%nat -> (dd <= 4)%nat -> supported_type ty ->
  exists out,
    sparse_allreduce_on g1 context world = Ok out /\
    sparse_allreduce_on g2 context world = Ok out.
Proof.
  intros Hsize Hrank Hvalid Hsd Hdd Hty.
  destruct (locals_of_world world ty sd dd sz Hvalid) as (locals & Hseq & Hll & Hshape).
  destruct (sparse_allreduce_on_explicit g1 context world locals ty sd dd sz)
    as (h1 & i1 & L1 & E1); auto.
  destruct (sparse_allreduce_on_explicit g2 context world locals ty sd dd sz)
    as (h2 & i2 & L2 & E2); auto.
  rewrite L1 in L2. injection L2 as <- <-. eauto.
Qed.

(** X6.  A scalar type outside the seven of [GENERATE_ALL_TYPES] is
    found out late: the local reduction, the metadata gather, the size
    check and the gather of the indices all return, then
    [allgather_values] throws "Invalid scalar type", and the allreduce
    with it. *)
Theorem sparse_allreduce_unsupported_type (g : Leftover V)
        (context : GlooContext) (world : list (Proc V))
        (ty : ScalarType) (sd dd : nat) (sz : list Z) :
  ctx_size context = length world ->
  (ctx_rank context < ctx_size context)%nat ->
  Forall (valid_inputs ty sd dd sz) world ->
  (sd <= 4)%nat -> (dd <= 4)%nat ->
  ~ supported_type ty ->
  exists locals metadata indices,
    sequence (map local_input world) = Ok locals /\
    allgather_metadata context (map snd locals) = Ok metadata /\
    check_sizes context metadata = Ok tt /\
    allgather_indices_on g context (map snd locals) metadata = Ok indices /\
    allgather_values_on g context (map snd locals) metadata
    = Throw (RuntimeError "Invalid scalar type") /\
    sparse_allreduce_on g context world = Throw (RuntimeError "Invalid scalar type").
Proof.
  intros Hsize Hrank Hvalid Hsd Hdd Hty.
  destruct (locals_of_world world ty sd dd sz Hvalid) as (locals & Hseq & Hll & Hshape).
  destruct (lookup_lt_is_Some_2 locals (ctx_rank context)) as [[h input] Hloc]; [lia|].
  set (L := map snd locals) in *.
  assert (Hlen : length L = ctx_size context) by (subst L; rewrite length_map; lia).
  assert (HLr : L !! ctx_rank context = Some input).
  { subst L. rewrite list_lookup_fmap, Hloc. reflexivity. }
  assert (Hne : L <> []) by (intros E; rewrite E in HLr; discriminate).
  assert (Hin : has_shape ty sd dd sz input).
  { rewrite Forall_forall in Hshape. apply Hshape.
    eapply list_elem_of_lookup_2; eauto. }
  assert (Hmeta : allgather_metadata context L = Ok (map meta_row L)).
  { apply allgather_metadata_rows; [exact Hlen|].
    eapply Forall_impl; [exact Hshape|].
    intros t (_ & -> & -> & _). split; assumption. }
  pose proof (check_sizes_same_shape context L ty sd dd sz Hlen Hrank Hshape) as Hcheck.
  pose proof (allgather_indices_on_rows g context L Hlen Hne) as Hidx.
  assert (Hty' : ~ supported_type (scalar_type input)) by (destruct Hin as (-> & _); exact Hty).
  pose proof (allgather_values_on_unsupported g context L input Hlen HLr Hty') as Hval.
  exists locals, (map meta_row L), (map indices L). split_and!; auto.
  unfold sparse_allreduce_on. rewrite (Result_bind_eq _ _ _ Hseq), Hloc. cbv zeta.
  fold L.
  rewrite (Result_bind_eq _ _ _ Hmeta), (Result_bind_eq _ _ _ Hcheck).
  rewrite (Result_bind_eq _ _ _ Hidx), Hval. reflexivity.
Qed.

(** *** Shapes that differ between ranks *)

Lemma sizes_loop_reads (d : Meta.Data) (n : nat) :
  forall (i : nat) (l : list Z),
    (length l <= n)%nat ->
    (forall j, (j < length l)%nat -> Meta.get d (i + j) = nth j l 0) ->
    Forall (fun s => 0 < s) l ->
    ((length l < n)%nat -> Meta.get d (i + length l) <= 0) ->
    Meta.sizes_loop d i n = l.
Proof.
  induction n as [|n IH]; intros i l Hlen Hget Hpos Hend; simpl.
  - destruct l; [reflexivity|simpl in Hlen; lia].
  - destruct l as [|x l].
    + simpl in Hend. rewrite Nat.add_0_r in Hend.
      replace (Meta.get d i <=? 0) with true
        by (symmetry; apply Z.leb_le; apply Hend; lia).
      reflexivity.
    + apply Forall_cons in Hpos as [Hx Hpos].
      pose proof (Hget 0%nat ltac:(simpl; lia)) as H0'.
      rewrite Nat.add_0_r in H0'. simpl in H0'. rewrite H0'.
      replace (x <=? 0) with false by (symmetry; apply Z.leb_gt; exact Hx).
      f_equal. apply IH.
      * simpl in Hlen. lia.
      * intros j Hj. specialize (Hget (S j) ltac:(simpl; lia)).
        rewrite <- Nat.add_succ_comm in Hget. exact Hget.
      * exact Hpos.
      * intros Hl. simpl in Hend. rewrite <- Nat.add_succ_comm in Hend.
        apply Hend. lia.
Qed.

Lemma meta_row_sizes_positive (t : SparseTensor V) :
  (sparse_dim t <= 4)%nat -> (dense_dim t <= 4)%nat ->
  length (sizes t) = (sparse_dim t + dense_dim t)%nat ->
  Forall (fun s => 0 < s) (sizes t) ->
  Meta.sizes (meta_row t) = sizes t.
Proof.
  intros Hsd Hdd Hlen Hpos.
  destruct (populate_slots t Meta.zeros Hsd Hdd eq_refl) as (d & Hp & _ & Hs & Hdn & _).
  rewrite populate_zeros in Hp by assumption. injection Hp as <-.
  assert (Hzero : forall i, (i < 8)%nat -> Meta.get Meta.zeros i = 0).
  { intros i Hi. do 8 (destruct i as [|i]; [reflexivity|]). lia. }
  transitivity (firstn (sparse_dim t) (sizes t) ++ skipn (sparse_dim t) (sizes t));
    [|apply firstn_skipn].
  unfold Meta.sizes. f_equal.
  - apply sizes_loop_reads.
    + rewrite length_firstn. lia.
    + intros j Hj. rewrite length_firstn in Hj. simpl. rewrite Hs by lia.
      replace (j <? sparse_dim t)%nat with true by (symmetry; apply Nat.ltb_lt; lia).
      unfold tsize. rewrite nth_firstn.
      replace (j <? sparse_dim t)%nat with true by (symmetry; apply Nat.ltb_lt; lia).
      reflexivity.
    + apply Forall_take. exact Hpos.
    + rewrite length_firstn. intros Hl. simpl.
      replace (sparse_dim t `min` length (sizes t))%nat with (sparse_dim t) in * by lia.
      rewrite Hs by lia.
      replace (sparse_dim t <? sparse_dim t)%nat with false
        by (symmetry; apply Nat.ltb_ge; lia).
      rewrite Hzero by lia. lia.
  - apply sizes_loop_reads.
    + rewrite length_skipn. lia.
    + intros j Hj. rewrite length_skipn in Hj. rewrite Hdn by lia.
      replace (j <? dense_dim t)%nat with true by (symmetry; apply Nat.ltb_lt; lia).
      unfold tsize. now rewrite nth_skipn.
    + apply Forall_drop. exact Hpos.
    + rewrite length_skipn. intros Hl.
      replace (length (sizes t) - sparse_dim t)%nat with (dense_dim t) in * by lia.
      rewrite Hdn by lia.
      replace (dense_dim t <? dense_dim t)%nat with false
        by (symmetry; apply Nat.ltb_ge; lia).
      rewrite Hzero by lia. lia.
Qed.

Lemma local_input_shaped (p : Proc V) :
  valid_proc p -> exists loc, local_shaped p loc.
Proof.
  intros (ty & sd & dd & sz & Hv & Hsd & Hdd & Hlen & Hpos).
  destruct (local_input_shape p ty sd dd sz Hv) as ([h input] & Hrun & Ht & Hs & Hd & Hz).
  exists (h, input). unfold local_shaped. simpl in *. rewrite Hs, Hd, Hz.
  split_and!; auto.
  intros ty' sd' dd' sz' Hv'.
  destruct (local_input_shape p ty' sd' dd' sz' Hv') as (loc' & Hrun' & _ & _ & _ & Hz').
  rewrite Hrun in Hrun'. injection Hrun' as <-. simpl in Hz'. congruence.
Qed.

Lemma check_sizes_mismatch (context : GlooContext) (M : list Meta.Data) (j : nat) :
  (j < ctx_size context)%nat ->
  Meta.sizes (nth j M []) <> Meta.sizes (nth (ctx_rank context) M []) ->
  check_sizes context M = Throw (RuntimeError "Sparse dimensions do not match").
Proof.
  intros Hj Hne. unfold check_sizes.
  destruct (forallb _ _) eqn:E; [|reflexivity].
  exfalso. rewrite forallb_forall in E.
  specialize (E j). rewrite in_seq in E. specialize (E ltac:(lia)).
  apply orb_true_iff in E as [E|E].
  - apply Nat.eqb_eq in E. subst j. contradiction.
  - apply bool_decide_eq_true_1 in E. contradiction.
Qed.

(** X7.  A rank whose tensors have other sizes than this rank's is
    found out by the check after the metadata gather: the local
    reduction and the metadata gather return, the comparison of the
    sizes throws "Sparse dimensions do not match", and the allreduce
    with it. *)
Theorem sparse_allreduce_shape_mismatch (g : Leftover V)
        (context : GlooContext) (world : list (Proc V))
        (j : nat) (pr pj : Proc V)
        (tyr tyj : ScalarType) (sdr ddr sdj ddj : nat) (szr szj : list Z) :
  ctx_size context = length world ->
  Forall valid_proc world ->
  world !! ctx_rank context = Some pr ->
  world !! j = Some pj ->
  valid_inputs tyr sdr ddr szr pr ->
  valid_inputs tyj sdj ddj szj pj ->
  szr <> szj ->
  exists locals metadata,
    sequence (map local_input world) = Ok locals /\
    allgather_metadata context (map snd locals) = Ok metadata /\
    check_sizes context metadata
    = Throw (RuntimeError "Sparse dimensions do not match") /\
    sparse_allreduce_on g context world
    = Throw (RuntimeError "Sparse dimensions do not match").
Proof.
  intros Hsize Hvalid Hr Hj Hvr Hvj Hne.
  assert (HF : exists locals, Forall2 local_shaped world locals).
  { apply Forall_exists_Forall2. eapply Forall_impl; [exact Hvalid|].
    intros p Hp. now apply local_input_shaped. }
  destruct HF as (locals & HF).
  assert (Hseq : sequence (map local_input world) = Ok locals).
  { apply sequence_map_Forall2. eapply Forall2_impl; [exact HF|].
    intros p loc Hl. apply Hl. }
  assert (Hll : length locals = length world)
    by (symmetry; eapply Forall2_length; eauto).
  pose proof (lookup_lt_Some _ _ _ Hr) as Hrlt.
  pose proof (lookup_lt_Some _ _ _ Hj) as Hjlt.
  destruct (lookup_lt_is_Some_2 locals (ctx_rank context)) as [[h input] Hloc]; [lia|].
  destruct (lookup_lt_is_Some_2 locals j) as [[hj inputj] Hlocj]; [lia|].
  pose proof (Forall2_lookup_lr _ _ _ _ _ _ HF Hr Hloc)
    as (_ & Hsd & Hdd & Hlen & Hpos & Hsz).
  pose proof (Forall2_lookup_lr _ _ _ _ _ _ HF Hj Hlocj)
    as (_ & Hsdj & Hddj & Hlenj & Hposj & Hszj).
  simpl in *.
  set (L := map snd locals).
  assert (HlenL : length L = ctx_size context) by (subst L; rewrite length_map; lia).
  assert (Hmeta : allgather_metadata context L = Ok (map meta_row L)).
  { apply allgather_metadata_rows; [exact HlenL|].
    subst L. clear - HF. induction HF as [|p loc w ls Hl _ IH]; simpl; constructor; auto.
    destruct Hl as (_ & ? & ? & _). split; assumption. }
  assert (Hnth : forall k hk ik, locals !! k = Some (hk, ik) ->
                 nth k (map meta_row L) [] = meta_row ik).
  { intros k hk ik Hk. subst L.
    rewrite nth_lookup, !list_lookup_fmap, Hk. reflexivity. }
  assert (Hcheck : check_sizes context (map meta_row L)
                   = Throw (RuntimeError "Sparse dimensions do not match")).
  { apply (check_sizes_mismatch context (map meta_row L) j); [lia|].
    rewrite (Hnth _ _ _ Hloc), (Hnth _ _ _ Hlocj).
    rewrite !meta_row_sizes_positive by assumption.
    rewrite (Hsz _ _ _ _ Hvr), (Hszj _ _ _ _ Hvj). congruence. }
  exists locals, (map meta_row L). split_and!; auto.
  unfold sparse_allreduce_on. rewrite (Result_bind_eq _ _ _ Hseq), Hloc. cbv zeta.
  fold L. rewrite (Result_bind_eq _ _ _ Hmeta), Hcheck. reflexivity.
Qed.

End SparseAllreduceMore.

(** With every slot holding the same, the buffers are those of
    [sparse_allreduce]. *)
Lemma at_empty_uniform {A : Type} (a : A) (size n : nat) :
  at_empty (fun _ _ => a) size n = repeat (repeat a n) size.
Proof.
  unfold at_empty.
  assert (Hrow : forall (B : Type) (b : B) m k, map (fun _ : nat => b) (seq k m) = repeat b m).
  { intros B b. induction m as [|m IH]; intros k; simpl; [reflexivity|]. now rewrite IH. }
  rewrite (Hrow _ a n 0%nat). apply Hrow.
Qed.

Section SparseUniformContents.
Context {V : Type} `{ValueBlock V} `{Uninitialized V}.

(** [sparse_allreduce] is [sparse_allreduce_on] with one value in
    every slot of the uninitialised buffers. *)
Lemma sparse_allreduce_on_uniform (context : GlooContext) (world : list (Proc V)) :
  sparse_allreduce_on (uniform uninit_index uninit_value) context world
  = sparse_allreduce context world.
Proof.
  assert (Hrow : forall (B : Type) (b : B) m k,
             map (fun _ : nat => b) (seq k m) = repeat b m).
  { intros B b. induction m as [|m IH]; intros k; simpl; [reflexivity|]. now rewrite IH. }
  assert (Hi : forall size rank t mx,
             indices_buffer_on (uniform uninit_index uninit_value) size rank t mx
             = indices_buffer size rank t mx).
  { intros. unfold indices_buffer_on, indices_buffer, uniform. simpl.
    now rewrite at_empty_uniform, Hrow. }
  assert (Hv : forall size rank t mx,
             values_buffer_on (uniform uninit_index uninit_value) size rank t mx
             = values_buffer size rank t mx).
  { intros. unfold values_buffer_on, values_buffer, uniform. simpl.
    now rewrite at_empty_uniform, Hrow. }
  assert (Hgi : forall inputs metadata,
             allgather_indices_on (uniform uninit_index uninit_value) context inputs metadata
             = allgather_indices context inputs metadata).
  { intros. unfold allgather_indices_on, allgather_indices.
    destruct (max_nnz metadata) as [mx|e]; [|reflexivity]. simpl.
    rewrite (imap_ext _ (fun i t => indices_buffer (ctx_size context) i t mx)); auto. }
  assert (Hgv : forall inputs metadata,
             allgather_values_on (uniform uninit_index uninit_value) context inputs metadata
             = allgather_values context inputs metadata).
  { intros. unfold allgather_values_on, allgather_values.
    destruct (max_nnz metadata) as [mx|e]; [|reflexivity]. simpl.
    rewrite (imap_ext _ (fun i t => values_buffer (ctx_size context) i t mx)); auto. }
  unfold sparse_allreduce_on, sparse_allreduce.
  destruct (sequence (map local_input world)) as [locals|e]; [|reflexivity]. simpl.
  destruct (locals !! ctx_rank context) as [[h input]|]; [|reflexivity].
  cbv zeta.
  destruct (allgather_metadata context (map snd locals)) as [metadata|e]; [|reflexivity].
  simpl. destruct (check_sizes context metadata) as [[]|e]; [|reflexivity]. simpl.
  rewrite Hgi, Hgv. reflexivity.
Qed.

End SparseUniformContents.

Ltac one_tensor_valid :=
  repeat constructor; simpl; try discriminate;
  try (rewrite list_elem_of_In; simpl; intuition discriminate);
  intros t [<-|[]]; eexists; (split; [vm_compute; reflexivity|]); repeat split.

Lemma sparse_allreduce_ranks_agree_witness :
  exists h1 h2 out,
    sparse_allreduce_on ex_leftover_mixed (mkContext 0 2) ex_world = Ok (h1, out) /\
    sparse_allreduce_on ex_leftover_mixed (mkContext 1 2) ex_world = Ok (h2, out).
Proof.
  apply (@sparse_allreduce_ranks_agree Z Z_ValueBlock ex_leftover_mixed
           (mkContext 0 2) (mkContext 1 2) ex_world Long 1%nat 0%nat [4]).
  - reflexivity.
  - reflexivity.
  - simpl; lia.
  - simpl; lia.
  - exact ex_world_valid.
  - lia.
  - lia.
  - reflexivity.
Defined.

Lemma sparse_allreduce_ignores_padding_witness :
  exists out,
    sparse_allreduce_on ex_leftover_mixed (mkContext 0 2) ex_world = Ok out /\
    sparse_allreduce_on ex_leftover_flat (mkContext 0 2) ex_world = Ok out.
Proof.
  apply (@sparse_allreduce_ignores_padding Z Z_ValueBlock
           ex_leftover_mixed ex_leftover_flat
           (mkContext 0 2) ex_world Long 1%nat 0%nat [4]).
  - reflexivity.
  - simpl; lia.
  - exact ex_world_valid.
  - lia.
  - lia.
  - reflexivity.
Defined.

Lemma sparse_allreduce_unsupported_type_witness :
  exists locals metadata indices,
    sequence (map local_input ex_world_short) = Ok locals /\
    allgather_metadata (mkContext 0 1) (map snd locals) = Ok metadata /\
    check_sizes (mkContext 0 1) metadata = Ok tt /\
    allgather_indices_on ex_leftover_mixed (mkContext 0 1) (map snd locals) metadata
    = Ok indices /\
    allgather_values_on ex_leftover_mixed (mkContext 0 1) (map snd locals) metadata
    = Throw (RuntimeError "Invalid scalar type") /\
    sparse_allreduce_on ex_leftover_mixed (mkContext 0 1) ex_world_short
    = Throw (RuntimeError "Invalid scalar type").
Proof.
  apply (@sparse_allreduce_unsupported_type Z Z_ValueBlock ex_leftover_mixed
           (mkContext 0 1) ex_world_short Short 1%nat 0%nat [4]).
  - reflexivity.
  - simpl; lia.
  - one_tensor_valid.
  - lia.
  - lia.
  - unfold supported_type. simpl. discriminate.
Defined.

Lemma sparse_allreduce_shape_mismatch_witness :
  exists locals metadata,
    sequence (map local_input ex_world_mismatch) = Ok locals /\
    allgather_metadata (mkContext 0 2) (map snd locals) = Ok metadata /\
    check_sizes (mkContext 0 2) metadata
    = Throw (RuntimeError "Sparse dimensions do not match") /\
    sparse_allreduce_on ex_leftover_mixed (mkContext 0 2) ex_world_mismatch
    = Throw (RuntimeError "Sparse dimensions do not match").
Proof.
  apply (@sparse_allreduce_shape_mismatch Z Z_ValueBlock ex_leftover_mixed
           (mkContext 0 2) ex_world_mismatch 1%nat
           (mkProc ex_heap1 [0%nat])
           (mkProc (<[0%nat := mkSparse Long 1 0 [5] [([4], 2)]]> ∅) [0%nat])
           Long Long 1%nat 0%nat 1%nat 0%nat [4] [5]).
  - reflexivity.
  - repeat constructor.
    + exists Long, 1%nat, 0%nat, [4]. split_and!; [one_tensor_valid|lia|lia|reflexivity|].
      repeat constructor.
    + exists Long, 1%nat, 0%nat, [5]. split_and!; [one_tensor_valid|lia|lia|reflexivity|].
      repeat constructor.
  - reflexivity.
  - reflexivity.
  - one_tensor_valid.
  - one_tensor_valid.
  - discriminate.
Defined.

(** ** The queue after a dispatch call *)

Module DispatchQueueFacts.
Import Dispatch DispatchSpec DispatchFacts DispatchQueue.

Lemma is_check_ret {A} (a : A) : is_check (ret a).
Proof. intros pg. left. eexists. reflexivity. Qed.

Lemma is_check_gets {A} (f : ProcessGroupGloo -> A) : is_check (gets f).
Proof. intros pg. left. eexists. reflexivity. Qed.

Lemma is_check_invalidArgument {A} (w msg : string) :
  is_check (@invalidArgument A w msg).
Proof. intros pg. right. eexists. reflexivity. Qed.

Lemma is_check_bind {A B} (m : M A) (k : A -> M B) :
  is_check m -> (forall a, is_check (k a)) -> is_check (m ≫= k).
Proof.
  intros Hm Hk pg. unfold mbind, M_bind.
  destruct (Hm pg) as [(a & ->)|(msg & ->)].
  - apply Hk.
  - right. eauto.
Qed.

Lemma is_check_when (b : bool) (m : M unit) : is_check m -> is_check (when b m).
Proof. intros Hm. destruct b; simpl; [exact Hm|apply is_check_ret]. Qed.

Lemma is_check_for_each {A} (f : A -> M unit) (l : list A) :
  (forall a, is_check (f a)) -> is_check (for_each f l).
Proof.
  intros Hf. induction l as [|a l IH]; simpl.
  - apply is_check_ret.
  - apply is_check_bind; auto.
Qed.

Lemma is_check_for_each_from {A} (f : nat -> A -> M unit) (l : list A) :
  (forall i a, is_check (f i a)) -> forall i, is_check (for_each_from i f l).
Proof.
  intros Hf. induction l as [|a l IH]; intros i; simpl.
  - apply is_check_ret.
  - apply is_check_bind; auto.
Qed.

Lemma is_check_check_device (fn : string -> M unit) (d : DeviceType) :
  (forall msg, is_check (fn msg)) -> is_check (check_device fn d).
Proof.
  intros Hfn pg. unfold check_device.
  destruct d; try destruct (USE_CUDA pg); try (left; eexists; reflexivity); apply Hfn.
Qed.

Ltac is_check_tac :=
  repeat first
    [ progress intros
    | apply is_check_bind
    | apply is_check_when
    | apply is_check_for_each
    | apply is_check_for_each_from
    | apply is_check_check_device
    | apply is_check_ret
    | apply is_check_gets
    | apply is_check_invalidArgument
    | match goal with
      | |- is_check (if ?b then _ else _) => destruct b
      | |- is_check (match ?x with _ => _ end) => destruct x
      end ].

(** The validators are checks; [assertTypeAndSizesMatch] reads
    [tensors[0]] and is one on a list that is not empty. *)
Lemma is_check_validators (fn : string -> M unit) :
  (forall msg, is_check (fn msg)) ->
  (forall r s, is_check (assertRootRank fn r s)) /\
  (forall r s, is_check (assertRootTensor fn r s)) /\
  (forall l, is_check (assertNonEmpty fn l)) /\
  (forall l, is_check (assertSingleElement fn l)) /\
  (forall l, is_check (assertSingleElementInput fn l)) /\
  (forall l, is_check (assertSingleElementOutput fn l)) /\
  (forall l, is_check (assertDense fn l)) /\
  (forall l, is_check (assertLayoutMatch fn l)) /\
  (forall l t s, is_check (assertTypeAndSizesMatch_with fn l t s)) /\
  (forall t l, is_check (assertTypeAndSizesMatch fn (t :: l))).
Proof.
  intros Hfn.
  assert (Hw : forall l t s, is_check (assertTypeAndSizesMatch_with fn l t s)).
  { intros l t s. unfold assertTypeAndSizesMatch_with. is_check_tac; apply Hfn. }
  split_and!; try exact Hw; intros;
    unfold assertRootRank, assertRootTensor, assertNonEmpty, assertSingleElement,
      assertSingleElementInput, assertSingleElementOutput, assertDense,
      assertLayoutMatch, assertTypeAndSizesMatch;
    cbn [front tail];
    is_check_tac; try apply Hfn; apply Hw.
Qed.

(** Stepping over a check while keeping what it threw. *)
Lemma bind_is_check {A B} (m : M A) (k : A -> M B) (pg : ProcessGroupGloo)
      (P : Result B * ProcessGroupGloo -> Prop) :
  is_check m ->
  (forall msg, P (Throw (InvalidArgument msg), pg)) ->
  (forall a, m pg = (Ok a, pg) -> P (k a pg)) ->
  P ((m ≫= k) pg).
Proof.
  intros Hm He Ha. unfold mbind, M_bind.
  destruct (Hm pg) as [(a & E)|(msg & E)]; rewrite E.
  - now apply Ha.
  - apply He.
Qed.

Lemma bind_front_cons {A B} (a : A) (l : list A) (k : A -> M B) pg :
  (front (a :: l) ≫= k) pg = k a pg.
Proof. reflexivity. Qed.

(** Walks through the checks of an entry point. *)
Ltac checks_through fn :=
  let Hv := fresh "Hv" in
  pose proof (is_check_validators fn (is_check_invalidArgument _)) as Hv;
  repeat first
    [ rewrite bind_front_cons
    | apply bind_is_check;
      [ first [ solve [apply Hv] | solve [is_check_tac; try apply Hv] ]
      | intros ?; left; split; [eexists; reflexivity|left; reflexivity]
      | intros ? ? ] ].

(** A check that returned on the empty list, where it throws. *)
Ltac empty_refuted :=
  exfalso;
  repeat match goal with a : unit |- _ => destruct a end;
  match goal with
  | H : assertRootTensor _ ?r (length []) ?pg = (Ok _, _) |- _ =>
      unfold assertRootTensor, when in H;
      change (Z.of_nat (length (@nil Tensor))) with 0 in H;
      let E1 := fresh "Elt" in let E2 := fresh "Ele" in
      destruct (r <? 0) eqn:E1; destruct (0 <=? r) eqn:E2;
      simpl in H; try discriminate H;
      apply Z.ltb_ge in E1; apply Z.leb_gt in E2; lia
  | H : assertNonEmpty _ [] ?pg = (Ok _, _) |- _ => discriminate H
  | H : assertSingleElement _ [] ?pg = (Ok _, _) |- _ => discriminate H
  | H : assertSingleElementInput _ [] ?pg = (Ok _, _) |- _ => discriminate H
  | H : assertSingleElementOutput _ [] ?pg = (Ok _, _) |- _ => discriminate H
  | H : when (length [] =? 0)%nat _ ?pg = (Ok _, _) |- _ => discriminate H
  end.

(** The last lines of an entry point, once the device check passed. *)
Ltac submit_work Hdev :=
  repeat match goal with a : unit |- _ => destruct a end;
  match type of Hdev with
  | check_device _ ?d ?pg = _ =>
      apply check_device_Ok in Hdev; [|intros; apply invalidArgument_throws];
      unfold mbind, M_bind, nextTag, getContext, gets, by_device, enqueue, ret, throw;
      destruct Hdev as [Hdev|[Hdev Hcuda]]; rewrite Hdev; simpl;
      rewrite ?Hcuda; simpl;
      try (unfold submitted, next_counter, class_fits; rewrite ?Hcuda;
           split_and!; try reflexivity;
           intros ? [= <-]; rewrite Hdev; simpl; rewrite ?Hcuda; auto)
  end.

(** The same for an entry point whose constructor can fail. *)
Ltac submit_nested Hdev mk make_outcome :=
  repeat match goal with a : unit |- _ => destruct a end;
  match type of Hdev with
  | check_device _ ?d ?pg = _ =>
      apply check_device_Ok in Hdev; [|intros; apply invalidArgument_throws];
      unfold mbind, M_bind, nextTag, getContext, gets, by_device;
      destruct Hdev as [Hdev|[Hdev Hcuda]]; rewrite Hdev; cbn [USE_CUDA];
      rewrite ?Hcuda;
      first
        [ match goal with
          | |- context [mk ?cuda ?context ?o ?i ?r ?tag ?pg1] =>
              destruct (make_outcome cuda context o i r tag pg1)
                as [E|(Ec & e & Einit & E & msg & ->)];
              rewrite E; try discriminate Ec
          end
        | match goal with
          | |- context [mk ?cuda ?context ?o ?i ?tag ?pg1] =>
              destruct (make_outcome cuda context o i tag pg1)
                as [E|(Ec & e & Einit & E & msg & ->)];
              rewrite E; try discriminate Ec
          end ];
      first
        [ right; eexists _, _; split_and!;
          [ reflexivity | assumption | assumption | reflexivity
          | unfold tag_drawn, next_counter; rewrite ?Hcuda; reflexivity
          | eassumption
          | match goal with
            | H : initializeStreamsEvents_nested _ _ = _ |- _ =>
                exact (initializeStreamsEvents_nested_throws _ _ _ _ H)
            end ]
        | unfold enqueue, ret, outcome, submitted, next_counter, class_fits;
          cbn [tag_of context_of is_cuda_work USE_CUDA rank_ size_ contexts_
               collectiveCounter_ workQueue_ workInProgress_ transport head];
          rewrite ?Hcuda; split_and!; try reflexivity;
          intros ? [= <-]; rewrite Hdev; auto ]
  end.

Lemma broadcast_outcome inputs rootRank rootTensor pg :
  outcome None (head inputs) pg (broadcast inputs rootRank rootTensor pg).
Proof.
  unfold broadcast. cbv zeta.
  destruct inputs as [|t0 rest];
    checks_through (@invalidArgument unit "ProcessGroupGloo::broadcast: ").
  - empty_refuted.
  - match goal with H : check_device _ _ _ = _ |- _ => submit_work H end.
Qed.

Lemma reduce_outcome inputs rootRank rootTensor reduceOp pg :
  outcome None (head inputs) pg (reduce inputs rootRank rootTensor reduceOp pg).
Proof.
  unfold reduce. cbv zeta.
  destruct inputs as [|t0 rest];
    checks_through (@invalidArgument unit "ProcessGroupGloo::reduce: ").
  - empty_refuted.
  - match goal with H : check_device _ _ _ = _ |- _ => submit_work H end.
Qed.

Lemma allgather_outcome outputs inputs pg :
  outcome (Some outputs) (head inputs) pg (allgather outputs inputs pg).
Proof.
  unfold allgather. cbv zeta.
  destruct inputs as [|t0 rest];
    checks_through (@invalidArgument unit "ProcessGroupGloo::allgather: ").
  - empty_refuted.
  - match goal with H : check_device _ _ _ = _ |- _ => 
      submit_nested H make_AsyncAllgatherWork make_AsyncAllgatherWork_outcome
    end.
Qed.

Lemma gather_outcome outputs inputs rootRank pg :
  outcome (Some outputs) (head inputs) pg (gather outputs inputs rootRank pg).
Proof.
  unfold gather. cbv zeta.
  destruct inputs as [|t0 rest];
    checks_through (@invalidArgument unit "ProcessGroupGloo::gather: ").
  - empty_refuted.
  - match goal with H : check_device _ _ _ = _ |- _ => 
      submit_nested H make_AsyncGatherWork make_AsyncGatherWork_outcome
    end.
Qed.

Lemma scatter_outcome outputs inputs rootRank pg :
  outcome (Some inputs) (head outputs) pg (scatter outputs inputs rootRank pg).
Proof.
  unfold scatter. cbv zeta.
  destruct outputs as [|t0 rest];
    checks_through (@invalidArgument unit "ProcessGroupGloo::scatter: ").
  - empty_refuted.
  - match goal with H : check_device _ _ _ = _ |- _ => 
      submit_nested H make_AsyncScatterWork make_AsyncScatterWork_outcome
    end.
Qed.

Lemma allreduce_coalesced_outcome tensors reduceOp pg :
  outcome None (head tensors) pg (allreduce_coalesced tensors reduceOp pg).
Proof.
  unfold allreduce_coalesced. cbv zeta.
  destruct tensors as [|t0 rest];
    checks_through (@invalidArgument unit "ProcessGroupGloo::allreduce_coalesced: ").
  - empty_refuted.
  - repeat match goal with
      | H : (match ?x with _ => _ end) _ = (Ok _, _) |- _ =>
          destruct x eqn:?; try discriminate H; clear H
      end.
    unfold mbind, M_bind, nextTag, getContext, gets, enqueue, ret.
    repeat match goal with E : _ = _ |- _ => rewrite E end. simpl.
    split_and!; try reflexivity.
    intros ? [= <-]. left. split; [assumption|reflexivity].
Qed.

Lemma allreduce_outcome inputs reduceOp pg :
  outcome None (head inputs) pg (allreduce inputs reduceOp pg).
Proof.
  unfold allreduce. cbv zeta.
  destruct inputs as [|t0 rest];
    checks_through (@invalidArgument unit "ProcessGroupGloo::allreduce: ").
  - empty_refuted.
  - repeat match goal with a : unit |- _ => destruct a end.
    match goal with
    | H : check_device _ _ _ = _ |- _ =>
        apply check_device_Ok in H; [|intros; apply invalidArgument_throws];
        unfold mbind, M_bind, nextTag, getContext, gets, by_device, enqueue, ret, throw,
          invalidArgument;
        destruct H as [H|[H Hcuda]]; rewrite H; simpl; rewrite ?Hcuda; simpl
    end;
    destruct (layout t0); simpl;
    unfold submitted, tag_drawn, next_counter, class_fits; rewrite ?Hcuda;
    first [ left; split; [eexists; reflexivity|right; reflexivity]
          | split_and!; try reflexivity;
            intros ? [= <-]; simpl; rewrite ?Hcuda; auto ].
Qed.

Lemma barrier_outcome pg : outcome None None pg (barrier pg).
Proof. unfold barrier, outcome. simpl. split_and!; try reflexivity. discriminate. Qed.

(** Every entry point but [reduce_scatter]. *)
Lemma dispatch_outcome (c : Call) pg :
  is_reduce_scatter c = false ->
  outcome (nested_tensors c) (first_tensor c) pg (dispatch c pg).
Proof.
  intros Hc. destruct c; unfold dispatch; try discriminate Hc.
  - apply broadcast_outcome.
  - apply allreduce_outcome.
  - apply allreduce_coalesced_outcome.
  - apply reduce_outcome.
  - apply allgather_outcome.
  - apply gather_outcome.
  - apply scatter_outcome.
  - apply barrier_outcome.
Qed.

Lemma reduce_scatter_throws outputs inputs pg :
  reduce_scatter outputs inputs pg
  = (Throw (RuntimeError "ProcessGroupGloo does not support reduce_scatter"), pg).
Proof. reflexivity. Qed.

(** X8.  A collective that returns has enqueued the work item it returns,
    and only that: the item is at the back of the queue, its tag is the
    counter value before the call, the counter has moved on by one, its
    context is [tag % contexts_.size()], a valid index when there is a
    context, and nothing else in the group has changed. *)
Theorem dispatch_enqueues_returned_work
        (c : Call) (pg pg' : ProcessGroupGloo) (w : AsyncWork) :
  dispatch c pg = (Ok w, pg') ->
  workQueue_ pg' = workQueue_ pg ++ [w] /\
  tag_of w = collectiveCounter_ pg /\
  collectiveCounter_ pg' = (collectiveCounter_ pg + 1) mod uint32_modulus /\
  context_of w = Z.to_nat (collectiveCounter_ pg mod contexts_ pg) /\
  (0 < contexts_ pg -> Z.of_nat (context_of w) < contexts_ pg) /\
  workInProgress_ pg' = workInProgress_ pg /\
  transport pg' = transport pg /\
  (USE_CUDA pg', rank_ pg', size_ pg', contexts_ pg')
  = (USE_CUDA pg, rank_ pg, size_ pg, contexts_ pg).
Proof.
  intros Hd.
  destruct (is_reduce_scatter c) eqn:Hc.
  { destruct c; try discriminate Hc. discriminate Hd. }
  pose proof (dispatch_outcome c pg Hc) as Ho. rewrite Hd in Ho.
  destruct Ho as (-> & Htag & Hctx & _).
  split_and!; try reflexivity; auto.
  intros Hpos. rewrite Hctx.
  pose proof (Z.mod_pos_bound (collectiveCounter_ pg) (contexts_ pg) Hpos). lia.
Qed.

Lemma dispatch_enqueues_returned_work_witness :
  exists w pg',
    dispatch (CallBroadcast [ex_cuda_tensor; ex_cuda_tensor] 3 1) ex_pg_cuda = (Ok w, pg') /\
    workQueue_ pg' = workQueue_ ex_pg_cuda ++ [w] /\
    tag_of w = collectiveCounter_ ex_pg_cuda /\
    collectiveCounter_ pg' = (collectiveCounter_ ex_pg_cuda + 1) mod uint32_modulus /\
    context_of w
    = Z.to_nat (collectiveCounter_ ex_pg_cuda mod contexts_ ex_pg_cuda) /\
    (0 < contexts_ ex_pg_cuda -> Z.of_nat (context_of w) < contexts_ ex_pg_cuda) /\
    workInProgress_ pg' = workInProgress_ ex_pg_cuda /\
    transport pg' = transport ex_pg_cuda /\
    (USE_CUDA pg', rank_ pg', size_ pg', contexts_ pg')
    = (USE_CUDA ex_pg_cuda, rank_ ex_pg_cuda, size_ ex_pg_cuda, contexts_ ex_pg_cuda).
Proof.
  eexists _, _. split; [lazy; reflexivity|].
  apply (dispatch_enqueues_returned_work
           (CallBroadcast [ex_cuda_tensor; ex_cuda_tensor] 3 1) ex_pg_cuda).
  reflexivity.
Defined.

(** What a failed call leaves behind. *)
Lemma failure_keeps_queue (c : Call) (pg pg' : ProcessGroupGloo) (e : exn) :
  dispatch c pg = (Throw e, pg') ->
  pg' = pg \/ pg' = tag_drawn pg.
Proof.
  intros Hd.
  destruct (is_reduce_scatter c) eqn:Hc.
  { destruct c; try discriminate Hc. unfold dispatch in Hd.
    rewrite reduce_scatter_throws in Hd. injection Hd as <- <-. now left. }
  pose proof (dispatch_outcome c pg Hc) as Ho. rewrite Hd in Ho.
  destruct Ho as [(_ & Hpg)|(t & tensors & _ & _ & _ & _ & -> & _)]; auto.
Qed.

(** X9.  A collective that throws has enqueued nothing and made no
    transport call.  [reduce_scatter] apart, what it throws is an
    invalid-argument error, with one exception: in a build with
    [USE_CUDA], [allgather], [gather] and [scatter] on accelerator
    tensors can fail in the constructor of the accelerator work item,
    after the tag was drawn; the exception then is the one that
    [initializeStreamsEvents] throws on the nested tensor list, the
    runtime error of its same-device check unless an inner list is
    empty, and the counter has advanced.  The "Invalid backend" runtime
    error of the entry points is never raised. *)
Theorem dispatch_failure_enqueues_nothing
        (c : Call) (pg pg' : ProcessGroupGloo) (e : exn) :
  dispatch c pg = (Throw e, pg') ->
  workQueue_ pg' = workQueue_ pg /\
  workInProgress_ pg' = workInProgress_ pg /\
  transport pg' = transport pg /\
  (is_reduce_scatter c = false ->
   (exists msg, e = InvalidArgument msg) \/
   (exists t tensors,
      first_tensor c = Some t /\ device t = kCUDA /\ USE_CUDA pg = true /\
      nested_tensors c = Some tensors /\
      collectiveCounter_ pg' = next_counter pg /\
      initializeStreamsEvents_nested tensors pg' = (Throw e, pg') /\
      (e = RuntimeError "tensors in the nested tensor vectors need to be on the same device" \/
       In [] tensors))).
Proof.
  intros Hd.
  pose proof (failure_keeps_queue c pg pg' e Hd) as Hpg.
  split_and!; try (destruct Hpg as [->| ->]; reflexivity).
  intros Hc.
  pose proof (dispatch_outcome c pg Hc) as Ho. rewrite Hd in Ho.
  destruct Ho as [(Hmsg & _)|(t & tensors & Ht & Hdev & Hcuda & Hn & -> & Hinit & He)].
  - now left.
  - right. exists t, tensors. split_and!; auto.
Qed.

(** The exception of an accelerator constructor: an [allgather] whose
    output list mixes two accelerators. *)
Lemma dispatch_failure_enqueues_nothing_witness :
  exists e pg',
    dispatch (CallAllgather [[ex_cuda_tensor; ex_cuda_tensor_1; ex_cuda_tensor; ex_cuda_tensor]]
                            [ex_cuda_tensor]) ex_pg_cuda = (Throw e, pg') /\
    e = RuntimeError "tensors in the nested tensor vectors need to be on the same device" /\
    workQueue_ pg' = workQueue_ ex_pg_cuda /\
    workInProgress_ pg' = workInProgress_ ex_pg_cuda /\
    transport pg' = transport ex_pg_cuda /\
    (is_reduce_scatter
       (CallAllgather [[ex_cuda_tensor; ex_cuda_tensor_1; ex_cuda_tensor; ex_cuda_tensor]]
                      [ex_cuda_tensor]) = false ->
     (exists msg, e = InvalidArgument msg) \/
     (exists t tensors,
        first_tensor
          (CallAllgather [[ex_cuda_tensor; ex_cuda_tensor_1; ex_cuda_tensor; ex_cuda_tensor]]
                         [ex_cuda_tensor]) = Some t /\
        device t = kCUDA /\ USE_CUDA ex_pg_cuda = true /\
        nested_tensors
          (CallAllgather [[ex_cuda_tensor; ex_cuda_tensor_1; ex_cuda_tensor; ex_cuda_tensor]]
                         [ex_cuda_tensor]) = Some tensors /\
        collectiveCounter_ pg' = next_counter ex_pg_cuda /\
        initializeStreamsEvents_nested tensors pg' = (Throw e, pg') /\
        (e = RuntimeError "tensors in the nested tensor vectors need to be on the same device" \/
         In [] tensors))).
Proof.
  eexists _, _. split; [lazy; reflexivity|]. split; [reflexivity|].
  apply (dispatch_failure_enqueues_nothing
           (CallAllgather [[ex_cuda_tensor; ex_cuda_tensor_1; ex_cuda_tensor; ex_cuda_tensor]]
                          [ex_cuda_tensor]) ex_pg_cuda).
  lazy. reflexivity.
Defined.

(** X10.  The class of the work item follows the device of the first
    tensor: a collective only returns for a host tensor, with the host
    class, or for an accelerator tensor in a build with [USE_CUDA], with
    the accelerator class. *)
Theorem dispatch_picks_class_by_device
        (c : Call) (pg pg' : ProcessGroupGloo) (w : AsyncWork) (t : Tensor) :
  dispatch c pg = (Ok w, pg') ->
  first_tensor c = Some t ->
  (device t = kCPU /\ is_cuda_work w = false) \/
  (device t = kCUDA /\ USE_CUDA pg = true /\ is_cuda_work w = true).
Proof.
  intros Hd Ht.
  destruct (is_reduce_scatter c) eqn:Hc.
  { destruct c; try discriminate Hc. discriminate Hd. }
  pose proof (dispatch_outcome c pg Hc) as Ho. rewrite Hd in Ho.
  destruct Ho as (_ & _ & _ & Hfit). now apply Hfit.
Qed.

Lemma dispatch_picks_class_by_device_witness :
  exists w pg',
    dispatch (CallReduce [ex_cuda_tensor] 2 0 MAX) ex_pg_cuda = (Ok w, pg') /\
    ((device ex_cuda_tensor = kCPU /\ is_cuda_work w = false) \/
     (device ex_cuda_tensor = kCUDA /\ USE_CUDA ex_pg_cuda = true /\
      is_cuda_work w = true)).
Proof.
  eexists _, _. split; [lazy; reflexivity|].
  eapply (dispatch_picks_class_by_device (CallReduce [ex_cuda_tensor] 2 0 MAX) ex_pg_cuda).
  - reflexivity.
  - reflexivity.
Defined.

Lemma dispatch_step_queue (c : Call) (pg : ProcessGroupGloo) :
  workQueue_ (snd (dispatch c pg)) = workQueue_ pg ++ works [fst (dispatch c pg)] /\
  workInProgress_ (snd (dispatch c pg)) = workInProgress_ pg /\
  transport (snd (dispatch c pg)) = transport pg.
Proof.
  destruct (is_reduce_scatter c) eqn:Hc.
  { destruct c; try discriminate Hc. unfold dispatch.
    rewrite reduce_scatter_throws. simpl. rewrite app_nil_r. auto. }
  pose proof (dispatch_outcome c pg Hc) as Ho.
  destruct (dispatch c pg) as [[w|e] pg1]; simpl in *.
  - destruct Ho as (-> & _). auto.
  - destruct Ho as [(_ & [->| ->])|(t & tensors & _ & _ & _ & _ & -> & _)];
      simpl; rewrite app_nil_r; auto.
Qed.

Lemma queue_after_dispatch_all (calls : list Call) :
  forall pg,
    workQueue_ (snd (dispatch_all calls pg))
    = workQueue_ pg ++ works (fst (dispatch_all calls pg)) /\
    workInProgress_ (snd (dispatch_all calls pg)) = workInProgress_ pg /\
    transport (snd (dispatch_all calls pg)) = transport pg.
Proof.
  induction calls as [|c calls IH]; intros pg; simpl.
  - rewrite app_nil_r. auto.
  - destruct (dispatch_step_queue c pg) as (Hq & Hp & Ht).
    destruct (dispatch c pg) as [r pg1]. simpl in *.
    destruct (IH pg1) as (Hq' & Hp' & Ht').
    destruct (dispatch_all calls pg1) as [rs pg2]. simpl in *.
    rewrite Hq', Hp', Ht', Hq, Hp, Ht. split_and!; auto.
    rewrite <- app_assoc. f_equal. destruct r; reflexivity.
Qed.

(** X13.  A sparse allreduce with a reduction other than SUM is refused
    before a tag is drawn: the group is as it was. *)
Theorem sparse_allreduce_needs_sum
        (t0 : Tensor) (rest : list Tensor) (reduceOp : ReduceOp) (pg : ProcessGroupGloo) :
  layout t0 = kSparse ->
  reduceOp <> SUM ->
  exists msg, allreduce (t0 :: rest) reduceOp pg = (Throw (InvalidArgument msg), pg).
Proof.
  intros Hl Hop. unfold allreduce. cbv zeta.
  pose proof (is_check_validators (@invalidArgument unit "ProcessGroupGloo::allreduce: ")
                (is_check_invalidArgument _)) as Hv.
  repeat first
    [ rewrite bind_front_cons
    | apply bind_is_check;
      [ first [ solve [apply Hv] | solve [is_check_tac; try apply Hv] ]
      | intros ?; eexists; reflexivity
      | intros ? ? ] ].
  exfalso.
  match goal with
  | H : when _ _ _ = (Ok _, _) |- _ =>
      rewrite Hl in H; destruct reduceOp; try discriminate H; now apply Hop
  end.
Qed.

Lemma sparse_allreduce_needs_sum_witness :
  exists msg, allreduce [ex_sparse_tensor] MAX ex_pg = (Throw (InvalidArgument msg), ex_pg).
Proof.
  apply (sparse_allreduce_needs_sum ex_sparse_tensor [] MAX ex_pg).
  - reflexivity.
  - discriminate.
Defined.

Lemma when_Ok (b : bool) (w msg : string) (a : unit) (pg pg' : ProcessGroupGloo) :
  when b (invalidArgument w msg) pg = (Ok a, pg') -> b = false.
Proof. destruct b; [discriminate|reflexivity]. Qed.

Lemma for_each_Ok {A : Type} (f : A -> M unit) (l : list A) (pg : ProcessGroupGloo) :
  (forall a, is_check (f a)) ->
  forall u, for_each f l pg = (Ok u, pg) ->
  forall a, In a l -> f a pg = (Ok tt, pg).
Proof.
  intros Hf. induction l as [|x l IH]; intros u Hrun a Ha; [destruct Ha|].
  simpl in Hrun. unfold mbind, M_bind in Hrun.
  destruct (Hf x pg) as [([] & Hx)|(msg & Hx)]; rewrite Hx in Hrun; [|discriminate].
  destruct Ha as [<-|Ha]; [exact Hx|]. eapply IH; eauto.
Qed.

Lemma for_each_from_Ok {A : Type} (f : nat -> A -> M unit) (l : list A)
      (pg : ProcessGroupGloo) :
  (forall i a, is_check (f i a)) ->
  forall i u, for_each_from i f l pg = (Ok u, pg) ->
  forall k a, l !! k = Some a -> f (i + k)%nat a pg = (Ok tt, pg).
Proof.
  intros Hf. induction l as [|x l IH]; intros i u Hrun k a Hk; [discriminate Hk|].
  simpl in Hrun. unfold mbind, M_bind in Hrun.
  destruct (Hf i x pg) as [([] & Hx)|(msg & Hx)]; rewrite Hx in Hrun; [|discriminate].
  destruct k as [|k]; simpl in Hk.
  - injection Hk as <-. rewrite Nat.add_0_r. exact Hx.
  - replace (i + S k)%nat with (S i + k)%nat by lia. eapply IH; eauto.
Qed.

Lemma type_and_sizes_Ok (w : string) (l : list Tensor) (type : Tensor) (sizes : list Z)
      (u : unit) (pg : ProcessGroupGloo) :
  assertTypeAndSizesMatch_with (invalidArgument w) l type sizes pg = (Ok u, pg) ->
  forall t, In t l -> type_eqb t type = true /\ tsizes t = sizes.
Proof.
  unfold assertTypeAndSizesMatch_with. intros Hrun t Ht.
  eapply for_each_Ok in Hrun; [|is_check_tac|exact Ht].
  cbv beta in Hrun. unfold mbind, M_bind in Hrun.
  destruct (type_eqb t type); [|discriminate]. simpl in Hrun.
  unfold sizes_eqb in Hrun.
  destruct (bool_decide (tsizes t = sizes)) eqn:Hs; [|discriminate].
  apply bool_decide_eq_true_1 in Hs. auto.
Qed.

(** X14.  What [allgather] has checked when it returns: there is an input,
    there are as many output lists as inputs, every output list holds
    [inputs.size() * size_] tensors, and every input and output tensor
    is strided like, and has the type and the sizes of, the first
    input.  These are the conditions under which the work item's run
    copies a row of the gathered buffer into each output. *)
Theorem allgather_accepts (outputs : list (list Tensor)) (inputs : list Tensor)
        (pg pg' : ProcessGroupGloo) (work : AsyncWork) :
  allgather outputs inputs pg = (Ok work, pg') ->
  exists t0,
    head inputs = Some t0 /\
    length outputs = length inputs /\
    Forall (fun o => Z.of_nat (length o) = Z.of_nat (length inputs) * size_ pg) outputs /\
    Forall (fun t => layout t = kStrided) inputs /\
    Forall (fun t => type_eqb t t0 = true /\ tsizes t = tsizes t0)
           (inputs ++ concat outputs).
Proof.
  unfold allgather. cbv zeta.
  pose proof (is_check_validators (@invalidArgument unit "ProcessGroupGloo::allgather: ")
                (is_check_invalidArgument _)) as Hv.
  destruct inputs as [|t0 rest];
    repeat first
      [ rewrite bind_front_cons
      | apply bind_is_check;
        [ first [ solve [apply Hv] | solve [is_check_tac; try apply Hv] ]
        | intros ?; discriminate
        | intros ? ? ] ].
  - match goal with
    | H : when (length [] =? 0)%nat _ _ = (Ok _, _) |- _ => discriminate H
    end.
  - intros _. exists t0.
    repeat match goal with
      | H : gets _ _ = (Ok _, _) |- _ => injection H as <-
      end.
    repeat match goal with
      | H : when _ _ _ = (Ok _, _) |- _ => apply when_Ok in H
      end.
    match goal with
    | H : negb (length (t0 :: rest) =? length outputs)%nat = false |- _ =>
        apply negb_false_iff, Nat.eqb_eq in H; rename H into Hlen
    end.
    split_and!; auto.
    + apply Forall_forall. intros o Ho. apply list_elem_of_lookup_1 in Ho as [k Hk].
      match goal with
      | H : for_each_from 0 _ outputs pg = _ |- _ =>
          eapply for_each_from_Ok in H; [|is_check_tac|exact Hk];
          cbv beta in H; apply when_Ok, negb_false_iff, Z.eqb_eq in H; exact H
      end.
    + apply Forall_forall. intros t Ht. rewrite list_elem_of_In in Ht.
      match goal with
      | H : assertDense _ (t0 :: rest) pg = _ |- _ =>
          unfold assertDense in H;
          eapply for_each_Ok in H; [|is_check_tac|exact Ht];
          cbv beta in H; apply when_Ok, negb_false_iff in H;
          destruct (layout t); try discriminate H; reflexivity
      end.
    + apply Forall_forall. intros t Ht. rewrite list_elem_of_In in Ht.
      apply in_app_or in Ht as [Ht|Ht].
      * match goal with
        | H : assertTypeAndSizesMatch_with _ (t0 :: rest) _ _ pg = _ |- _ =>
            exact (type_and_sizes_Ok _ _ _ _ _ _ H t Ht)
        end.
      * apply in_concat in Ht as (o & Ho & Ht).
        match goal with
        | H : for_each (fun o => assertTypeAndSizesMatch_with _ o _ _) outputs pg = _ |- _ =>
            eapply for_each_Ok in H;
            [|intros; apply Hv|exact Ho];
            exact (type_and_sizes_Ok _ _ _ _ _ _ H t Ht)
        end.
Qed.

Lemma allgather_accepts_witness :
  exists t0,
    head [ex_cpu_tensor] = Some t0 /\
    length [[ex_cpu_tensor; ex_cpu_tensor; ex_cpu_tensor; ex_cpu_tensor]]
    = length [ex_cpu_tensor] /\
    Forall (fun o => Z.of_nat (length o) = Z.of_nat (length [ex_cpu_tensor]) * size_ ex_pg)
           [[ex_cpu_tensor; ex_cpu_tensor; ex_cpu_tensor; ex_cpu_tensor]] /\
    Forall (fun t => layout t = kStrided) [ex_cpu_tensor] /\
    Forall (fun t => type_eqb t t0 = true /\ tsizes t = tsizes t0)
           ([ex_cpu_tensor]
              ++ concat [[ex_cpu_tensor; ex_cpu_tensor; ex_cpu_tensor; ex_cpu_tensor]]).
Proof.
  eapply (allgather_accepts
            [[ex_cpu_tensor; ex_cpu_tensor; ex_cpu_tensor; ex_cpu_tensor]]
            [ex_cpu_tensor] ex_pg).
  lazy. reflexivity.
Defined.

(** X29.  What [gather] has checked when it returns: the root rank
    is a rank of the group, there is exactly one input and it is strided;
    on the root there is exactly one output list, with [size_] tensors of
    the type and the sizes of the input, and on every other rank there is
    no output list at all. *)
Theorem gather_accepts (outputs : list (list Tensor)) (inputs : list Tensor)
        (rootRank : Z) (pg pg' : ProcessGroupGloo) (work : AsyncWork) :
  gather outputs inputs rootRank pg = (Ok work, pg') ->
  exists t0,
    inputs = [t0] /\
    layout t0 = kStrided /\
    0 <= rootRank < size_ pg /\
    (rank_ pg = rootRank ->
     exists o, outputs = [o] /\ Z.of_nat (length o) = size_ pg /\
               Forall (fun t => type_eqb t t0 = true /\ tsizes t = tsizes t0) o) /\
    (rank_ pg <> rootRank -> outputs = []).
Proof.
  unfold gather. cbv zeta.
  pose proof (is_check_validators (@invalidArgument unit "ProcessGroupGloo::gather: ")
                (is_check_invalidArgument _)) as Hv.
  destruct inputs as [|t0 rest];
    repeat first
      [ rewrite bind_front_cons
      | apply bind_is_check;
        [ first [ solve [apply Hv] | solve [is_check_tac; try apply Hv] ]
        | intros ?; discriminate
        | intros ? ? ] ].
  - match goal with
    | H : assertSingleElementInput _ [] _ = (Ok _, _) |- _ => discriminate H
    end.
  - intros _. exists t0.
    repeat match goal with
      | H : gets _ _ = (Ok _, _) |- _ => injection H as <-
      end.
    match goal with
    | H : assertSingleElementInput _ (t0 :: rest) pg = _ |- _ =>
        unfold assertSingleElementInput in H; apply when_Ok, negb_false_iff in H;
        destruct rest; [clear H|discriminate H]
    end.
    match goal with
    | H : assertRootRank _ rootRank _ pg = _ |- _ =>
        unfold assertRootRank in H; apply when_Ok, orb_false_iff in H;
        destruct H as [Hlo Hhi]; apply Z.ltb_ge in Hlo; apply Z.leb_gt in Hhi
    end.
    match goal with
    | H : assertDense _ [t0] pg = _ |- _ =>
        unfold assertDense in H;
        eapply for_each_Ok in H; [|is_check_tac|left; reflexivity];
        cbv beta in H; apply when_Ok, negb_false_iff in H; rename H into Hdense
    end.
    split_and!; auto; try lia.
    + destruct (layout t0); try discriminate Hdense; reflexivity.
    + intros Hrank.
      match goal with
      | H : (if rank_ pg =? rootRank then _ else _) pg = _ |- _ =>
          rewrite (proj2 (Z.eqb_eq _ _) Hrank) in H;
          destruct outputs as [|o [|o' outputs']]; try discriminate H;
          unfold mbind, M_bind in H;
          destruct (when _ _ pg) as [[[]|e] pg1] eqn:Hw; try discriminate H;
          pose proof Hw as Hpg; apply when_Ok, negb_false_iff, Z.eqb_eq in Hw;
          assert (pg1 = pg) by (destruct (negb _) in Hpg; [discriminate Hpg|];
                                injection Hpg as <-; reflexivity);
          subst pg1
      end.
      exists o. split_and!; auto.
      apply Forall_forall. intros t Ht. rewrite list_elem_of_In in Ht.
      match goal with
      | H : assertTypeAndSizesMatch_with _ o _ _ pg = (Ok _, pg) |- _ =>
          exact (type_and_sizes_Ok _ _ _ _ _ _ H t Ht)
      end.
    + intros Hrank.
      match goal with
      | H : (if rank_ pg =? rootRank then _ else _) pg = _ |- _ =>
          rewrite (proj2 (Z.eqb_neq _ _) Hrank) in H;
          apply when_Ok, negb_false_iff, Nat.eqb_eq in H;
          destruct outputs; [reflexivity|discriminate H]
      end.
Qed.

Lemma gather_accepts_witness :
  exists t0,
    [ex_cpu_tensor] = [t0] /\
    layout t0 = kStrided /\
    0 <= 0 < size_ ex_pg /\
    (rank_ ex_pg = 0 ->
     exists o, [[ex_cpu_tensor; ex_cpu_tensor; ex_cpu_tensor; ex_cpu_tensor]] = [o] /\
               Z.of_nat (length o) = size_ ex_pg /\
               Forall (fun t => type_eqb t t0 = true /\ tsizes t = tsizes t0) o) /\
    (rank_ ex_pg <> 0 ->
     [[ex_cpu_tensor; ex_cpu_tensor; ex_cpu_tensor; ex_cpu_tensor]] = []).
Proof.
  eapply (gather_accepts
            [[ex_cpu_tensor; ex_cpu_tensor; ex_cpu_tensor; ex_cpu_tensor]]
            [ex_cpu_tensor] 0 ex_pg).
  lazy. reflexivity.
Defined.

End DispatchQueueFacts.

(** ** Point-to-point calls: every outcome *)

Module P2PMoreFacts.
Import Dispatch DispatchSpec P2P.

Lemma checkSingleTensor_Ok (tensors : list Tensor) (t : Tensor) (pg pg' : ProcessGroupGloo) :
  checkSingleTensor tensors pg = (Ok t, pg') ->
  tensors = [t] /\ contiguous t = true /\ is_sparse t = false /\ pg' = pg.
Proof.
  unfold checkSingleTensor.
  destruct tensors as [|t1 [|t2 rest]]; try discriminate.
  destruct (contiguous t1) eqn:Hc; simpl; try discriminate.
  destruct (is_sparse t1) eqn:Hs; try discriminate.
  intros [= <- <-]. auto.
Qed.

Lemma checkSingleTensor_Throw (tensors : list Tensor) (e : exn) (pg pg' : ProcessGroupGloo) :
  checkSingleTensor tensors pg = (Throw e, pg') ->
  pg' = pg /\ exists msg, e = RuntimeError msg.
Proof.
  unfold checkSingleTensor.
  destruct tensors as [|t1 [|t2 rest]].
  - intros [= <- <-]; eauto.
  - destruct (contiguous t1); simpl.
    + destruct (is_sparse t1); [intros [= <- <-]; eauto|discriminate].
    + intros [= <- <-]; eauto.
  - intros [= <- <-]; eauto.
Qed.

(** X15.  A point-to-point call that returns was given one contiguous dense
    tensor and a tag that is not negative; it has created one unbound
    buffer for that tensor on context [tag % contexts_.size()] and made
    one call on it, and has touched neither the collective counter nor
    the work queue. *)
Theorem p2p_success (c : P2PCall) (pg pg' : ProcessGroupGloo) (work : P2PWork) :
  p2p c pg = (Ok work, pg') ->
  p2p_tensors c = [tensor_ work] /\
  contiguous (tensor_ work) = true /\
  is_sparse (tensor_ work) = false /\
  0 <= p2p_tag c /\
  transport pg'
  = transport pg ++ [createUnboundBuffer (Z.to_nat (p2p_tag c mod contexts_ pg))
                                         (tensor_ work);
                     buffer_call (size_ pg) c] /\
  collectiveCounter_ pg' = collectiveCounter_ pg /\
  workQueue_ pg' = workQueue_ pg /\
  workInProgress_ pg' = workInProgress_ pg.
Proof.
  destruct c as [tensors dst tag|tensors src tag|tensors tag];
    unfold p2p, send, recv, recvAnysource, mbind, M_bind;
    (destruct (checkSingleTensor tensors pg) as [[t|e] pg1] eqn:Hc; [|discriminate]);
    apply checkSingleTensor_Ok in Hc as (-> & Hcont & Hsp & ->);
    unfold checkTag;
    (destruct (tag <? 0) eqn:Htag; [discriminate|]);
    apply Z.ltb_ge in Htag; simpl;
    intros [= <- <-]; simpl; rewrite <- app_assoc; split_and!; auto.
Qed.

Lemma p2p_success_witness :
  exists work pg',
    p2p (CallRecvAnysource [ex_cpu_tensor] 7) ex_pg = (Ok work, pg') /\
    p2p_tensors (CallRecvAnysource [ex_cpu_tensor] 7) = [tensor_ work] /\
    contiguous (tensor_ work) = true /\
    is_sparse (tensor_ work) = false /\
    0 <= p2p_tag (CallRecvAnysource [ex_cpu_tensor] 7) /\
    transport pg'
    = transport ex_pg
      ++ [createUnboundBuffer
            (Z.to_nat (p2p_tag (CallRecvAnysource [ex_cpu_tensor] 7) mod contexts_ ex_pg))
            (tensor_ work);
          buffer_call (size_ ex_pg) (CallRecvAnysource [ex_cpu_tensor] 7)] /\
    collectiveCounter_ pg' = collectiveCounter_ ex_pg /\
    workQueue_ pg' = workQueue_ ex_pg /\
    workInProgress_ pg' = workInProgress_ ex_pg.
Proof.
  eexists _, _. split; [lazy; reflexivity|].
  apply (p2p_success (CallRecvAnysource [ex_cpu_tensor] 7) ex_pg).
  reflexivity.
Defined.

(** X16.  A point-to-point call that throws has thrown a runtime error
    before it created a buffer: the group, and with it the record of
    transport calls, is as it was.  The arguments were then not one
    contiguous dense tensor with a tag that is not negative. *)
Theorem p2p_failure (c : P2PCall) (pg pg' : ProcessGroupGloo) (e : exn) :
  p2p c pg = (Throw e, pg') ->
  pg' = pg /\
  (exists msg, e = RuntimeError msg) /\
  ~ (exists t, p2p_tensors c = [t] /\ contiguous t = true /\ is_sparse t = false /\
               0 <= p2p_tag c).
Proof.
  destruct c as [tensors dst tag|tensors src tag|tensors tag];
    unfold p2p, send, recv, recvAnysource, mbind, M_bind;
    (destruct (checkSingleTensor tensors pg) as [[t|e1] pg1] eqn:Hc;
     [ apply checkSingleTensor_Ok in Hc as (-> & Hcont & Hsp & ->);
       unfold checkTag;
       (destruct (tag <? 0) eqn:Htag; [|simpl; discriminate]);
       apply Z.ltb_lt in Htag; simpl; intros [= <- <-];
       split_and!; eauto;
       intros (t' & _ & _ & _ & Hge); simpl in Hge; lia
     | intros [= <- <-];
       pose proof Hc as Hc';
       apply checkSingleTensor_Throw in Hc' as (-> & Hmsg);
       split_and!; auto;
       intros (t' & Ht & Hcont & Hsp & _); simpl in Ht; subst tensors;
       unfold checkSingleTensor in Hc; rewrite Hcont, Hsp in Hc; discriminate ]).
Qed.

Lemma p2p_failure_witness :
  exists e pg',
    p2p (CallSend [ex_strided_view] 1 0) ex_pg = (Throw e, pg') /\
    pg' = ex_pg /\
    (exists msg, e = RuntimeError msg) /\
    ~ (exists t, p2p_tensors (CallSend [ex_strided_view] 1 0) = [t] /\
                 contiguous t = true /\ is_sparse t = false /\
                 0 <= p2p_tag (CallSend [ex_strided_view] 1 0)).
Proof.
  eexists _, _. split; [lazy; reflexivity|].
  apply (p2p_failure (CallSend [ex_strided_view] 1 0) ex_pg).
  reflexivity.
Defined.

End P2PMoreFacts.

(** ** A failed wait is remembered *)

Module RecvWorkMoreFacts.
Import RecvWork.

Lemma waits_app (o1 o2 : list WaitRecv) (w : t) :
  waits (o1 ++ o2) w = waits o2 (waits o1 w).
Proof. unfold waits. apply fold_left_app. Qed.

Lemma wait_received_keeps_exception (sender : Z) (w : t) :
  exception_ (snd (wait (Received sender) w)) = exception_ w.
Proof. unfold wait. simpl. destruct (exception_ w); reflexivity. Qed.

Lemma waits_received_keep_exception (outcomes : list WaitRecv) (w : t) :
  Forall (fun o => exists sender, o = Received sender) outcomes ->
  exception_ (waits outcomes w) = exception_ w.
Proof.
  unfold waits. revert w.
  induction outcomes as [|o outcomes IH]; intros w HF; simpl; [reflexivity|].
  apply Forall_cons in HF as [(sender & ->) HF].
  rewrite IH by exact HF. apply wait_received_keeps_exception.
Qed.

(** X17.  [exception_] is never reset: once a [wait()] has failed with
    [e], every later [wait()] in which the receive completes throws [e]
    again, although it has stored the sender, which [sourceRank()] then
    reports. *)
Theorem wait_rethrows_stored_exception
        (before after : list WaitRecv) (e : exn) (sender : Z) (w : t) :
  Forall (fun o => exists s, o = Received s) after ->
  fst (wait (Received sender) (waits (before ++ Failed e :: after) w)) = Throw e /\
  sourceRank (snd (wait (Received sender) (waits (before ++ Failed e :: after) w)))
  = sender /\
  completed_ (snd (wait (Received sender) (waits (before ++ Failed e :: after) w)))
  = true.
Proof.
  intros HF.
  assert (He : exception_ (waits (before ++ Failed e :: after) w) = Some e).
  { rewrite waits_app. change (Failed e :: after) with ([Failed e] ++ after).
    rewrite waits_app, waits_received_keep_exception by exact HF. reflexivity. }
  set (w' := waits (before ++ Failed e :: after) w) in *.
  unfold wait, sourceRank. simpl. rewrite He. auto.
Qed.

Lemma wait_rethrows_stored_exception_witness :
  fst (wait (Received 3)
            (waits ([] ++ Failed (RuntimeError "Timed out waiting for recv")
                          :: [Received 2]) new))
  = Throw (RuntimeError "Timed out waiting for recv") /\
  sourceRank (snd (wait (Received 3)
                        (waits ([] ++ Failed (RuntimeError "Timed out waiting for recv")
                                      :: [Received 2]) new)))
  = 3 /\
  completed_ (snd (wait (Received 3)
                        (waits ([] ++ Failed (RuntimeError "Timed out waiting for recv")
                                      :: [Received 2]) new)))
  = true.
Proof.
  apply (wait_rethrows_stored_exception
           [] [Received 2] (RuntimeError "Timed out waiting for recv") 3 new).
  repeat constructor. eexists. reflexivity.
Defined.

End RecvWorkMoreFacts.

(** ** The worker pool loses and repeats nothing *)

Module WorkerPoolMoreFacts.
Import WorkerPool WorkerPoolItems.

Lemma step_threads_length (p p' : Pool) :
  step p p' ->
  length (threads_ p') = length (threads_ p) /\
  length (workInProgress_ p') = length (workInProgress_ p).
Proof.
  destruct 1; simpl; unfold set_thread; rewrite ?length_insert; auto.
Qed.

Lemma reachable_lengths (n : nat) (p : Pool) :
  reachable n p -> length (threads_ p) = n /\ length (workInProgress_ p) = n.
Proof.
  induction 1 as [|p p' _ [IHt IHs] Hstep].
  - simpl. rewrite !repeat_length. auto.
  - destruct (step_threads_length p p' Hstep) as [-> ->]. auto.
Qed.

Lemma slots_step (p p' : Pool) :
  step p p' ->
  Forall2 slot_matches (threads_ p) (workInProgress_ p) ->
  Forall2 slot_matches (threads_ p') (workInProgress_ p').
Proof.
  destruct 1 as [p w0|p i w0 q Hi Hs Hq|p i w0 Hi|p i Hi|p i Hi Hs|p Hd|p Hd Hq|p Hd HF];
    simpl; unfold set_thread; intros Hinv; auto.
  - apply Forall2_insert; [exact Hinv|reflexivity].
  - destruct (Forall2_lookup_l _ _ _ _ _ Hinv Hi) as (s & Hsl & Hm).
    rewrite <- (list_insert_id _ _ _ Hsl).
    apply Forall2_insert; [exact Hinv|]. simpl in *. eauto.
  - apply Forall2_insert; [exact Hinv|reflexivity].
  - destruct (Forall2_lookup_l _ _ _ _ _ Hinv Hi) as (s & Hsl & Hm).
    rewrite <- (list_insert_id _ _ _ Hsl).
    apply Forall2_insert; [exact Hinv|]. exact Hm.
Qed.

(** X18.  The slots of [workInProgress_] follow the workers: there is one
    slot per worker thread; the slot of a worker inside
    [AsyncWork::execute] holds the item it executes, and the slot of a
    worker waiting at the head of the loop, or returned, is empty. *)
Theorem workInProgress_follows_workers (n : nat) (p : Pool) :
  reachable n p ->
  length (threads_ p) = n /\
  length (workInProgress_ p) = n /\
  forall i t, threads_ p !! i = Some t ->
    exists slot, workInProgress_ p !! i = Some slot /\ slot_matches t slot.
Proof.
  intros Hreach.
  destruct (reachable_lengths n p Hreach) as [Ht Hs].
  split_and!; auto.
  assert (Hinv : Forall2 slot_matches (threads_ p) (workInProgress_ p)).
  { clear Ht Hs. induction Hreach as [|p p' _ IH Hstep].
    - simpl. induction n; simpl; constructor; auto. reflexivity.
    - eapply slots_step; eauto. }
  intros i t Hi. eapply Forall2_lookup_l; eauto.
Qed.

Lemma ex_busy_reachable : reachable 2 ex_busy.
Proof.
  eapply reachable_step; [|apply (step_pop
    (mkPool [2%nat; 3%nat] [None; None] false [AtLoopHead; AtLoopHead] NotStarted
            [1%nat; 2%nat; 3%nat] [1%nat]) 1 2%nat [3%nat]); reflexivity].
  eapply reachable_step; [|apply (step_enqueue
    (mkPool [2%nat] [None; None] false [AtLoopHead; AtLoopHead] NotStarted
            [1%nat; 2%nat] [1%nat]) 3%nat)].
  eapply reachable_step; [|apply (step_clear
    (mkPool [2%nat] [Some 1%nat; None] false [Executed; AtLoopHead] NotStarted
            [1%nat; 2%nat] [1%nat]) 0); reflexivity].
  eapply reachable_step; [|apply (step_execute
    (mkPool [2%nat] [Some 1%nat; None] false [Executing 1%nat; AtLoopHead] NotStarted
            [1%nat; 2%nat] []) 0 1%nat); reflexivity].
  eapply reachable_step; [|apply (step_enqueue
    (mkPool [] [Some 1%nat; None] false [Executing 1%nat; AtLoopHead] NotStarted
            [1%nat] []) 2%nat)].
  eapply reachable_step; [|apply (step_pop
    (mkPool [1%nat] [None; None] false [AtLoopHead; AtLoopHead] NotStarted
            [1%nat] []) 0 1%nat []); reflexivity].
  eapply reachable_step; [apply reachable_init|].
  apply (step_enqueue (init 2) 1%nat).
Defined.

Lemma workInProgress_follows_workers_witness :
  length (threads_ ex_busy) = 2%nat /\
  length (workInProgress_ ex_busy) = 2%nat /\
  forall i t, threads_ ex_busy !! i = Some t ->
    exists slot, workInProgress_ ex_busy !! i = Some slot /\ slot_matches t slot.
Proof.
  apply (workInProgress_follows_workers 2 ex_busy). exact ex_busy_reachable.
Defined.

Lemma executing_insert (threads : list Worker) (i : nat) (t t' : Worker) :
  threads !! i = Some t ->
  in_execute t ++ executing (<[i := t']> threads)
  ≡ₚ in_execute t' ++ executing threads.
Proof.
  unfold executing. revert i.
  induction threads as [|t0 threads IH]; intros i Hi; [discriminate|].
  destruct i as [|i]; simpl in *.
  - injection Hi as ->.
    rewrite !app_assoc. f_equiv. apply Permutation_app_comm.
  - specialize (IH i Hi).
    rewrite !app_assoc.
    rewrite (Permutation_app_comm (in_execute t) (in_execute t0)).
    rewrite (Permutation_app_comm (in_execute t') (in_execute t0)).
    rewrite <- !app_assoc. f_equiv. exact IH.
Qed.

Lemma executing_insert_idle (threads : list Worker) (i : nat) (t t' : Worker) :
  threads !! i = Some t -> in_execute t = [] -> in_execute t' = [] ->
  executing (<[i := t']> threads) = executing threads.
Proof.
  unfold executing. revert i.
  induction threads as [|t0 threads IH]; intros i Hi E E'; [discriminate|].
  destruct i as [|i]; simpl in *.
  - injection Hi as ->. now rewrite E, E'.
  - f_equal. eauto.
Qed.

Lemma items_step (p p' : Pool) :
  step p p' -> destructor p' = NotStarted ->
  destructor p = NotStarted /\
  (enqueued_before_destruction p ≡ₚ items p ->
   enqueued_before_destruction p' ≡ₚ items p').
Proof.
  unfold items.
  destruct 1 as [p w0|p i w0 q Hi Hs Hq|p i w0 Hi|p i Hi|p i Hi Hs|p Hd|p Hd Hq|p Hd HF];
    simpl; unfold set_thread; intros Hd'; try discriminate Hd';
    (split; [exact Hd'|]); intros Hinv.
  - rewrite Hd'. rewrite Hinv, <- !app_assoc. reflexivity.
  - rewrite Hinv, Hq. f_equiv.
    pose proof (executing_insert (threads_ p) i AtLoopHead (Executing w0) Hi) as Hp.
    simpl in Hp. rewrite Hp. simpl.
    symmetry. apply Permutation_middle.
  - rewrite Hinv, <- !app_assoc. f_equiv.
    pose proof (executing_insert (threads_ p) i (Executing w0) Executed Hi) as Hp.
    simpl in Hp. rewrite <- Hp. reflexivity.
  - rewrite (executing_insert_idle _ _ _ _ Hi) by reflexivity. exact Hinv.
  - rewrite (executing_insert_idle _ _ _ _ Hi) by reflexivity. exact Hinv.
Qed.

(** X19.  Until the destructor begins, the pool holds every enqueued item
    exactly once: the items executed, in execution and waiting in the
    queue are, counted with repetition, the items enqueued.  No item is
    dropped and none is handed to two workers. *)
Theorem pool_keeps_every_item_once (n : nat) (p : Pool) :
  reachable n p ->
  destructor p = NotStarted ->
  enqueued_before_destruction p
  ≡ₚ executed p ++ executing (threads_ p) ++ workQueue_ p.
Proof.
  induction 1 as [|p p' Hreach IH Hstep]; intros Hd.
  - simpl. unfold executing. induction n; simpl; auto.
  - destruct (items_step p p' Hstep Hd) as [Hd0 Hkeep].
    apply Hkeep, IH, Hd0.
Qed.

Lemma pool_keeps_every_item_once_witness :
  enqueued_before_destruction ex_busy
  ≡ₚ executed ex_busy ++ executing (threads_ ex_busy) ++ workQueue_ ex_busy.
Proof.
  apply (pool_keeps_every_item_once 2 ex_busy).
  - exact ex_busy_reachable.
  - reflexivity.
Defined.

Lemma single_thread (threads : list Worker) (i : nat) (t : Worker) :
  length threads = 1%nat -> threads !! i = Some t -> i = 0%nat /\ threads = [t].
Proof.
  destruct threads as [|t0 [|t1 rest]]; try discriminate. intros _.
  destruct i as [|i]; simpl; [|discriminate]. intros [= ->]. auto.
Qed.

Lemma fifo_step (p p' : Pool) (later : list Work) :
  step p p' ->
  length (threads_ p) = 1%nat ->
  enqueued_before_destruction p ++ later = items p ->
  (destructor p = NotStarted -> later = []) ->
  exists later',
    enqueued_before_destruction p' ++ later' = items p' /\
    (destructor p' = NotStarted -> later' = []).
Proof.
  unfold items.
  destruct 1 as [p w0|p i w0 q Hi Hs Hq|p i w0 Hi|p i Hi|p i Hi Hs|p Hd|p Hd Hq|p Hd HF];
    simpl; unfold set_thread; intros Hlen Hinv Hlater;
    try (destruct (single_thread _ _ _ Hlen Hi) as [-> Hts];
         rewrite Hts in *; simpl in * ).
  - destruct (destructor p) eqn:Hd.
    + exists []. rewrite (Hlater eq_refl) in Hinv. rewrite !app_nil_r in *.
      rewrite Hinv, <- !app_assoc. auto.
    + exists (later ++ [w0]). rewrite !app_assoc, Hinv, <- !app_assoc.
      split; [reflexivity|discriminate].
    + exists (later ++ [w0]). rewrite !app_assoc, Hinv, <- !app_assoc.
      split; [reflexivity|discriminate].
    + exists (later ++ [w0]). rewrite !app_assoc, Hinv, <- !app_assoc.
      split; [reflexivity|discriminate].
  - exists later. rewrite Hinv, Hq. auto.
  - exists later. rewrite Hinv, <- !app_assoc. auto.
  - exists later. auto.
  - exists later. auto.
  - exists later. split; [exact Hinv|discriminate].
  - exists later. split; [exact Hinv|discriminate].
  - exists later. split; [exact Hinv|discriminate].
Qed.

(** X20.  A pool with one worker thread executes the items in the order in
    which they were enqueued: what was executed, then what is in
    execution, then the queue, read in this order, is the sequence of
    enqueued items (followed by those enqueued after the destructor
    began, which the history does not record). *)
Theorem single_worker_is_fifo (p : Pool) :
  reachable 1 p ->
  exists later,
    enqueued_before_destruction p ++ later
    = executed p ++ executing (threads_ p) ++ workQueue_ p /\
    (destructor p = NotStarted -> later = []).
Proof.
  induction 1 as [|p p' Hreach (later & Hinv & Hlater) Hstep].
  - exists []. split; reflexivity.
  - destruct (reachable_lengths 1 p Hreach) as [Hlen _].
    eapply fifo_step; eauto.
Qed.

Lemma ex_single_reachable : reachable 1 ex_single.
Proof.
  eapply reachable_step; [|apply (step_enqueue
    (mkPool [] [None] false [AtLoopHead] WaitingForEmptyQueue
            [1%nat; 2%nat] [1%nat; 2%nat]) 3%nat)].
  eapply reachable_step; [|apply (step_destroy
    (mkPool [] [None] false [AtLoopHead] NotStarted
            [1%nat; 2%nat] [1%nat; 2%nat])); reflexivity].
  eapply reachable_step; [|apply (step_clear
    (mkPool [] [Some 2%nat] false [Executed] NotStarted
            [1%nat; 2%nat] [1%nat; 2%nat]) 0); reflexivity].
  eapply reachable_step; [|apply (step_execute
    (mkPool [] [Some 2%nat] false [Executing 2%nat] NotStarted
            [1%nat; 2%nat] [1%nat]) 0 2%nat); reflexivity].
  eapply reachable_step; [|apply (step_pop
    (mkPool [2%nat] [None] false [AtLoopHead] NotStarted
            [1%nat; 2%nat] [1%nat]) 0 2%nat []); reflexivity].
  eapply reachable_step; [|apply (step_clear
    (mkPool [2%nat] [Some 1%nat] false [Executed] NotStarted
            [1%nat; 2%nat] [1%nat]) 0); reflexivity].
  eapply reachable_step; [|apply (step_execute
    (mkPool [2%nat] [Some 1%nat] false [Executing 1%nat] NotStarted
            [1%nat; 2%nat] []) 0 1%nat); reflexivity].
  eapply reachable_step; [|apply (step_enqueue
    (mkPool [] [Some 1%nat] false [Executing 1%nat] NotStarted
            [1%nat] []) 2%nat)].
  eapply reachable_step; [|apply (step_pop
    (mkPool [1%nat] [None] false [AtLoopHead] NotStarted
            [1%nat] []) 0 1%nat []); reflexivity].
  eapply reachable_step; [apply reachable_init|].
  apply (step_enqueue (init 1) 1%nat).
Defined.

Lemma single_worker_is_fifo_witness :
  exists later,
    enqueued_before_destruction ex_single ++ later
    = executed ex_single ++ executing (threads_ ex_single) ++ workQueue_ ex_single /\
    (destructor ex_single = NotStarted -> later = []).
Proof.
  apply (single_worker_is_fifo ex_single). exact ex_single_reachable.
Defined.

End WorkerPoolMoreFacts.

(** ** Dense allreduce: what it leaves alone, and what it refuses *)

Section DenseAllreduceMore.
Context {E : Type} `{GlooTransport E}.

Lemma preserves_refl (tensors : list nat) (h : gmap nat (DenseTensor E)) :
  preserves tensors h h.
Proof. split_and!; eauto. Qed.

Lemma preserves_trans (tensors : list nat) (h1 h2 h3 : gmap nat (DenseTensor E)) :
  preserves tensors h1 h2 -> preserves tensors h2 h3 -> preserves tensors h1 h3.
Proof.
  intros (F1 & S1 & N1) (F2 & S2 & N2). split_and!.
  - intros t Ht. rewrite F2, F1; auto.
  - intros t x Hx. destruct (S1 t x Hx) as (x1 & Hx1 & Ht1 & Hs1).
    destruct (S2 t x1 Hx1) as (x2 & Hx2 & Ht2 & Hs2).
    exists x2. split_and!; congruence.
  - auto.
Qed.

Lemma preserves_mono (ts1 ts2 : list nat) (h h' : gmap nat (DenseTensor E)) :
  (forall t, In t ts1 -> In t ts2) -> preserves ts1 h h' -> preserves ts2 h h'.
Proof.
  intros Hsub (F & S & N). split_and!; auto.
Qed.

Lemma preserves_alter (tensors : list nat) (h : gmap nat (DenseTensor E))
      (t : nat) (d : list E) :
  In t tensors -> preserves tensors h (alter (set_data d) t h).
Proof.
  intros Hin. split_and!.
  - intros k Hk. apply lookup_alter_ne. congruence.
  - intros k x Hx. destruct (decide (t = k)) as [->|Hne].
    + rewrite lookup_alter_eq, Hx. simpl. eauto.
    + rewrite lookup_alter_ne by exact Hne. eauto.
  - intros k Hk. destruct (decide (t = k)) as [->|Hne].
    + rewrite lookup_alter_eq, Hk. reflexivity.
    + rewrite lookup_alter_ne by exact Hne. exact Hk.
Qed.

Lemma preserves_insert (tensors : list nat) (h : gmap nat (DenseTensor E))
      (t : nat) (x : DenseTensor E) (d : list E) :
  In t tensors -> h !! t = Some x -> preserves tensors h (<[t := set_data d x]> h).
Proof.
  intros Hin Hx. split_and!.
  - intros k Hk. apply lookup_insert_ne. congruence.
  - intros k y Hy. destruct (decide (t = k)) as [->|Hne].
    + rewrite lookup_insert_eq. rewrite Hx in Hy. injection Hy as <-. simpl. eauto.
    + rewrite lookup_insert_ne by exact Hne. eauto.
  - intros k Hk. destruct (decide (t = k)) as [->|Hne]; [congruence|].
    rewrite lookup_insert_ne by exact Hne. exact Hk.
Qed.

Lemma write_outputs_preserves (tensors : list nat) (new : list (list E))
      (h : gmap nat (DenseTensor E)) :
  preserves tensors h (write_outputs h tensors new).
Proof.
  unfold write_outputs.
  assert (Hin : forall td, In td (combine tensors new) -> In (fst td) tensors).
  { intros [t d] Htd. eapply in_combine_l; eauto. }
  revert h Hin. generalize (combine tensors new) as tds.
  induction tds as [|[t d] tds IH]; intros h Hin; simpl.
  - apply preserves_refl.
  - eapply preserves_trans; [|apply IH; intros td Htd; apply Hin; now right].
    apply preserves_alter. apply (Hin (t, d)). now left.
Qed.

Lemma copy__preserves (tensors : list nat) (h h' : gmap nat (DenseTensor E))
      (dst src : nat) :
  In dst tensors -> copy_ h dst src = Ok h' -> preserves tensors h h'.
Proof.
  intros Hin. unfold copy_, lookup_tensor.
  destruct (h !! src) as [s|]; [|discriminate].
  destruct (h !! dst) as [d|] eqn:Hd; [|discriminate]. simpl.
  destruct (bool_decide _); [|discriminate].
  intros [= <-]. now apply preserves_insert.
Qed.

Lemma copy_first_preserves (tensors rest : list nat) (first : nat) :
  forall h h' : gmap nat (DenseTensor E),
    (forall t, In t rest -> In t tensors) ->
    copy_first h first rest = Ok h' -> preserves tensors h h'.
Proof.
  induction rest as [|t rest IH]; intros h h' Hsub; simpl.
  - intros [= <-]. apply preserves_refl.
  - destruct (copy_ h t first) as [h1|e] eqn:Hc; [|discriminate]. simpl.
    intros Hrun. eapply preserves_trans.
    + eapply copy__preserves; [|exact Hc]. apply Hsub. now left.
    + apply IH; [|exact Hrun]. intros t' Ht'. apply Hsub. now right.
Qed.

Lemma dense_allreduce_preserves (work : AsyncAllreduceWork) (tensors : list nat)
      (h h' : gmap nat (DenseTensor E)) :
  dense_allreduce work h tensors = Ok h' -> preserves tensors h h'.
Proof.
  unfold dense_allreduce. destruct tensors as [|t0 rest]; [discriminate|].
  intros Hrun. bind_inv Hrun. injection Hrun as <-.
  apply write_outputs_preserves.
Qed.

(** X21.  Whatever the transport does to the buffers, [run] of the dense
    allreduce writes to its input tensors only: every other tensor of
    the store holds what it held, no tensor appears or disappears, and
    no tensor changes its type or shape. *)
Theorem dense_run_touches_only_inputs (work : AsyncAllreduceWork)
        (h h' : gmap nat (DenseTensor E)) :
  dense_run work h = Ok h' ->
  (forall t, ~ In t (aw_inputs work) -> h' !! t = h !! t) /\
  (forall t x, h !! t = Some x ->
     exists x', h' !! t = Some x' /\ d_type x' = d_type x /\ d_sizes x' = d_sizes x) /\
  (forall t, h !! t = None -> h' !! t = None).
Proof.
  unfold dense_run.
  destruct (dense_allreduce work h (aw_inputs work)) as [h1|e] eqn:Hrun; [|discriminate].
  simpl. intros Hcopy.
  apply dense_allreduce_preserves in Hrun.
  change (preserves (aw_inputs work) h h').
  eapply preserves_trans; [exact Hrun|].
  destruct (aw_inputs work) as [|t0 rest].
  - injection Hcopy as <-. apply preserves_refl.
  - eapply copy_first_preserves; [|exact Hcopy]. intros t Ht. now right.
Qed.

(** X22.  The dense allreduce is refused before the transport is reached
    when the scalar type of the first tensor is not one of the seven of
    [GENERATE_ALL_TYPES], and, for one that is, when the reduction is
    [UNUSED]; the type is looked at first. *)
Theorem dense_run_refuses (work : AsyncAllreduceWork)
        (h : gmap nat (DenseTensor E)) (t0 : nat) (x0 : DenseTensor E) :
  head (aw_inputs work) = Some t0 ->
  h !! t0 = Some x0 ->
  (~ supported_type (d_type x0) ->
   dense_run work h = Throw (RuntimeError "Invalid scalar type")) /\
  (supported_type (d_type x0) -> aw_reduceOp work = UNUSED ->
   dense_run work h = Throw (RuntimeError "Unhandled ReduceOp")).
Proof.
  intros Hhead Hx0. unfold dense_run, dense_allreduce.
  destruct (aw_inputs work) as [|t rest]; [discriminate|].
  injection Hhead as ->.
  assert (Hl : lookup_tensor h t0 = Ok x0)
    by (unfold lookup_tensor; now rewrite Hx0).
  lazy beta iota. rewrite Hl. simpl. unfold getFunction, supported_type.
  split.
  - intros Hty. destruct (d_type x0); simpl in *;
      try reflexivity; exfalso; apply Hty; reflexivity.
  - intros Hty ->. destruct (d_type x0); simpl in *; try discriminate Hty; reflexivity.
Qed.

End DenseAllreduceMore.

Lemma dense_run_touches_only_inputs_witness :
  exists h',
    @dense_run Z Doubling_Transport ex_dense_work ex_dense_heap = Ok h' /\
    (forall t, ~ In t (aw_inputs ex_dense_work) -> h' !! t = ex_dense_heap !! t) /\
    (forall t x, ex_dense_heap !! t = Some x ->
       exists x', h' !! t = Some x' /\ d_type x' = d_type x /\ d_sizes x' = d_sizes x) /\
    (forall t, ex_dense_heap !! t = None -> h' !! t = None).
Proof.
  eexists. split; [|apply (@dense_run_touches_only_inputs Z Doubling_Transport
                             ex_dense_work ex_dense_heap)].
  all: vm_compute; reflexivity.
Defined.

Lemma dense_run_refuses_witness :
  (~ supported_type (d_type (mkDense Short [3] [1; 2; 3])) ->
   @dense_run Z Loopback_Transport
     (mkAllreduceWork (mkContext 0 1) [0%nat] UNUSED 0)
     (<[0%nat := mkDense Short [3] [1; 2; 3]]> ∅)
   = Throw (RuntimeError "Invalid scalar type")) /\
  (supported_type (d_type (mkDense Short [3] [1; 2; 3])) ->
   aw_reduceOp (mkAllreduceWork (mkContext 0 1) [0%nat] UNUSED 0) = UNUSED ->
   @dense_run Z Loopback_Transport
     (mkAllreduceWork (mkContext 0 1) [0%nat] UNUSED 0)
     (<[0%nat := mkDense Short [3] [1; 2; 3]]> ∅)
   = Throw (RuntimeError "Unhandled ReduceOp")).
Proof.
  apply (@dense_run_refuses Z Loopback_Transport
           (mkAllreduceWork (mkContext 0 1) [0%nat] UNUSED 0)
           (<[0%nat := mkDense Short [3] [1; 2; 3]]> ∅) 0%nat
           (mkDense Short [3] [1; 2; 3])).
  - reflexivity.
  - vm_compute. reflexivity.
Defined.

(** ** Broadcast: every input ends up equal to the root tensor *)

Section BroadcastCorrect.
Context {E : Type}.
Variable gloo_broadcast : Z -> Z -> list E -> Result (list E).

Lemma at_index_Ok {A : Type} (v : list A) (i : Z) :
  0 <= i < Z.of_nat (length v) ->
  exists a, at_index v i = Ok a /\ v !! Z.to_nat i = Some a.
Proof.
  intros Hi. unfold at_index.
  replace (i <? 0) with false by (symmetry; apply Z.ltb_ge; lia).
  destruct (lookup_lt_is_Some_2 v (Z.to_nat i)) as [a Ha]; [lia|].
  rewrite Ha. eauto.
Qed.

Lemma copy_to_others_all (root : nat) (x0 : DenseTensor E) (rootTensor : nat)
      (inputs : list nat) :
  forall (h : gmap nat (DenseTensor E)) (i : nat) (done : list nat),
    h !! root = Some x0 ->
    (forall t, In t done -> h !! t = Some x0) ->
    (forall t, In t inputs ->
       exists x, h !! t = Some x /\ d_type x = d_type x0 /\ d_sizes x = d_sizes x0) ->
    (forall k t, inputs !! k = Some t -> (i + k)%nat = rootTensor -> t = root) ->
    exists h',
      copy_to_others h root rootTensor i inputs = Ok h' /\
      h' !! root = Some x0 /\
      forall t, In t (done ++ inputs) -> h' !! t = Some x0.
Proof.
  induction inputs as [|t rest IH]; intros h i done Hroot Hdone Hrest Hskip; simpl.
  - exists h. rewrite app_nil_r. auto.
  - destruct (Nat.eqb_spec i rootTensor) as [Heq|Hne]; simpl.
    + assert (t = root) by (apply (Hskip 0%nat); [reflexivity|lia]). subst t.
      destruct (IH h (S i) (done ++ [root])) as (h' & Hrun & Hr' & Hall); auto.
      * intros t' Ht'. apply in_app_or in Ht' as [Ht'|[<-|[]]]; auto.
      * intros t' Ht'. apply Hrest. now right.
      * intros k t' Hk Hik. apply (Hskip (S k)); [exact Hk|lia].
      * exists h'. split_and!; auto.
        intros t' Ht'. apply Hall. rewrite <- app_assoc. exact Ht'.
    + destruct (Hrest t) as (x & Hx & Hty & Hsz); [now left|].
      unfold copy_, lookup_tensor. rewrite Hroot, Hx. simpl.
      rewrite bool_decide_eq_true_2 by exact Hsz. simpl.
      rewrite (set_data_same x x0 Hty Hsz).
      assert (Hins : forall k y, h !! k = Some y ->
                (k = t /\ <[t := x0]> h !! k = Some x0) \/
                (k <> t /\ <[t := x0]> h !! k = Some y)).
      { intros k y Hk. destruct (decide (k = t)) as [->|Hn].
        - left. split; [reflexivity|apply lookup_insert_eq].
        - right. split; [exact Hn|]. rewrite lookup_insert_ne by congruence. exact Hk. }
      destruct (IH (<[t := x0]> h) (S i) (done ++ [t])) as (h' & Hrun & Hr' & Hall).
      * destruct (Hins root x0 Hroot) as [[_ Hr]|[_ Hr]]; exact Hr.
      * intros t' Ht'. apply in_app_or in Ht' as [Ht'|[<-|[]]].
        -- destruct (Hins t' x0 (Hdone t' Ht')) as [[_ Hr]|[_ Hr]]; exact Hr.
        -- apply lookup_insert_eq.
      * intros t' Ht'. destruct (Hrest t') as (x' & Hx' & Hty' & Hsz'); [now right|].
        destruct (Hins t' x' Hx') as [[_ Hr]|[_ Hr]]; eauto.
      * intros k t' Hk Hik. apply (Hskip (S k)); [exact Hk|lia].
      * exists h'. split_and!; auto.
        intros t' Ht'. apply Hall. rewrite <- app_assoc. exact Ht'.
Qed.

(** X23.  For a broadcast on a list of tensors of one supported type and
    one shape with a root tensor index inside the list, [run] performs
    the transport broadcast on [inputs[rootTensor]] and then leaves in
    every input what that tensor held after the transport call. *)
Theorem broadcast_all_equal (work : AsyncBroadcastWork)
        (h : gmap nat (DenseTensor E)) (ty : ScalarType) (sz : list Z) :
  0 <= bw_rootTensor work < Z.of_nat (length (bw_inputs work)) ->
  dense_inputs_match h (bw_inputs work) ty sz ->
  supported_type ty ->
  (forall buf, exists new,
     gloo_broadcast (bw_rootRank work) (bw_tag work) buf = Ok new) ->
  exists root h1 h' x0,
    at_index (bw_inputs work) (bw_rootTensor work) = Ok root /\
    broadcast_tensor gloo_broadcast work h root = Ok h1 /\
    h1 !! root = Some x0 /\
    broadcast_run gloo_broadcast work h = Ok h' /\
    forall t, In t (bw_inputs work) -> h' !! t = Some x0.
Proof.
  intros Hidx Hmatch Hty Htr.
  destruct (at_index_Ok (bw_inputs work) (bw_rootTensor work) Hidx) as (root & Hat & Hlk).
  assert (Hin : In root (bw_inputs work)).
  { rewrite <- list_elem_of_In. eapply list_elem_of_lookup_2; eauto. }
  destruct (Hmatch root Hin) as (x & Hx & Htx & Hsx).
  destruct (Htr (d_data x)) as (new & Hnew).
  assert (Hb : broadcast_tensor gloo_broadcast work h root
               = Ok (<[root := set_data new x]> h)).
  { unfold broadcast_tensor, lookup_tensor. rewrite Hx. simpl.
    unfold supported_type in Hty. rewrite Htx, Hty. simpl. rewrite Hnew. reflexivity. }
  destruct (copy_to_others_all root (set_data new x) (Z.to_nat (bw_rootTensor work))
              (bw_inputs work) (<[root := set_data new x]> h) 0 [])
    as (h' & Hrun & _ & Hall).
  - apply lookup_insert_eq.
  - intros t [].
  - intros t Ht. destruct (decide (t = root)) as [->|Hne].
    + rewrite lookup_insert_eq. eauto.
    + rewrite lookup_insert_ne by congruence.
      destruct (Hmatch t Ht) as (y & Hy & Hty' & Hsy).
      exists y. simpl. split_and!; congruence.
  - intros k t Hk Hik. simpl in Hik. subst k. congruence.
  - exists root, (<[root := set_data new x]> h), h', (set_data new x).
    split_and!; auto.
    + apply lookup_insert_eq.
    + unfold broadcast_run. rewrite Hat. simpl. rewrite Hb. simpl. exact Hrun.
Qed.

End BroadcastCorrect.

Lemma broadcast_all_equal_witness :
  exists root h1 h' x0,
    at_index [0%nat; 1%nat] 1 = Ok root /\
    broadcast_tensor (fun _ _ buf => Ok buf)
      (mkBroadcastWork (mkContext 0 1) [0%nat; 1%nat] 0 1 5) ex_dense_heap root = Ok h1 /\
    h1 !! root = Some x0 /\
    broadcast_run (fun _ _ buf => Ok buf)
      (mkBroadcastWork (mkContext 0 1) [0%nat; 1%nat] 0 1 5) ex_dense_heap = Ok h' /\
    forall t, In t [0%nat; 1%nat] -> h' !! t = Some x0.
Proof.
  apply (@broadcast_all_equal Z (fun _ _ buf => Ok buf)
           (mkBroadcastWork (mkContext 0 1) [0%nat; 1%nat] 0 1 5) ex_dense_heap Int [3]).
  - simpl. lia.
  - intros t [<-|[<-|[]]]; eexists; (split; [vm_compute; reflexivity|]);
      split; reflexivity.
  - reflexivity.
  - intros buf. exists buf. reflexivity.
Defined.

(** ** Coalesced allreduce: flatten, reduce, split *)

Section CoalescedCorrect.
Context {E : Type} `{GlooTransport E}.

Lemma firstn_plus {A : Type} (n m : nat) (l : list A) :
  firstn (n + m) l = firstn n l ++ firstn m (skipn n l).
Proof.
  revert l. induction n as [|n IH]; intros l; simpl; [reflexivity|].
  destruct l as [|a l]; simpl.
  - now rewrite firstn_nil.
  - now rewrite IH.
Qed.

Lemma contents_ext (h1 h2 : gmap nat (DenseTensor E)) (tensors : list nat) :
  (forall t, In t tensors -> h1 !! t = h2 !! t) ->
  contents h1 tensors = contents h2 tensors.
Proof.
  unfold contents. intros Heq. f_equal. apply map_ext_in.
  intros t Ht. now rewrite Heq.
Qed.

Lemma contents_cons (h : gmap nat (DenseTensor E)) (t : nat) (x : DenseTensor E)
      (rest : list nat) :
  h !! t = Some x -> contents h (t :: rest) = d_data x ++ contents h rest.
Proof. intros Hx. unfold contents. simpl. now rewrite Hx. Qed.

(** The loop hands every tensor the piece of the buffer that starts
    where the pieces of the tensors before it end. *)
Lemma split_coalesced_spec (buf : list E) (tensors : list nat) :
  forall (h : gmap nat (DenseTensor E)) (offset : nat),
    NoDup tensors ->
    (forall t, In t tensors -> exists x, h !! t = Some x) ->
    (offset + length (contents h tensors) <= length buf)%nat ->
    exists h',
      split_coalesced h buf offset tensors = Ok h' /\
      contents h' tensors
      = firstn (length (contents h tensors)) (skipn offset buf) /\
      preserves tensors h h' /\
      forall t x, h !! t = Some x ->
        exists x', h' !! t = Some x' /\ numel x' = numel x.
Proof.
  induction tensors as [|t rest IH]; intros h offset Hnd Hin Hlen.
  - exists h. simpl. split_and!; eauto. apply preserves_refl.
  - apply NoDup_cons in Hnd as [Hnotin Hnd].
    rewrite list_elem_of_In in Hnotin.
    destruct (Hin t) as (x & Hx); [now left|].
    rewrite (contents_cons h t x rest Hx) in *. rewrite length_app in Hlen.
    set (piece := slice buf offset (numel x)).
    assert (Hpiece : length piece = numel x).
    { unfold piece, slice, numel. rewrite length_firstn, length_skipn.
      unfold numel in *. lia. }
    set (h1 := <[t := set_data piece x]> h).
    assert (Hsame : forall t', In t' rest -> h1 !! t' = h !! t').
    { intros t' Ht'. unfold h1. apply lookup_insert_ne. congruence. }
    destruct (IH h1 (offset + numel x)%nat) as (h' & Hrun & Hcont & Hpres & Hnum).
    + exact Hnd.
    + intros t' Ht'. rewrite Hsame by exact Ht'. apply Hin. now right.
    + rewrite (contents_ext h1 h rest Hsame). unfold numel. lia.
    + exists h'. split_and!.
      * simpl. unfold lookup_tensor at 1. rewrite Hx. simpl.
        unfold view_as. fold piece. rewrite Hpiece, Nat.eqb_refl. simpl.
        unfold copy_from, lookup_tensor. rewrite Hx. simpl.
        rewrite bool_decide_eq_true_2 by reflexivity. simpl. exact Hrun.
      * destruct Hpres as (Hframe & _).
        assert (Ht' : h' !! t = Some (set_data piece x)).
        { rewrite Hframe by exact Hnotin. apply lookup_insert_eq. }
        rewrite (contents_cons h' t _ rest Ht'). simpl.
        rewrite Hcont, (contents_ext h1 h rest Hsame).
        rewrite length_app, firstn_plus. unfold piece, slice, numel.
        rewrite skipn_skipn. f_equal. f_equal. f_equal. lia.
      * eapply preserves_trans.
        -- apply (preserves_insert (t :: rest) h t x piece); [now left|exact Hx].
        -- eapply preserves_mono; [|exact Hpres]. intros t' Ht'. now right.
      * intros t' x' Hx'. destruct (decide (t' = t)) as [->|Hne].
        -- rewrite Hx in Hx'. injection Hx' as <-.
           destruct (Hnum t (set_data piece x)) as (x2 & Hx2 & Hn2).
           { apply lookup_insert_eq. }
           exists x2. split; [exact Hx2|]. rewrite Hn2. exact Hpiece.
        -- apply Hnum. unfold h1. rewrite lookup_insert_ne by congruence. exact Hx'.
Qed.

Lemma flatten_contents (h : gmap nat (DenseTensor E)) (tensors : list nat)
      (ty : ScalarType) :
  tensors <> [] ->
  (forall t, In t tensors -> exists x, h !! t = Some x /\ d_type x = ty) ->
  exists xs,
    sequence (map (lookup_tensor h) tensors) = Ok xs /\
    flattenDenseTensors xs
    = Ok (mkDense ty [Z.of_nat (length (contents h tensors))] (contents h tensors)).
Proof.
  intros Hne Hin.
  set (get := fun t => match h !! t with
                       | Some x => x
                       | None => mkDense ty [] []
                       end).
  exists (map get tensors). split.
  - apply sequence_map_Ok. intros t Ht. destruct (Hin t Ht) as (x & Hx & _).
    unfold lookup_tensor, get. now rewrite Hx.
  - assert (Hdata : concat (map d_data (map get tensors)) = contents h tensors).
    { unfold contents. rewrite map_map. f_equal. apply map_ext_in.
      intros t Ht. destruct (Hin t Ht) as (x & Hx & _). unfold get. now rewrite Hx. }
    unfold flattenDenseTensors.
    destruct tensors as [|t0 rest]; [contradiction|].
    destruct (Hin t0) as (x & Hx & Htx); [now left|].
    change (map get (t0 :: rest)) with (get t0 :: map get rest) in *.
    cbv zeta. rewrite Hdata. unfold get at 1. rewrite Hx, Htx. reflexivity.
Qed.

Lemma delete_alter_fresh (h : gmap nat (DenseTensor E)) (c : nat)
      (x : DenseTensor E) (f : DenseTensor E -> DenseTensor E) :
  h !! c = None -> delete c (alter f c (<[c := x]> h)) = h.
Proof.
  intros Hc. apply map_eq. intros k. destruct (decide (k = c)) as [->|Hne].
  - rewrite lookup_delete_eq. now rewrite Hc.
  - rewrite lookup_delete_ne, lookup_alter_ne, lookup_insert_ne by congruence.
    reflexivity.
Qed.

(** X24.  The coalesced allreduce is a round trip through one buffer: the
    contents of the tensors, laid end to end, are handed to the
    transport as a single buffer, and what the transport leaves in it is
    cut back into the tensors in the same order.  Afterwards the
    tensors, read end to end, are that buffer; each has kept its type,
    shape and number of elements, and no other tensor has changed. *)
Theorem coalesced_run_round_trip (work : AsyncAllreduceWork)
        (h : gmap nat (DenseTensor E)) (ty : ScalarType) :
  aw_inputs work <> [] ->
  NoDup (aw_inputs work) ->
  (forall t, In t (aw_inputs work) -> exists x, h !! t = Some x /\ d_type x = ty) ->
  supported_type ty ->
  aw_reduceOp work <> UNUSED ->
  transport_in_place work ->
  exists fn new h',
    getFunction ty (aw_reduceOp work) = Ok fn /\
    gloo_allreduce fn (aw_tag work) [contents h (aw_inputs work)] = Ok [new] /\
    coalesced_run work h = Ok h' /\
    contents h' (aw_inputs work) = new /\
    preserves (aw_inputs work) h h' /\
    forall t x, h !! t = Some x -> exists x', h' !! t = Some x' /\ numel x' = numel x.
Proof.
  intros Hne Hnd Hin Hty Hop Htr.
  unfold coalesced_run, allreduceCoalesced.
  set (tensors := aw_inputs work) in *.
  destruct (flatten_contents h tensors ty Hne Hin) as (xs & Hseq & Hflat).
  assert (Hfn : exists fn, getFunction ty (aw_reduceOp work) = Ok fn).
  { unfold getFunction, toFunction. unfold supported_type in Hty.
    destruct ty; try discriminate Hty; simpl;
      destruct (aw_reduceOp work); try contradiction; eauto. }
  destruct Hfn as (fn & Hfn).
  set (data := contents h tensors) in *.
  destruct (Htr fn [data]) as (news & Hnew & Hlens).
  destruct news as [|new [|? ?]]; try discriminate Hlens.
  injection Hlens as Hlen.
  set (c := fresh (dom h)).
  assert (Hc : h !! c = None).
  { apply not_elem_of_dom. apply is_fresh. }
  set (coalesced := mkDense ty [Z.of_nat (length data)] data).
  assert (Hall : dense_allreduce work (<[c := coalesced]> h) [c]
                 = Ok (alter (set_data new) c (<[c := coalesced]> h))).
  { unfold dense_allreduce, lookup_tensor. rewrite lookup_insert_eq. simpl.
    rewrite Hfn. simpl. unfold supported_type in Hty. rewrite Hty. simpl.
    rewrite lookup_insert_eq. simpl. rewrite Hnew. reflexivity. }
  destruct (split_coalesced_spec new tensors h 0) as (h' & Hrun & Hcont & Hpres & Hnum).
  - exact Hnd.
  - intros t Ht. destruct (Hin t Ht) as (x & Hx & _). eauto.
  - fold data. simpl. lia.
  - exists fn, new, h'. split_and!; auto.
    + rewrite (Result_bind_eq _ _ _ Hseq), (Result_bind_eq _ _ _ Hflat).
      cbv zeta. fold c. fold coalesced.
      rewrite (Result_bind_eq _ _ _ Hall).
      unfold lookup_tensor. rewrite lookup_alter_eq, lookup_insert_eq. simpl.
      rewrite delete_alter_fresh by exact Hc. exact Hrun.
    + rewrite Hcont. fold data. rewrite <- Hlen. simpl. apply firstn_all.
Qed.

End CoalescedCorrect.

Lemma coalesced_run_round_trip_witness :
  exists fn new h',
    getFunction Int (aw_reduceOp ex_coalesced_work) = Ok fn /\
    @gloo_allreduce Z Doubling_Transport fn (aw_tag ex_coalesced_work)
      [contents ex_coalesced_heap (aw_inputs ex_coalesced_work)] = Ok [new] /\
    @coalesced_run Z Doubling_Transport ex_coalesced_work ex_coalesced_heap = Ok h' /\
    contents h' (aw_inputs ex_coalesced_work) = new /\
    preserves (aw_inputs ex_coalesced_work) ex_coalesced_heap h' /\
    forall t x, ex_coalesced_heap !! t = Some x ->
      exists x', h' !! t = Some x' /\ numel x' = numel x.
Proof.
  apply (@coalesced_run_round_trip Z Doubling_Transport ex_coalesced_work
           ex_coalesced_heap Int).
  - simpl. discriminate.
  - simpl. repeat constructor; rewrite list_elem_of_In; simpl; intuition discriminate.
  - intros t [<-|[<-|[]]]; eexists; (split; [vm_compute; reflexivity|]); reflexivity.
  - reflexivity.
  - simpl. discriminate.
  - intros fn bufs. eexists. split; [reflexivity|].
    rewrite map_map. apply map_ext. intros buf. apply length_map.
Defined.

(** ** Allgather and gather: the outputs are the rows of the flat buffer *)

Section UnflattenCorrect.
Context {E : Type}.

Lemma select_row (ty : ScalarType) (sz : list Z) (flat : list E) (N m j : nat) :
  length flat = (N * m)%nat -> (j < N)%nat ->
  select ty (Z.of_nat N :: sz) flat j = Ok (mkDense ty sz (slice flat (j * m) m)).
Proof.
  intros Hlen Hj. unfold select.
  replace (Z.of_nat j <? Z.of_nat N) with true by (symmetry; apply Z.ltb_lt; lia).
  rewrite Nat2Z.id, Hlen, (Nat.mul_comm N m), Nat.div_mul by lia. reflexivity.
Qed.

(** One output list: its [k]-th tensor receives row [j + k]. *)
Lemma unflatten_into_spec (ty : ScalarType) (sz : list Z) (flat : list E) (N m : nat)
      (output : list nat) :
  length flat = (N * m)%nat ->
  forall (h : gmap nat (DenseTensor E)) (j : nat),
    NoDup output ->
    (forall t, In t output -> exists x, h !! t = Some x /\ d_sizes x = sz) ->
    (j + length output <= N)%nat ->
    exists h',
      unflatten_into h ty (Z.of_nat N :: sz) flat j output = Ok h' /\
      (forall k t, output !! k = Some t ->
         exists x, h !! t = Some x /\
                   h' !! t = Some (set_data (slice flat ((j + k) * m) m) x)) /\
      preserves output h h'.
Proof.
  intros Hlen. induction output as [|t rest IH]; intros h j Hnd Hin Hj.
  - exists h. simpl. split_and!; [reflexivity|intros k t Hk; discriminate|].
    apply preserves_refl.
  - apply NoDup_cons in Hnd as [Hnotin Hnd].
    rewrite list_elem_of_In in Hnotin. simpl in Hj.
    destruct (Hin t) as (x & Hx & Hsx); [now left|].
    set (h1 := <[t := set_data (slice flat (j * m) m) x]> h).
    assert (Hsame : forall t', In t' rest -> h1 !! t' = h !! t').
    { intros t' Ht'. unfold h1. apply lookup_insert_ne. congruence. }
    destruct (IH h1 (S j)) as (h' & Hrun & Hrows & Hpres).
    + exact Hnd.
    + intros t' Ht'. rewrite Hsame by exact Ht'. apply Hin. now right.
    + lia.
    + exists h'. split_and!.
      * cbn [unflatten_into].
        rewrite (Result_bind_eq _ _ _ (select_row ty sz flat N m j Hlen ltac:(lia))).
        unfold copy_from, lookup_tensor. rewrite Hx. simpl.
        rewrite bool_decide_eq_true_2 by exact Hsx. simpl. exact Hrun.
      * intros k t' Hk. destruct k as [|k]; simpl in Hk.
        -- injection Hk as <-. exists x. split; [exact Hx|].
           destruct Hpres as (Hframe & _). rewrite Hframe by exact Hnotin.
           rewrite Nat.add_0_r. apply lookup_insert_eq.
        -- destruct (Hrows k t' Hk) as (x' & Hx' & Hrow).
           assert (In t' rest).
           { rewrite <- list_elem_of_In. eapply list_elem_of_lookup_2; eauto. }
           exists x'. rewrite <- Hsame by assumption. split; [exact Hx'|].
           rewrite Hrow. do 3 f_equal. lia.
      * eapply preserves_trans.
        -- apply (preserves_insert (t :: rest) h t x); [now left|exact Hx].
        -- eapply preserves_mono; [|exact Hpres]. intros t' Ht'. now right.
Qed.

(** All output lists: the [k]-th tensor of every list receives row [k]. *)
Lemma unflatten_all_spec (ty : ScalarType) (sz : list Z) (flat : list E) (N m : nat)
      (outputs : list (list nat)) :
  length flat = (N * m)%nat ->
  forall (h : gmap nat (DenseTensor E)),
    NoDup (concat outputs) ->
    (forall t, In t (concat outputs) -> exists x, h !! t = Some x /\ d_sizes x = sz) ->
    Forall (fun o => (length o <= N)%nat) outputs ->
    exists h',
      unflatten_all h ty (Z.of_nat N :: sz) flat outputs = Ok h' /\
      (forall i o k t, outputs !! i = Some o -> o !! k = Some t ->
         exists x, h !! t = Some x /\
                   h' !! t = Some (set_data (slice flat (k * m) m) x)) /\
      preserves (concat outputs) h h'.
Proof.
  intros Hlen. induction outputs as [|o rest IH]; intros h Hnd Hin Hle.
  - exists h. simpl. split_and!; [reflexivity|intros i o k t Hi; discriminate|].
    apply preserves_refl.
  - simpl in Hnd, Hin. apply NoDup_app in Hnd as (Hnd_o & Hdisj & Hnd_rest).
    apply Forall_cons in Hle as [Hle_o Hle].
    destruct (unflatten_into_spec ty sz flat N m o Hlen h 0) as (h1 & Hrun1 & Hrows1 & Hpres1).
    + exact Hnd_o.
    + intros t Ht. apply Hin. apply in_or_app. now left.
    + simpl. exact Hle_o.
    + assert (Hsame : forall t, In t (concat rest) -> h1 !! t = h !! t).
      { intros t Ht. destruct Hpres1 as (Hframe & _). apply Hframe.
        intros Hto. apply (Hdisj t); rewrite list_elem_of_In; assumption. }
      destruct (IH h1) as (h' & Hrun & Hrows & Hpres).
      * exact Hnd_rest.
      * intros t Ht. rewrite Hsame by exact Ht. apply Hin. apply in_or_app. now right.
      * exact Hle.
      * exists h'. split_and!.
        -- cbn [unflatten_all]. rewrite (Result_bind_eq _ _ _ Hrun1). exact Hrun.
        -- intros i o' k t Hi Hk. destruct i as [|i]; simpl in Hi.
           ++ injection Hi as <-.
              destruct (Hrows1 k t Hk) as (x & Hx & Hrow). exists x.
              split; [exact Hx|].
              destruct Hpres as (Hframe & _). rewrite Hframe; [exact Hrow|].
              intros Htr. apply (Hdisj t); rewrite list_elem_of_In; [|exact Htr].
              rewrite <- list_elem_of_In. eapply list_elem_of_lookup_2; eauto.
           ++ destruct (Hrows i o' k t Hi Hk) as (x & Hx & Hrow).
              assert (In t (concat rest)).
              { apply in_concat. exists o'. split; rewrite <- list_elem_of_In;
                  eapply list_elem_of_lookup_2; eauto. }
              exists x. rewrite <- Hsame by assumption. auto.
        -- simpl. eapply preserves_trans.
           ++ eapply preserves_mono; [|exact Hpres1].
              intros t Ht. apply in_or_app. now left.
           ++ eapply preserves_mono; [|exact Hpres].
              intros t Ht. apply in_or_app. now right.
Qed.

Lemma outputs_flat_shape (h : gmap nat (DenseTensor E)) (o0 : list nat) (t00 : nat)
      (x00 : DenseTensor E) :
  head o0 = Some t00 -> h !! t00 = Some x00 ->
  (forall t, In t o0 -> exists x, h !! t = Some x) ->
  exists os,
    sequence (map (lookup_tensor h) o0) = Ok os /\
    newLikeFlat os
    = Ok (d_type x00, Z.of_nat (length o0) :: d_sizes x00, (length o0 * numel x00)%nat).
Proof.
  intros Hhead Hx00 Hin.
  set (get := fun t => match h !! t with
                       | Some x => x
                       | None => x00
                       end).
  exists (map get o0). split.
  - apply sequence_map_Ok. intros t Ht. destruct (Hin t Ht) as (x & Hx).
    unfold lookup_tensor, get. now rewrite Hx.
  - destruct o0 as [|t0 rest]; [discriminate|]. injection Hhead as ->.
    assert (Hg : get t00 = x00) by (unfold get; now rewrite Hx00).
    unfold newLikeFlat. cbn [map]. rewrite Hg.
    cbn [length]. rewrite length_map. reflexivity.
Qed.

Section Allgather.
Variable gloo_allgather_flat : Z -> list E -> nat -> Result (list E).

(** X25.  For an allgather whose inputs have one supported type and whose
    output tensors are distinct and have one shape, [run] hands the
    transport the inputs laid end to end and a buffer with one row per
    tensor of [outputs[0]], and then copies row [j] of that buffer into
    [outputs[i][j]], for every [i]: all output lists receive the same
    rows, and nothing but the output tensors is written. *)
Theorem allgather_outputs_are_rows (work : AsyncAllgatherWork)
        (h : gmap nat (DenseTensor E)) (ty : ScalarType)
        (o0 : list nat) (t00 : nat) (x00 : DenseTensor E) :
  gw_inputs work <> [] ->
  (forall t, In t (gw_inputs work) -> exists x, h !! t = Some x /\ d_type x = ty) ->
  supported_type ty ->
  head (gw_outputs work) = Some o0 ->
  head o0 = Some t00 ->
  h !! t00 = Some x00 ->
  (forall t, In t (concat (gw_outputs work)) ->
     exists x, h !! t = Some x /\ d_sizes x = d_sizes x00) ->
  NoDup (concat (gw_outputs work)) ->
  Forall (fun o => (length o <= length o0)%nat) (gw_outputs work) ->
  (forall input len, exists flat,
     gloo_allgather_flat (gw_tag work) input len = Ok flat /\ length flat = len) ->
  exists flat h',
    gloo_allgather_flat (gw_tag work) (contents h (gw_inputs work))
                        (length o0 * numel x00) = Ok flat /\
    allgather_run gloo_allgather_flat work h = Ok h' /\
    (forall i o j t, gw_outputs work !! i = Some o -> o !! j = Some t ->
       exists x, h !! t = Some x /\
                 h' !! t = Some (set_data (slice flat (j * numel x00) (numel x00)) x)) /\
    preserves (concat (gw_outputs work)) h h'.
Proof.
  intros Hne Hin Hty Ho0 Ht00 Hx00 Hout Hnd Hle Htr.
  destruct (flatten_contents h (gw_inputs work) ty Hne Hin) as (xs & Hseq & Hflat).
  destruct (Htr (contents h (gw_inputs work)) (length o0 * numel x00)%nat)
    as (flat & Hgather & Hlen).
  destruct (outputs_flat_shape h o0 t00 x00 Ht00 Hx00) as (os & Hos & Hnew).
  { intros t Ht. destruct (Hout t) as (x & Hx & _); eauto.
    apply in_concat. exists o0. split; [|exact Ht].
    destruct (gw_outputs work); [discriminate|]. injection Ho0 as ->. now left. }
  destruct (unflatten_all_spec (d_type x00) (d_sizes x00) flat (length o0) (numel x00)
              (gw_outputs work) Hlen h Hnd Hout Hle) as (h' & Hrun & Hrows & Hpres).
  exists flat, h'. split_and!; auto.
  unfold allgather_run, allgather_tensors.
  destruct (gw_inputs work) as [|t0 rest] eqn:Ein; [contradiction|].
  destruct (Hin t0) as (x0 & Hx0 & Htx0); [now left|].
  assert (Hat : at_index (t0 :: rest) 0 = Ok t0) by reflexivity.
  assert (Hl0 : lookup_tensor h t0 = Ok x0) by (unfold lookup_tensor; now rewrite Hx0).
  assert (Hato : at_index (gw_outputs work) 0 = Ok o0).
  { destruct (gw_outputs work); [discriminate|]. injection Ho0 as ->. reflexivity. }
  unfold supported_type in Hty.
  rewrite (Result_bind_eq _ _ _ Hat), (Result_bind_eq _ _ _ Hl0). cbv zeta.
  rewrite (Result_bind_eq _ _ _ Hseq), (Result_bind_eq _ _ _ Hflat).
  rewrite Htx0, (Result_bind_eq _ _ _ Hty).
  rewrite (Result_bind_eq _ _ _ Hato), (Result_bind_eq _ _ _ Hos).
  rewrite (Result_bind_eq _ _ _ Hnew), (Result_bind_eq _ _ _ Hty).
  cbn [d_data]. rewrite (Result_bind_eq _ _ _ Hgather). exact Hrun.
Qed.

End Allgather.

Section Gather.
Variable gloo_gather : Z -> Z -> list E -> option nat -> Result (list E).

(** X26.  On the root a gather copies row [j] of the flat buffer the
    transport filled into [outputs[0][j]] and writes nothing else; on
    every other rank it hands its input to the transport and leaves the
    store as it was. *)
Theorem gather_writes_on_root_only (work : AsyncGatherWork)
        (h : gmap nat (DenseTensor E)) (t0 : nat) (x0 : DenseTensor E) :
  head (gt_inputs work) = Some t0 ->
  h !! t0 = Some x0 ->
  supported_type (d_type x0) ->
  (forall root input len, exists flat,
     gloo_gather root (gt_tag work) input len = Ok flat /\
     forall n, len = Some n -> length flat = n) ->
  (Z.of_nat (ctx_rank (gt_context work)) <> gt_root work ->
   gather_run gloo_gather work h = Ok h) /\
  (Z.of_nat (ctx_rank (gt_context work)) = gt_root work ->
   forall o0 t00 x00,
     head (gt_outputs work) = Some o0 ->
     head o0 = Some t00 ->
     h !! t00 = Some x00 ->
     (forall t, In t o0 -> exists x, h !! t = Some x /\ d_sizes x = d_sizes x00) ->
     NoDup o0 ->
     exists flat h',
       gloo_gather (gt_root work) (gt_tag work) (d_data x0)
                   (Some (length o0 * numel x00)%nat) = Ok flat /\
       gather_run gloo_gather work h = Ok h' /\
       (forall j t, o0 !! j = Some t ->
          exists x, h !! t = Some x /\
                    h' !! t = Some (set_data (slice flat (j * numel x00) (numel x00)) x)) /\
       preserves o0 h h').
Proof.
  intros Hhead Hx0 Hty Htr.
  assert (Hat : at_index (gt_inputs work) 0 = Ok t0).
  { destruct (gt_inputs work); [discriminate|]. injection Hhead as ->. reflexivity. }
  assert (Hl0 : lookup_tensor h t0 = Ok x0) by (unfold lookup_tensor; now rewrite Hx0).
  unfold supported_type in Hty.
  split.
  - intros Hrank. unfold gather_run, gather_tensors.
    rewrite (Result_bind_eq _ _ _ Hat), (Result_bind_eq _ _ _ Hl0). cbv zeta.
    replace (Z.of_nat (ctx_rank (gt_context work)) =? gt_root work) with false
      by (symmetry; apply Z.eqb_neq; exact Hrank).
    simpl. rewrite Hty. simpl.
    destruct (Htr (gt_root work) (d_data x0) None) as (flat & -> & _). reflexivity.
  - intros Hrank o0 t00 x00 Ho0 Ht00 Hx00 Hout Hnd.
    destruct (Htr (gt_root work) (d_data x0) (Some (length o0 * numel x00)%nat))
      as (flat & Hgather & Hlen).
    specialize (Hlen _ eq_refl).
    destruct (outputs_flat_shape h o0 t00 x00 Ht00 Hx00) as (os & Hos & Hnew).
    { intros t Ht. destruct (Hout t Ht) as (x & Hx & _); eauto. }
    destruct (unflatten_into_spec (d_type x00) (d_sizes x00) flat (length o0) (numel x00)
                o0 Hlen h 0 Hnd Hout) as (h' & Hrun & Hrows & Hpres); [simpl; lia|].
    exists flat, h'. split_and!; auto.
    assert (Hato : at_index (gt_outputs work) 0 = Ok o0).
    { destruct (gt_outputs work); [discriminate|]. injection Ho0 as ->. reflexivity. }
    unfold gather_run, gather_tensors.
    rewrite (Result_bind_eq _ _ _ Hat), (Result_bind_eq _ _ _ Hl0). cbv zeta.
    replace (Z.of_nat (ctx_rank (gt_context work)) =? gt_root work) with true
      by (symmetry; apply Z.eqb_eq; exact Hrank).
    rewrite (Result_bind_eq _ _ _ Hato), (Result_bind_eq _ _ _ Hos).
    rewrite (Result_bind_eq _ _ _ Hnew), (Result_bind_eq _ _ _ Hty).
    simpl. rewrite Hty. simpl. rewrite Hgather. simpl.
    rewrite (Result_bind_eq _ _ _ Hato). exact Hrun.
Qed.

End Gather.
End UnflattenCorrect.

Lemma ex_transport_length (input : list Z) (len : nat) :
  length (firstn len (input ++ repeat 0 len)) = len.
Proof. rewrite length_firstn, length_app, repeat_length. lia. Qed.

Lemma allgather_outputs_are_rows_witness :
  exists flat h',
    ex_allgather_transport (gw_tag ex_allgather_work)
      (contents ex_gather_heap (gw_inputs ex_allgather_work))
      (length [1%nat; 2%nat] * numel (mkDense Int [2] [0; 0])) = Ok flat /\
    allgather_run ex_allgather_transport ex_allgather_work ex_gather_heap = Ok h' /\
    (forall i o j t, gw_outputs ex_allgather_work !! i = Some o -> o !! j = Some t ->
       exists x, ex_gather_heap !! t = Some x /\
                 h' !! t = Some (set_data (slice flat (j * numel (mkDense Int [2] [0; 0]))
                                                 (numel (mkDense Int [2] [0; 0]))) x)) /\
    preserves (concat (gw_outputs ex_allgather_work)) ex_gather_heap h'.
Proof.
  apply (@allgather_outputs_are_rows Z ex_allgather_transport ex_allgather_work
           ex_gather_heap Int [1%nat; 2%nat] 1%nat (mkDense Int [2] [0; 0])).
  - simpl. discriminate.
  - intros t [<-|[]]; eexists; (split; [vm_compute; reflexivity|]); reflexivity.
  - reflexivity.
  - reflexivity.
  - reflexivity.
  - vm_compute. reflexivity.
  - intros t [<-|[<-|[]]]; eexists; (split; [vm_compute; reflexivity|]); reflexivity.
  - simpl. repeat constructor; rewrite list_elem_of_In; simpl; intuition discriminate.
  - repeat constructor.
  - intros input len. eexists. split; [reflexivity|]. apply ex_transport_length.
Defined.

Lemma gather_writes_on_root_only_witness :
  (Z.of_nat (ctx_rank (gt_context ex_gather_work)) <> gt_root ex_gather_work ->
   gather_run ex_gather_transport ex_gather_work ex_gather_heap = Ok ex_gather_heap) /\
  (Z.of_nat (ctx_rank (gt_context ex_gather_work)) = gt_root ex_gather_work ->
   forall o0 t00 x00,
     head (gt_outputs ex_gather_work) = Some o0 ->
     head o0 = Some t00 ->
     ex_gather_heap !! t00 = Some x00 ->
     (forall t, In t o0 ->
        exists x, ex_gather_heap !! t = Some x /\ d_sizes x = d_sizes x00) ->
     NoDup o0 ->
     exists flat h',
       ex_gather_transport (gt_root ex_gather_work) (gt_tag ex_gather_work)
         (d_data (mkDense Int [2] [1; 2])) (Some (length o0 * numel x00)%nat) = Ok flat /\
       gather_run ex_gather_transport ex_gather_work ex_gather_heap = Ok h' /\
       (forall j t, o0 !! j = Some t ->
          exists x, ex_gather_heap !! t = Some x /\
                    h' !! t
                    = Some (set_data (slice flat (j * numel x00) (numel x00)) x)) /\
       preserves o0 ex_gather_heap h').
Proof.
  apply (@gather_writes_on_root_only Z ex_gather_transport ex_gather_work
           ex_gather_heap 0%nat (mkDense Int [2] [1; 2])).
  - reflexivity.
  - vm_compute. reflexivity.
  - reflexivity.
  - intros root input [n|]; eexists; (split; [reflexivity|]).
    + intros n' [= <-]. apply ex_transport_length.
    + intros n' [=].
Defined.

(** ** A constructed group never indexes past its contexts *)

Module ConstructionFacts.
Import Dispatch DispatchSpec DispatchQueue DispatchQueueFacts Construction.

Lemma dispatch_step_contexts (c : Call) (pg : ProcessGroupGloo) :
  contexts_ (snd (dispatch c pg)) = contexts_ pg /\
  (0 < contexts_ pg ->
   Forall (fun w => Z.of_nat (context_of w) < contexts_ pg) (works [fst (dispatch c pg)])).
Proof.
  destruct (is_reduce_scatter c) eqn:Hc.
  { destruct c; try discriminate Hc. unfold dispatch.
    rewrite reduce_scatter_throws. simpl. auto. }
  pose proof (dispatch_outcome c pg Hc) as Ho.
  destruct (dispatch c pg) as [[w|e] pg1]; simpl in *.
  - destruct Ho as (-> & _ & Hctx & _). split; [reflexivity|].
    intros Hpos. constructor; [|constructor]. rewrite Hctx.
    pose proof (Z.mod_pos_bound (collectiveCounter_ pg) (contexts_ pg) Hpos). lia.
  - destruct Ho as [(_ & [->| ->])|(t & tensors & _ & _ & _ & _ & -> & _)]; auto.
Qed.

Lemma dispatch_all_contexts (calls : list Call) :
  forall pg,
    0 < contexts_ pg ->
    Forall (fun w => Z.of_nat (context_of w) < contexts_ pg)
           (works (fst (dispatch_all calls pg))).
Proof.
  induction calls as [|c calls IH]; intros pg Hpos; simpl; [constructor|].
  destruct (dispatch_step_contexts c pg) as (Hsame & Hnew).
  specialize (Hnew Hpos).
  destruct (dispatch c pg) as [r pg1]. simpl in *.
  specialize (IH pg1). rewrite Hsame in IH. specialize (IH Hpos).
  destruct (dispatch_all calls pg1) as [rs pg2]. simpl in *.
  destruct r as [w|e]; simpl in *; [|exact IH].
  constructor; [|exact IH]. now apply Forall_cons in Hnew as [Hw _].
Qed.

(** X27.  A group is only constructed from a device list that is not
    empty; it starts with the counter at zero and an empty queue, and
    whatever calls follow, every work item in its queue was built on a
    context index below the number of devices: [getContext] never reads
    past [contexts_] and never divides by zero. *)
Theorem constructed_group_contexts_in_range
        (use_cuda : bool) (rank size : Z) (options : Options)
        (pg : ProcessGroupGloo) (calls : list Call) :
  construct use_cuda rank size options = Ok pg ->
  devices options <> [] /\
  collectiveCounter_ pg = 0 /\
  workQueue_ pg = [] /\
  Forall (fun w => (context_of w < length (devices options))%nat)
         (workQueue_ (snd (dispatch_all calls pg))).
Proof.
  intros Hnew.
  assert (Hpg : devices options <> [] /\
                contexts_ pg = Z.of_nat (length (devices options)) /\
                collectiveCounter_ pg = 0 /\ workQueue_ pg = []).
  { unfold construct in Hnew. destruct (devices options) as [|d ds]; [discriminate|].
    injection Hnew as <-. split_and!; try reflexivity. discriminate. }
  destruct Hpg as (Hne & Hctx & Hcnt & Hq). split_and!; auto.
  destruct (queue_after_dispatch_all calls pg) as (-> & _).
  rewrite Hq, app_nil_l.
  assert (Hpos : 0 < contexts_ pg).
  { rewrite Hctx. destruct (devices options); [contradiction|simpl; lia]. }
  eapply Forall_impl; [apply (dispatch_all_contexts calls pg Hpos)|].
  intros w Hw. simpl in Hw. lia.
Qed.

Lemma constructed_group_contexts_in_range_witness :
  devices (mkOptions 1000 2 [0%nat; 1%nat]) <> [] /\
  collectiveCounter_ (mkPG false 0 4 2 0 [] [None; None] []) = 0 /\
  workQueue_ (mkPG false 0 4 2 0 [] [None; None] []) = [] /\
  Forall (fun w => (context_of w < length (devices (mkOptions 1000 2 [0%nat; 1%nat])))%nat)
         (workQueue_ (snd (dispatch_all [CallBarrier; CallAllreduce [ex_cpu_tensor] SUM;
                                         CallBarrier]
                                        (mkPG false 0 4 2 0 [] [None; None] [])))).
Proof.
  apply (constructed_group_contexts_in_range false 0 4 (mkOptions 1000 2 [0%nat; 1%nat])).
  reflexivity.
Defined.

End ConstructionFacts.

(** ** A barrier waits before it reaches the transport *)

Section BarrierRunFacts.
Context {W : Type}.
Variable wait : W -> Result unit.
Variable gloo_barrier : Z -> Result unit.

Lemma wait_prior_all_ok (priorWork : list (option W)) :
  Forall (fun w => wait w = Ok tt) (live priorWork) ->
  wait_prior wait priorWork = (map Waited (live priorWork), Ok tt).
Proof.
  unfold live. induction priorWork as [|[w|] rest IH]; simpl; intros HF.
  - reflexivity.
  - apply Forall_cons in HF as [Hw HF]. rewrite Hw, (IH HF). reflexivity.
  - apply IH, HF.
Qed.

Lemma live_app (p1 p2 : list (option W)) : live (p1 ++ p2) = live p1 ++ live p2.
Proof. unfold live. apply omap_app. Qed.

Lemma wait_prior_first_failure (priorWork : list (option W)) :
  forall (before after : list W) (w : W) (e : exn),
    live priorWork = before ++ w :: after ->
    Forall (fun w' => wait w' = Ok tt) before ->
    wait w = Throw e ->
    wait_prior wait priorWork = (map Waited (before ++ [w]), Throw e).
Proof.
  unfold live.
  induction priorWork as [|[w0|] rest IH]; simpl; intros before after w e Hlive Hok Hw.
  - destruct before; discriminate.
  - destruct before as [|b before]; simpl in Hlive.
    + injection Hlive as -> _. rewrite Hw. reflexivity.
    + injection Hlive as -> Hlive. apply Forall_cons in Hok as [Hb Hok].
      rewrite Hb, (IH before after w e Hlive Hok Hw). reflexivity.
  - eauto.
Qed.

(** X28.  [run] of a barrier first waits, in order, for every prior work
    item that is still alive, and calls the transport's barrier only
    after all of them completed; if the wait for one of them throws, the
    run throws the same exception, has waited for nothing after it, and
    has not reached the transport. *)
Theorem barrier_run_waits_first (priorWork : list (option W)) (tag : Z) :
  (Forall (fun w => wait w = Ok tt) (live priorWork) ->
   barrier_run wait gloo_barrier priorWork tag
   = (map Waited (live priorWork) ++ [TransportBarrier tag], gloo_barrier tag)) /\
  (forall before after w e,
     live priorWork = before ++ w :: after ->
     Forall (fun w' => wait w' = Ok tt) before ->
     wait w = Throw e ->
     barrier_run wait gloo_barrier priorWork tag
     = (map Waited (before ++ [w]), Throw e)).
Proof.
  unfold barrier_run. split.
  - intros HF. now rewrite (wait_prior_all_ok priorWork HF).
  - intros before after w e Hlive Hok Hw.
    now rewrite (wait_prior_first_failure priorWork before after w e Hlive Hok Hw).
Qed.

End BarrierRunFacts.
(** ** The queue and the barrier while the workers run *)

Module InterleavingFacts.
Import Dispatch DispatchSpec DispatchQueue DispatchQueueFacts Interleaving.

Lemma works_app (rs1 rs2 : list (Result AsyncWork)) :
  works (rs1 ++ rs2) = works rs1 ++ works rs2.
Proof.
  induction rs1 as [|[w|e] rs1 IH]; simpl; [reflexivity| |exact IH].
  now rewrite IH.
Qed.

(** [barrier] is its snapshot followed by the rest. *)
Lemma barrier_in_two_steps (pg : ProcessGroupGloo) :
  barrier pg = barrier_submit (snapshot pg) pg.
Proof. reflexivity. Qed.

(** The rest of [barrier] does not fail: it hands out the next tag and
    enqueues the work item built on the snapshot. *)
Lemma barrier_submit_returns (priorWork : list (option AsyncWork)) (pg : ProcessGroupGloo) :
  barrier_submit priorWork pg
  = (Ok (AsyncBarrierWork (Z.to_nat (collectiveCounter_ pg mod contexts_ pg))
                          priorWork (collectiveCounter_ pg)),
     submitted pg (AsyncBarrierWork (Z.to_nat (collectiveCounter_ pg mod contexts_ pg))
                                    priorWork (collectiveCounter_ pg))).
Proof. reflexivity. Qed.

(** While no worker moves, the steps are those of [dispatch_all]. *)
Lemma run_calls_only (calls : list Call) :
  forall s,
    caller s = Outside ->
    run (calls_only calls) s
    = Some (mkSystem (snd (dispatch_all calls (group s))) (threads_ s) Outside
                     (returned s ++ fst (dispatch_all calls (group s)))
                     (taken s) (finished s)).
Proof.
  induction calls as [|c calls IH]; intros [pg ths cl rs tk fin] Hc;
    simpl in Hc; subst cl.
  - simpl. now rewrite app_nil_r.
  - cbn [calls_only flat_map]. fold (calls_only calls).
    destruct (is_barrier c) eqn:Hb.
    + destruct c; try discriminate Hb.
      cbn [app run step caller group threads_ returned taken finished dispatch_all dispatch].
      rewrite barrier_in_two_steps.
      destruct (barrier_submit (snapshot pg) pg) as [r pg1].
      rewrite IH by reflexivity. cbn [group threads_ returned taken finished].
      destruct (dispatch_all calls pg1) as [rs' pg2]. simpl.
      now rewrite <- app_assoc.
    + cbn [app run step caller group threads_ returned taken finished dispatch_all].
      rewrite Hb. destruct (dispatch c pg) as [r pg1].
      rewrite IH by reflexivity. cbn [group threads_ returned taken finished].
      destruct (dispatch_all calls pg1) as [rs' pg2]. simpl.
      now rewrite <- app_assoc.
Qed.

(** *** One step *)

(** A step of the caller appends what the call returned to the queue and
    leaves the slots alone; a step of a worker leaves the caller and
    the counter alone. *)
Lemma step_queue (ev : Event) (s s' : System) :
  step ev s = Some s' ->
  taken s ++ workQueue_ (group s) ++ works (skipn (length (returned s)) (returned s'))
  = taken s' ++ workQueue_ (group s') /\
  firstn (length (returned s)) (returned s') = returned s.
Proof.
  destruct s as [pg ths cl rs tk fin]. destruct ev; cbn [step group caller threads_
    returned taken finished].
  - destruct cl; [|discriminate]. destruct (is_barrier c); [discriminate|].
    pose proof (dispatch_step_queue c pg) as (Hq & _).
    destruct (dispatch c pg) as [r pg1]. intros [= <-]. simpl in *.
    rewrite drop_app_length, take_app_length, Hq. auto.
  - destruct cl; [|discriminate]. intros [= <-]. simpl.
    rewrite drop_all, firstn_all. simpl. rewrite app_nil_r. auto.
  - destruct cl as [|prior]; [discriminate|].
    rewrite barrier_submit_returns. intros [= <-]. simpl.
    rewrite drop_app_length, take_app_length. auto.
  - destruct (ths !! workerIndex) as [[| |]|]; try discriminate.
    destruct (workQueue_ pg) as [|work queue] eqn:Hq; [discriminate|].
    intros [= <-]. simpl.
    rewrite drop_all, firstn_all. simpl. rewrite app_nil_r, <- app_assoc. auto.
  - destruct (ths !! workerIndex) as [[| |]|]; try discriminate.
    intros [= <-]. simpl.
    rewrite drop_all, firstn_all. simpl. rewrite app_nil_r. auto.
  - destruct (ths !! workerIndex) as [[| |]|]; try discriminate.
    intros [= <-]. simpl.
    rewrite drop_all, firstn_all. simpl. rewrite app_nil_r. auto.
Qed.

Lemma step_queue_equation (pg0 : ProcessGroupGloo) (ev : Event) (s s' : System) :
  step ev s = Some s' ->
  workQueue_ pg0 ++ works (returned s) = taken s ++ workQueue_ (group s) ->
  workQueue_ pg0 ++ works (returned s') = taken s' ++ workQueue_ (group s').
Proof.
  intros Hstep Hinv. destruct (step_queue ev s s' Hstep) as (Hq & Hr).
  pose proof (firstn_skipn (length (returned s)) (returned s')) as HR.
  rewrite Hr in HR. rewrite <- Hq.
  replace (works (returned s'))
    with (works (returned s) ++ works (skipn (length (returned s)) (returned s')))
    by (rewrite <- works_app, HR; reflexivity).
  rewrite app_assoc, Hinv, <- app_assoc. reflexivity.
Qed.

Lemma step_consistent (ev : Event) (s s' : System) :
  step ev s = Some s' -> consistent s -> consistent s'.
Proof.
  destruct s as [pg ths cl rs tk fin]. unfold consistent.
  destruct ev; cbn [step group caller threads_ returned taken finished];
    intros Hstep (Hlen & Hslot & Htaken).
  - destruct cl; [|discriminate]. destruct (is_barrier c); [discriminate|].
    pose proof (dispatch_step_queue c pg) as (_ & Hp & _).
    destruct (dispatch c pg) as [r pg1]. injection Hstep as <-. simpl in *.
    rewrite Hp. auto.
  - destruct cl; [|discriminate]. injection Hstep as <-. simpl. auto.
  - destruct cl as [|prior]; [discriminate|].
    rewrite barrier_submit_returns in Hstep. injection Hstep as <-. simpl. auto.
  - destruct (ths !! workerIndex) as [[| |]|] eqn:Hi; try discriminate.
    destruct (workQueue_ pg) as [|work queue] eqn:Hq; [discriminate|].
    injection Hstep as <-. simpl.
    pose proof (lookup_lt_Some _ _ _ Hi) as Hlt.
    split_and!.
    + now rewrite !length_insert.
    + intros j w Hj. destruct (decide (workerIndex = j)) as [<-|Hne].
      * rewrite list_lookup_insert_eq in Hj by exact Hlt. injection Hj as <-.
        rewrite list_lookup_insert_eq by lia. reflexivity.
      * rewrite list_lookup_insert_ne in Hj by exact Hne.
        rewrite list_lookup_insert_ne by exact Hne. auto.
    + intros w Hw. apply in_app_or in Hw as [Hw|[<-|[]]].
      * destruct (Htaken w Hw) as [Hf|(j & Hj)]; [now left|right].
        exists j. rewrite list_lookup_insert_ne; [exact Hj|].
        intros <-. rewrite Hi in Hj. discriminate.
      * right. exists workerIndex. now rewrite list_lookup_insert_eq.
  - destruct (ths !! workerIndex) as [[|work|]|] eqn:Hi; try discriminate.
    injection Hstep as <-. simpl.
    pose proof (lookup_lt_Some _ _ _ Hi) as Hlt.
    split_and!.
    + now rewrite length_insert.
    + intros j w Hj. destruct (decide (workerIndex = j)) as [<-|Hne].
      * rewrite list_lookup_insert_eq in Hj by exact Hlt. discriminate.
      * rewrite list_lookup_insert_ne in Hj by exact Hne. auto.
    + intros w Hw. destruct (Htaken w Hw) as [Hf|(j & Hj)].
      * left. apply in_or_app. now left.
      * destruct (decide (workerIndex = j)) as [<-|Hne].
        -- left. apply in_or_app. right. rewrite Hi in Hj. injection Hj as <-. now left.
        -- right. exists j. now rewrite list_lookup_insert_ne.
  - destruct (ths !! workerIndex) as [[| |]|] eqn:Hi; try discriminate.
    injection Hstep as <-. simpl.
    pose proof (lookup_lt_Some _ _ _ Hi) as Hlt.
    split_and!.
    + now rewrite !length_insert.
    + intros j w Hj. destruct (decide (workerIndex = j)) as [<-|Hne].
      * rewrite list_lookup_insert_eq in Hj by exact Hlt. discriminate.
      * rewrite list_lookup_insert_ne in Hj by exact Hne.
        rewrite list_lookup_insert_ne by exact Hne. auto.
    + intros w Hw. destruct (Htaken w Hw) as [Hf|(j & Hj)]; [now left|right].
      exists j. rewrite list_lookup_insert_ne; [exact Hj|].
      intros <-. rewrite Hi in Hj. discriminate.
Qed.

Lemma start_consistent (pg : ProcessGroupGloo) : consistent (start pg).
Proof.
  unfold consistent, start. simpl. split_and!.
  - apply repeat_length.
  - intros i w Hi. apply list_elem_of_lookup_2, list_elem_of_In in Hi.
    apply repeat_spec in Hi. discriminate.
  - intros w [].
Qed.

(** *** Runs *)

Lemma run_invariant (P : System -> Prop) :
  (forall ev s s', step ev s = Some s' -> P s -> P s') ->
  forall evs s s', run evs s = Some s' -> P s -> P s'.
Proof.
  intros Hstep. induction evs as [|ev evs IH]; intros s s' Hrun Hs; simpl in Hrun.
  - injection Hrun as <-. exact Hs.
  - destruct (step ev s) as [s1|] eqn:E; [|discriminate].
    eapply IH; eauto.
Qed.

(** A worker leaves the calling thread, its history and the tag
    counter alone. *)
Lemma worker_step_keeps_caller (ev : Event) (s s' : System) :
  is_worker_event ev = true ->
  step ev s = Some s' ->
  caller s' = caller s /\ returned s' = returned s /\
  collectiveCounter_ (group s') = collectiveCounter_ (group s) /\
  contexts_ (group s') = contexts_ (group s).
Proof.
  destruct s as [pg ths cl rs tk fin].
  destruct ev; try discriminate; intros _;
    cbn [step group caller threads_ returned taken finished];
    destruct (ths !! workerIndex) as [[| |]|]; try discriminate.
  - destruct (workQueue_ pg); [discriminate|]. intros [= <-]. auto.
  - intros [= <-]. auto.
  - intros [= <-]. auto.
Qed.

Lemma worker_run_keeps_caller (evs : list Event) :
  forall s s',
    forallb is_worker_event evs = true ->
    run evs s = Some s' ->
    caller s' = caller s /\ returned s' = returned s /\
    collectiveCounter_ (group s') = collectiveCounter_ (group s) /\
    contexts_ (group s') = contexts_ (group s).
Proof.
  induction evs as [|ev evs IH]; intros s s' Hw Hrun; simpl in *.
  - injection Hrun as <-. auto.
  - apply andb_true_iff in Hw as [Hev Hw].
    destruct (step ev s) as [s1|] eqn:E; [|discriminate].
    destruct (worker_step_keeps_caller ev s s1 Hev E) as (H1 & H2 & H3 & H4).
    destruct (IH s1 s' Hw Hrun) as (H1' & H2' & H3' & H4').
    split_and!; congruence.
Qed.

(** What a run from [start] keeps. *)
Lemma queue_after_run (evs : list Event) (pg0 : ProcessGroupGloo) (s : System) :
  run evs (start pg0) = Some s ->
  workQueue_ pg0 ++ works (returned s) = taken s ++ workQueue_ (group s) /\
  consistent s.
Proof.
  intros Hrun. split.
  - apply (run_invariant
             (fun s => workQueue_ pg0 ++ works (returned s)
                       = taken s ++ workQueue_ (group s))
             (step_queue_equation pg0) evs (start pg0) s Hrun).
    simpl. now rewrite app_nil_r.
  - apply (run_invariant consistent step_consistent evs (start pg0) s Hrun).
    apply start_consistent.
Qed.

(** X11.  With the workers running between the calls: at any moment the
    work items the calls have returned so far, in call order and behind
    what the queue held at the start, are the items the workers have
    popped, in pop order, followed by what the queue still holds.  The
    failed calls have left no entry, and as long as no worker has popped
    an item the queue holds exactly the returned items. *)
Theorem queue_holds_returned_work_not_taken
        (evs : list Event) (pg0 : ProcessGroupGloo) (s : System) :
  run evs (start pg0) = Some s ->
  workQueue_ pg0 ++ works (returned s) = taken s ++ workQueue_ (group s) /\
  (taken s = [] -> workQueue_ (group s) = workQueue_ pg0 ++ works (returned s)).
Proof.
  intros Hrun. destruct (queue_after_run evs pg0 s Hrun) as (Heq & _).
  split; [exact Heq|]. intros Ht. rewrite Heq, Ht. reflexivity.
Qed.

(** X12.  A barrier called while the workers run: its first block takes
    as prior work the slots of the workers followed by the queue, and
    every work item that an earlier call returned, or that the queue
    held at the start, is in that snapshot unless its [execute] has
    already returned.  Whatever the workers do between the snapshot and
    the rest of [barrier], the call does not fail: it returns a barrier
    work item that carries this snapshot and the tag read from the
    counter. *)
Theorem barrier_snapshots_unfinished_work
        (evs : list Event) (pg0 : ProcessGroupGloo) (s : System) :
  run evs (start pg0) = Some s ->
  caller s = Outside ->
  exists s1,
    step BarrierSnapshot s = Some s1 /\
    caller s1 = InBarrier (snapshot (group s)) /\
    (forall work, In work (workQueue_ pg0 ++ works (returned s)) ->
                  In (Some work) (snapshot (group s)) \/ In work (finished s)) /\
    forall evs' s2,
      forallb is_worker_event evs' = true ->
      run evs' s1 = Some s2 ->
      exists context s3,
        step BarrierSubmit s2 = Some s3 /\
        caller s3 = Outside /\
        returned s3
        = returned s ++ [Ok (AsyncBarrierWork context (snapshot (group s))
                                              (collectiveCounter_ (group s)))].
Proof.
  intros Hrun Hc.
  destruct (queue_after_run evs pg0 s Hrun) as (Heq & Hcons).
  exists (mkSystem (group s) (threads_ s) (InBarrier (snapshot (group s)))
                   (returned s) (taken s) (finished s)).
  split_and!.
  - unfold step. now rewrite Hc.
  - reflexivity.
  - intros w Hw. rewrite Heq in Hw.
    destruct Hcons as (_ & Hslot & Htaken). unfold snapshot.
    apply in_app_or in Hw as [Hw|Hw].
    + destruct (Htaken w Hw) as [Hf|(i & Hi)]; [now right|left].
      apply in_or_app. left. rewrite <- list_elem_of_In.
      eapply list_elem_of_lookup_2. apply Hslot. exact Hi.
    + left. apply in_or_app. right. now apply in_map.
  - intros evs' s2 Hw Hrun'.
    destruct (worker_run_keeps_caller evs' _ s2 Hw Hrun') as (Hc2 & Hr2 & Hn2 & Hx2).
    simpl in Hc2, Hr2, Hn2, Hx2.
    unfold step. rewrite Hc2, barrier_submit_returns.
    eexists _, _. split; [reflexivity|]. split; [reflexivity|].
    simpl. rewrite Hr2, Hn2. reflexivity.
Qed.

Lemma queue_holds_returned_work_not_taken_witness :
  exists s,
    run ex_events (start ex_pg) = Some s /\
    workQueue_ ex_pg ++ works (returned s) = taken s ++ workQueue_ (group s) /\
    (taken s = [] -> workQueue_ (group s) = workQueue_ ex_pg ++ works (returned s)).
Proof.
  eexists. split; [vm_compute; reflexivity|].
  apply (queue_holds_returned_work_not_taken ex_events ex_pg).
  vm_compute. reflexivity.
Defined.

Lemma barrier_snapshots_unfinished_work_witness :
  exists s,
    run ex_events (start ex_pg) = Some s /\
    caller s = Outside /\
    exists s1,
      step BarrierSnapshot s = Some s1 /\
      caller s1 = InBarrier (snapshot (group s)) /\
      (forall work, In work (workQueue_ ex_pg ++ works (returned s)) ->
                    In (Some work) (snapshot (group s)) \/ In work (finished s)) /\
      forall evs' s2,
        forallb is_worker_event evs' = true ->
        run evs' s1 = Some s2 ->
        exists context s3,
          step BarrierSubmit s2 = Some s3 /\
          caller s3 = Outside /\
          returned s3
          = returned s ++ [Ok (AsyncBarrierWork context (snapshot (group s))
                                                (collectiveCounter_ (group s)))].
Proof.
  eexists. split; [vm_compute; reflexivity|]. split; [reflexivity|].
  apply (barrier_snapshots_unfinished_work ex_events ex_pg).
  - vm_compute. reflexivity.
  - reflexivity.
Defined.

End InterleavingFacts.
